(** * RepoAnalyzer: the skill scanner and its report, verified

    A shallow embedding of [repo_skill_scanner.py] and [report_generator.py].

    Conventions of the embedding.
    - Text.  A Python [str] is a Rocq [string]; a character stands for the
      code point of the same number, so the embedding covers texts whose code
      points are below 256.  [lower], [\s] and [\w] follow Python on that
      range.
    - Dictionaries and sets.  A [dict] is a [gmap], a [set] a [gset]; a
      loop over one of them is a fold over its elements.  Every loop of the
      program over a set or a dict only adds to sets, appends to per-key
      lists, or does [setdefault], so the results do not depend on the
      iteration order.  [sorted] is a sort by code points.
    - Regular expressions.  The patterns of the program are terms of a small
      regex syntax, run by a backtracking matcher with Python's greedy,
      leftmost semantics.
    - The outside world.  A clone, a file read and the command line are
      inputs: the outcome of each call is given to the function that makes
      the call. *)

From Stdlib Require Import Ascii String NArith Bool.
From stdpp Require Import gmap strings list fin_maps sorting.

Open Scope string_scope.
Open Scope list_scope.

(** ** Characters *)

Module Chars.

Definition code (c : ascii) : N := N_of_ascii c.

Definition between (lo hi : N) (c : ascii) : bool :=
  ((lo <=? code c) && (code c <=? hi))%N.

Definition is_code (n : N) (c : ascii) : bool := (code c =? n)%N.

(** [str.lower] on one character: A-Z, and the capital letters of the
    Latin-1 block (U+00C0..U+00DE without the multiplication sign). *)
Definition lower_char (c : ascii) : ascii :=
  if between 65 90 c || (between 192 222 c && negb (is_code 215 c))
  then ascii_of_N (code c + 32)
  else c.

(** [\s]: the characters for which [str.isspace] holds. *)
Definition is_space (c : ascii) : bool :=
  between 9 13 c || between 28 32 c || is_code 133 c || is_code 160 c.

Definition is_ascii_alnum (c : ascii) : bool :=
  between 48 57 c || between 65 90 c || between 97 122 c.

(** [\w]: alphanumeric in the sense of [str.isalnum], or the underscore. *)
Definition is_word (c : ascii) : bool :=
  is_ascii_alnum c || is_code 95 c
  || is_code 170 c || is_code 178 c || is_code 179 c || is_code 181 c
  || is_code 185 c || is_code 186 c || between 188 190 c
  || (between 192 255 c && negb (is_code 215 c) && negb (is_code 247 c)).

(** The class [[a-zA-Z0-9_\.]] of the Python and JVM import patterns. *)
Definition is_module_char (c : ascii) : bool :=
  is_ascii_alnum c || is_code 95 c || is_code 46 c.

(** The class [[a-zA-Z0-9_\-.]] of the manifest tokenizer. *)
Definition is_manifest_char (c : ascii) : bool :=
  is_module_char c || is_code 45 c.

(** [.] without [re.DOTALL]. *)
Definition is_not_newline (c : ascii) : bool := negb (is_code 10 c).

Definition is_quote (c : ascii) : bool := is_code 39 c || is_code 34 c.
Definition is_not_quote (c : ascii) : bool := negb (is_quote c).

(** The classes of the include pattern: an opening angle bracket or double
    quote, a closing one, and anything but a closing one. *)
Definition is_open_angle (c : ascii) : bool := is_code 60 c || is_code 34 c.
Definition is_close_angle (c : ascii) : bool := is_code 62 c || is_code 34 c.
Definition is_not_close_angle (c : ascii) : bool := negb (is_close_angle c).

End Chars.

(** ** Strings *)

Module Str.

Fixpoint lower (s : string) : string :=
  match s with
  | EmptyString => EmptyString
  | String c s' => String (Chars.lower_char c) (lower s')
  end.

Definition first_char (s : string) : option ascii :=
  match s with
  | EmptyString => None
  | String c _ => Some c
  end.

Fixpoint last_char (s : string) : option ascii :=
  match s with
  | EmptyString => None
  | String c EmptyString => Some c
  | String _ s' => last_char s'
  end.

Fixpoint take (n : nat) (s : string) : string :=
  match n, s with
  | S n', String c s' => String c (take n' s')
  | _, _ => EmptyString
  end.

Fixpoint drop (n : nat) (s : string) : string :=
  match n, s with
  | S n', String _ s' => drop n' s'
  | _, _ => s
  end.

(** [s.startswith(p)] *)
Fixpoint startswith (s p : string) {struct p} : bool :=
  match p, s with
  | EmptyString, _ => true
  | String a p', String b s' => Ascii.eqb a b && startswith s' p'
  | String _ _, EmptyString => false
  end.

(** [key in text] *)
Fixpoint contains (text key : string) : bool :=
  startswith text key ||
  match text with
  | EmptyString => false
  | String _ text' => contains text' key
  end.

Fixpoint rev_onto (s acc : string) : string :=
  match s with
  | EmptyString => acc
  | String c s' => rev_onto s' (String c acc)
  end.

Definition reverse (s : string) : string := rev_onto s EmptyString.

(** [s.split(sep)] for a one-character separator: the pieces between the
    occurrences of [sep]; never the empty list. *)
Fixpoint split (sep : ascii) (s : string) : list string :=
  match s with
  | EmptyString => [EmptyString]
  | String c s' =>
      if Ascii.eqb c sep then EmptyString :: split sep s'
      else match split sep s' with
           | piece :: pieces => String c piece :: pieces
           | [] => [String c EmptyString]
           end
  end.

(** [s.rstrip(chars)] for a one-character set. *)
Fixpoint lstrip (c : ascii) (s : string) : string :=
  match s with
  | String d s' => if Ascii.eqb c d then lstrip c s' else s
  | EmptyString => EmptyString
  end.

Definition rstrip (c : ascii) (s : string) : string :=
  reverse (lstrip c (reverse s)).

(** [s.replace(old, new)] for a non-empty [old]: the occurrences of [old]
    from left to right, without overlap.  [skip] counts the characters of
    an occurrence still to be passed over. *)
Fixpoint replace_from (old new : string) (skip : nat) (s : string) : string :=
  match s with
  | EmptyString => EmptyString
  | String c s' =>
      match skip with
      | S k => replace_from old new k s'
      | O =>
          if startswith s old && negb (String.eqb old EmptyString)
          then new +:+ replace_from old new (String.length old - 1) s'
          else String c (replace_from old new 0 s')
      end
  end.

Definition replace (old new s : string) : string := replace_from old new 0 s.

(** [sorted] on strings: insertion sort by code points. *)
Fixpoint insert_sorted (x : string) (l : list string) : list string :=
  match l with
  | [] => [x]
  | y :: l' => if String.leb x y then x :: l else y :: insert_sorted x l'
  end.

Fixpoint sort (l : list string) : list string :=
  match l with
  | [] => []
  | x :: l' => insert_sorted x (sort l')
  end.

End Str.

(** [sorted(s)] of a set of strings. *)
Definition sorted (s : gset string) : list string := Str.sort (elements s).

(** ** Regular expressions *)

Module Re.

(** The fragment of Python's [re] syntax that the program uses.  A repetition
    is always over a one-character class. *)
Inductive regex : Type :=
  | Lit (s : string)                 (* literal text *)
  | Cls (p : ascii -> bool)          (* one character of a class *)
  | Star (p : ascii -> bool)         (* greedy [p*] *)
  | Seq (r1 r2 : regex)
  | Alt (r1 r2 : regex)              (* [r1|r2], left first *)
  | Group (r : regex)                (* capturing group *)
  | Bol                              (* [^] under [re.MULTILINE] *)
  | WordB.                           (* [\b] *)

Definition Plus (p : ascii -> bool) : regex := Seq (Cls p) (Star p).

(** A position in the subject: the character before it, the text from it on,
    and the text of the capturing group once it has closed. *)
Record cursor : Type := Cursor {
  before : option ascii;
  rest : string;
  grp : option string;
}.

Definition wordy (c : option ascii) : bool :=
  match c with
  | Some c => Chars.is_word c
  | None => false
  end.

(** [\b] holds between a word character and a non-word character or an end
    of the subject. *)
Definition at_boundary (prev next : option ascii) : bool :=
  xorb (wordy prev) (wordy next).

(** [^] with [re.MULTILINE]: at the start of the subject and after each
    newline. *)
Definition at_line_start (prev : option ascii) : bool :=
  match prev with
  | None => true
  | Some c => Chars.is_code 10 c
  end.

Fixpoint lit (l : string) (prev : option ascii) (s : string)
  : option (option ascii * string) :=
  match l with
  | EmptyString => Some (prev, s)
  | String c l' =>
      match s with
      | String d s' => if Ascii.eqb c d then lit l' (Some d) s' else None
      | EmptyString => None
      end
  end.

Section Matcher.
Context {R : Type}.

(** Greedy repetition: take the longest run first, give characters back
    one at a time while the continuation fails. *)
Fixpoint star (p : ascii -> bool) (g : option string)
    (k : cursor -> option R) (prev : option ascii) (s : string) : option R :=
  match s with
  | String c s' =>
      if p c then
        match star p g k (Some c) s' with
        | Some r => Some r
        | None => k (Cursor prev s g)
        end
      else k (Cursor prev s g)
  | EmptyString => k (Cursor prev s g)
  end.

(** The matcher, in continuation-passing style: [exec r cur k] matches [r]
    at [cur] and hands every way of doing so to [k], in Python's order of
    preference, until [k] succeeds. *)
Fixpoint exec (r : regex) (cur : cursor) (k : cursor -> option R) : option R :=
  match r with
  | Lit l =>
      match lit l (before cur) (rest cur) with
      | Some (prev, s) => k (Cursor prev s (grp cur))
      | None => None
      end
  | Cls p =>
      match rest cur with
      | String c s' => if p c then k (Cursor (Some c) s' (grp cur)) else None
      | EmptyString => None
      end
  | Star p => star p (grp cur) k (before cur) (rest cur)
  | Seq r1 r2 => exec r1 cur (fun cur' => exec r2 cur' k)
  | Alt r1 r2 =>
      match exec r1 cur k with
      | Some x => Some x
      | None => exec r2 cur k
      end
  | Group r' =>
      exec r' cur (fun cur' =>
        let n := String.length (rest cur) - String.length (rest cur') in
        k (Cursor (before cur') (rest cur') (Some (Str.take n (rest cur)))))
  | Bol => if at_line_start (before cur) then k cur else None
  | WordB =>
      if at_boundary (before cur) (Str.first_char (rest cur)) then k cur
      else None
  end.
End Matcher.

(** One match attempt at a position: the cursor after the match. *)
Definition match_at (r : regex) (prev : option ascii) (s : string) : option cursor :=
  exec r (Cursor prev s None) Some.

(** [re.search(r, text) is not None] *)
Fixpoint search_from (r : regex) (prev : option ascii) (s : string) : bool :=
  match match_at r prev s with
  | Some _ => true
  | None =>
      match s with
      | String c s' => search_from r (Some c) s'
      | EmptyString => false
      end
  end.

Definition search (r : regex) (text : string) : bool := search_from r None text.

(** [re.findall(r, text)]: the matches from left to right without overlap;
    each reported as the text of the group when the pattern has one, and as
    the whole match otherwise.  [skip] counts the characters of the last
    match still to be passed over.  (Every pattern of the program matches at
    least one character, so the rule for empty matches plays no part.) *)
Fixpoint findall_from (r : regex) (prev : option ascii) (s : string) (skip : nat)
  : list string :=
  let attempt := match skip with O => match_at r prev s | S _ => None end in
  match attempt with
  | Some cur' =>
      let n := String.length s - String.length (rest cur') in
      let found := match grp cur' with Some g => g | None => Str.take n s end in
      found :: match s with
               | String c s' => findall_from r (Some c) s' (n - 1)
               | EmptyString => []
               end
  | None =>
      match s with
      | String c s' => findall_from r (Some c) s' (skip - 1)
      | EmptyString => []
      end
  end.

Definition findall (r : regex) (text : string) : list string :=
  findall_from r None text 0.

End Re.

(** ** The taxonomy tables

    A table is the list of its items in the order of the dictionary literal,
    which is the order in which Python iterates over it. *)

Definition skill : Type := (string * string)%type.   (* (label, category) *)

Definition PACKAGE_KEYWORD_MAP : list (string * skill) :=
  [ ("boto3", ("AWS (boto3)", "Cloud"));
    ("aws", ("AWS", "Cloud"));
    ("aws-sdk", ("AWS SDK (Node.js)", "Cloud"));
    ("azure", ("Azure", "Cloud"));
    ("google-cloud", ("Google Cloud", "Cloud"));
    ("pulumi", ("Pulumi", "Cloud / IaC"));
    ("terraform", ("Terraform", "Cloud / IaC"));
    ("kubernetes", ("Kubernetes", "Containers / Orchestration"));
    ("helm", ("Helm", "Containers / Orchestration"));
    ("flask", ("Flask", "Web & APIs"));
    ("fastapi", ("FastAPI", "Web & APIs"));
    ("django", ("Django", "Web & APIs"));
    ("express", ("Express.js", "Web & APIs"));
    ("nestjs", ("NestJS", "Web & APIs"));
    ("spring", ("Spring Framework", "Web & APIs"));
    ("springboot", ("Spring Boot", "Web & APIs"));
    ("grpc", ("gRPC", "Web & APIs"));
    ("react", ("React", "Frontend"));
    ("react-dom", ("React", "Frontend"));
    ("next", ("Next.js", "Frontend"));
    ("vue", ("Vue.js", "Frontend"));
    ("angular", ("Angular", "Frontend"));
    ("svelte", ("Svelte", "Frontend"));
    ("axios", ("axios (HTTP client)", "Frontend"));
    ("redux", ("Redux", "Frontend"));
    ("tailwind", ("Tailwind CSS", "Frontend"));
    ("bootstrap", ("Bootstrap", "Frontend"));
    ("numpy", ("NumPy", "Data & Analysis"));
    ("pandas", ("Pandas", "Data & Analysis"));
    ("scipy", ("SciPy", "Data & Analysis"));
    ("sklearn", ("scikit-learn", "ML/AI"));
    ("xgboost", ("XGBoost", "ML/AI"));
    ("lightgbm", ("LightGBM", "ML/AI"));
    ("tensorflow", ("TensorFlow", "ML/AI"));
    ("torch", ("PyTorch", "ML/AI"));
    ("keras", ("Keras", "ML/AI"));
    ("opencv", ("OpenCV", "Computer Vision"));
    ("transformers", ("Hugging Face Transformers", "ML/AI"));
    ("sqlalchemy", ("SQLAlchemy", "Databases"));
    ("psycopg2", ("PostgreSQL", "Databases"));
    ("mysql", ("MySQL", "Databases"));
    ("pymongo", ("MongoDB", "Databases"));
    ("redis", ("Redis", "Databases"));
    ("elasticsearch", ("Elasticsearch", "Databases / Search"));
    ("kafka", ("Apache Kafka", "Streaming"));
    ("pulsar", ("Apache Pulsar", "Streaming"));
    ("rabbitmq", ("RabbitMQ", "Messaging"));
    ("pytest", ("pytest", "Testing"));
    ("unittest", ("unittest", "Testing"));
    ("jest", ("Jest", "Testing"));
    ("mocha", ("Mocha", "Testing"));
    ("cypress", ("Cypress", "Testing"));
    ("prometheus", ("Prometheus", "Observability"));
    ("grafana", ("Grafana", "Observability"));
    ("opentelemetry", ("OpenTelemetry", "Observability"));
    ("jwt", ("JWT Authentication", "Security"));
    ("oauth", ("OAuth", "Security"));
    ("bcrypt", ("bcrypt", "Security"));
    ("tkinter", ("Tkinter", "GUI / Desktop"));
    ("pyqt5", ("PyQt5", "GUI / Desktop"));
    ("pyqt", ("PyQt", "GUI / Desktop"));
    ("pyside2", ("PySide2", "GUI / Desktop"));
    ("pyside6", ("PySide6", "GUI / Desktop"));
    ("wx", ("wxPython", "GUI / Desktop"));
    ("kivy", ("Kivy", "GUI / Desktop")) ].

Definition KEYWORD_MAP : list (string * skill) :=
  [ (".github/workflows", ("GitHub Actions (CI/CD)", "CI/CD"));
    ("gitlab-ci", ("GitLab CI", "CI/CD"));
    ("jenkins", ("Jenkins", "CI/CD"));
    ("circleci", ("CircleCI", "CI/CD"));
    ("azure-pipelines", ("Azure Pipelines", "CI/CD"));
    ("terraform", ("Terraform", "Cloud / IaC"));
    ("cloudformation", ("AWS CloudFormation", "Cloud / IaC"));
    ("pulumi", ("Pulumi", "Cloud / IaC"));
    ("kubernetes", ("Kubernetes", "Containers / Orchestration"));
    ("k8s", ("Kubernetes", "Containers / Orchestration"));
    ("helm", ("Helm", "Containers / Orchestration"));
    ("cuda", ("CUDA / NVIDIA (GPU)", "Performance / GPU"));
    ("nvidia", ("NVIDIA / CUDA (GPU)", "Performance / GPU"));
    ("openmp", ("OpenMP", "Performance"));
    ("mpi", ("MPI", "Performance"));
    ("spark", ("Apache Spark", "Data Engineering"));
    ("hadoop", ("Hadoop", "Data Engineering"));
    ("airflow", ("Apache Airflow", "Data Engineering"));
    ("dbt", ("dbt", "Data Engineering"));
    ("oauth", ("OAuth", "Security"));
    ("openid", ("OpenID Connect", "Security"));
    ("saml", ("SAML", "Security"));
    ("tkinter", ("Tkinter", "GUI / Desktop"));
    ("pyqt5", ("PyQt5", "GUI / Desktop"));
    ("pyside", ("PySide", "GUI / Desktop"));
    ("wxpython", ("wxPython", "GUI / Desktop"));
    ("kivy", ("Kivy", "GUI / Desktop")) ].

Definition MANIFEST_FILES : gset string :=
  list_to_set
  [ "requirements.txt"; "requirements-dev.txt";
    "environment.yml"; "environment.yaml";
    "pyproject.toml"; "setup.py"; "setup.cfg"; "poetry.lock";
    "package.json"; "package-lock.json"; "yarn.lock"; "pnpm-lock.yaml";
    "pom.xml"; "build.gradle"; "build.gradle.kts"; "settings.gradle";
    "go.mod"; "go.sum";
    "cargo.toml"; "cargo.lock";
    "gemfile"; "gemfile.lock";
    "csproj"; "fsproj"; "packages.config";
    "composer.json"; "composer.lock";
    "podfile"; "podfile.lock" ].

Definition EXT_LANG_MAP : gmap string string :=
  list_to_map
  [ (".py", "Python"); (".ipynb", "Jupyter Notebook"); (".java", "Java");
    (".js", "JavaScript"); (".ts", "TypeScript");
    (".jsx", "JavaScript (React)"); (".tsx", "TypeScript (React)");
    (".c", "C"); (".h", "C/C++ Header");
    (".cpp", "C++"); (".cc", "C++"); (".cxx", "C++");
    (".rs", "Rust"); (".go", "Go"); (".swift", "Swift"); (".kt", "Kotlin");
    (".m", "Objective-C"); (".mm", "Objective-C++"); (".scala", "Scala");
    (".html", "HTML"); (".css", "CSS"); (".scss", "SCSS");
    (".yaml", "YAML"); (".yml", "YAML"); (".json", "JSON"); (".toml", "TOML");
    (".tf", "Terraform"); (".md", "Markdown"); (".sh", "Shell") ].

(** ** The patterns *)

(** [^\s*(?:import|from)\s+([a-zA-Z0-9_\.]+)] with [re.MULTILINE] *)
Definition IMPORT_RE_PY : Re.regex :=
  Re.Seq Re.Bol (Re.Seq (Re.Star Chars.is_space)
  (Re.Seq (Re.Alt (Re.Lit "import") (Re.Lit "from"))
  (Re.Seq (Re.Plus Chars.is_space)
  (Re.Group (Re.Plus Chars.is_module_char))))).

(** [^\s*import\s+([a-zA-Z0-9_\.]+);] with [re.MULTILINE] *)
Definition IMPORT_RE_JAVA : Re.regex :=
  Re.Seq Re.Bol (Re.Seq (Re.Star Chars.is_space)
  (Re.Seq (Re.Lit "import")
  (Re.Seq (Re.Plus Chars.is_space)
  (Re.Seq (Re.Group (Re.Plus Chars.is_module_char))
  (Re.Lit ";"))))).

(** The include pattern with [re.MULTILINE]: start of line, [\s*], a hash
    sign, [\s*], the word include, [\s*], an opening angle bracket or double
    quote, a group of one or more characters other than a closing one, and a
    closing angle bracket or double quote. *)
Definition INCLUDE_RE_C : Re.regex :=
  Re.Seq Re.Bol (Re.Seq (Re.Star Chars.is_space)
  (Re.Seq (Re.Lit "#") (Re.Seq (Re.Star Chars.is_space)
  (Re.Seq (Re.Lit "include") (Re.Seq (Re.Star Chars.is_space)
  (Re.Seq (Re.Cls Chars.is_open_angle)
  (Re.Seq (Re.Group (Re.Plus Chars.is_not_close_angle))
  (Re.Cls Chars.is_close_angle)))))))).

(** The static import pattern of [extract_imports_from_js]: the word import,
    [\s+], [.*], [\s+], the word from, [\s+], a quote, a group of one or
    more characters other than quotes, a quote. *)
Definition IMPORT_FROM_RE_JS : Re.regex :=
  Re.Seq (Re.Lit "import") (Re.Seq (Re.Plus Chars.is_space)
  (Re.Seq (Re.Star Chars.is_not_newline) (Re.Seq (Re.Plus Chars.is_space)
  (Re.Seq (Re.Lit "from") (Re.Seq (Re.Plus Chars.is_space)
  (Re.Seq (Re.Cls Chars.is_quote)
  (Re.Seq (Re.Group (Re.Plus Chars.is_not_quote))
  (Re.Cls Chars.is_quote)))))))).

(** The require pattern of [extract_imports_from_js]: the text require and an
    opening parenthesis, a quote, a group of one or more characters other
    than quotes, a quote, a closing parenthesis. *)
Definition REQUIRE_RE_JS : Re.regex :=
  Re.Seq (Re.Lit "require(") (Re.Seq (Re.Cls Chars.is_quote)
  (Re.Seq (Re.Group (Re.Plus Chars.is_not_quote))
  (Re.Seq (Re.Cls Chars.is_quote) (Re.Lit ")")))).

(** [[a-zA-Z0-9_\-.]+], the manifest tokenizer *)
Definition MANIFEST_TOKEN_RE : Re.regex := Re.Plus Chars.is_manifest_char.

(** [\b] + [re.escape(key)] + [\b] *)
Definition whole_word (key : string) : Re.regex :=
  Re.Seq Re.WordB (Re.Seq (Re.Lit key) Re.WordB).

(** ** The helpers of the scanner *)

Definition keyword_present (key text : string) : bool :=
  if (String.length key <=? 4)%nat
  then Re.search (whole_word key) text
  else Str.contains text key.

(** [m.split(sep)[0]]; the default stands for the [IndexError] of an empty
    list, which [split] never returns ([split_nonempty] below). *)
Definition first_piece (sep : ascii) (m : string) : string :=
  hd EmptyString (Str.split sep m).

Definition extract_imports_from_py (content : string) : gset string :=
  list_to_set (first_piece "." <$> Re.findall IMPORT_RE_PY content).

Definition normalize_js_pkg (name : string) : string :=
  if Str.startswith name "@" then name else first_piece "/" name.

Definition extract_imports_from_js (content : string) : gset string :=
  list_to_set (normalize_js_pkg <$> Re.findall IMPORT_FROM_RE_JS content)
  ∪ list_to_set (normalize_js_pkg <$> Re.findall REQUIRE_RE_JS content).

Definition extract_imports_from_java (content : string) : gset string :=
  list_to_set ((fun m => Str.lower (first_piece "." m))
               <$> Re.findall IMPORT_RE_JAVA content).

(** The key test of the package table: equality, or the key followed by one
    of the separators [-], [_] and [.] as a prefix. *)
Definition package_key_matches (tl key : string) : bool :=
  String.eqb tl key
  || Str.startswith tl (key +:+ "-")
  || Str.startswith tl (key +:+ "_")
  || Str.startswith tl (key +:+ ".").

Definition map_token_to_skill (token : string) : list skill :=
  let tl := Str.lower token in
  (snd <$> filter (fun e => package_key_matches tl (fst e) = true) PACKAGE_KEYWORD_MAP)
  ++ (snd <$> filter (fun e => Str.contains tl (fst e) = true) KEYWORD_MAP).


(** ** Files *)

(** [PurePath(name).suffix]: the text from the last dot on, when that dot is
    neither the first nor the last character of the name. *)
Fixpoint rfind_dot (s : string) : option nat :=
  match s with
  | EmptyString => None
  | String c s' =>
      match rfind_dot s' with
      | Some i => Some (S i)
      | None => if Chars.is_code 46 c then Some 0 else None
      end
  end.

Definition suffix (name : string) : string :=
  match rfind_dot name with
  | Some i =>
      if (0 <? i)%nat && (i <? String.length name - 1)%nat
      then Str.drop i name else EmptyString
  | None => EmptyString
  end.

(** What the text layer makes of the bytes of a file opened with
    [encoding="utf-8", errors="ignore"]: a run of characters, and of byte
    sequences that are not valid UTF-8, which [errors="ignore"] drops. *)
Inductive piece : Type :=
  | Decoded (c : ascii)
  | Undecodable.

(** The outcome of [open(path, ...)] followed by [f.read()]. *)
Inductive read_result : Type :=
  | ReadRaises (e : string)
  | ReadGives (data : list piece).

Fixpoint decode_ignore (data : list piece) : string :=
  match data with
  | [] => EmptyString
  | Decoded c :: data' => String c (decode_ignore data')
  | Undecodable :: data' => decode_ignore data'
  end.

(** The translation of line ends that a file opened in text mode with the
    default [newline=None] applies to the decoded text: a carriage return
    followed by a line feed, and a carriage return alone, are read as one
    line feed.  [after_cr] tells that the character before was a carriage
    return, already read as a line feed. *)
Fixpoint translate_newlines (after_cr : bool) (s : string) : string :=
  match s with
  | EmptyString => EmptyString
  | String c s' =>
      if Chars.is_code 13 c then String "010" (translate_newlines true s')
      else if Chars.is_code 10 c && after_cr then translate_newlines false s'
      else String c (translate_newlines false s')
  end.

Definition universal_newlines (s : string) : string :=
  translate_newlines false s.

(** [safe_read]: [open(path, "r", encoding="utf-8", errors="ignore")] and
    [f.read()], or the empty string when either raises. *)
Definition safe_read (r : read_result) : string :=
  match r with
  | ReadGives data => universal_newlines (decode_ignore data)
  | ReadRaises _ => EmptyString
  end.

(** A file that decodes without loss. *)
Fixpoint text (s : string) : list piece :=
  match s with
  | EmptyString => []
  | String c s' => Decoded c :: text s'
  end.

(** One file met by [os.walk]: its path relative to the working copy, its
    name, and what reading it gives. *)
Record file : Type := File {
  rel : string;
  filename : string;
  data : read_result;
}.

(** ** The evidence gathered over a working copy *)

Module Raw.

Record t : Type := Make {
  languages : gset string;
  packages_found : gmap string (list string);
  imports_found : gset string;
  manifest_tokens : gset string;
  file_extensions : gset string;
  file_paths : list string;
  evidence : gmap string (list string);
  files_scanned : nat;
}.

Definition empty : t := Make ∅ ∅ ∅ ∅ ∅ [] ∅ 0.

End Raw.

(** [d.setdefault(k, []).append(v)] *)
Definition append_to (k v : string) (d : gmap string (list string))
  : gmap string (list string) :=
  <[k := default [] (d !! k) ++ [v]]> d.

(** [d.setdefault(k, v)], for its effect on [d] *)
Definition setdefault {V : Type} (k : string) (v : V) (d : gmap string V)
  : gmap string V :=
  match d !! k with
  | Some _ => d
  | None => <[k := v]> d
  end.

(** [d.setdefault(k, set()).add(x)] *)
Definition add_to (k x : string) (d : gmap string (gset string))
  : gmap string (gset string) :=
  <[k := default ∅ (d !! k) ∪ {[x]}]> d.

Definition note_package (rel tk : string) (st : Raw.t) : Raw.t :=
  Raw.Make (Raw.languages st) (append_to tk rel (Raw.packages_found st))
    (Raw.imports_found st) (Raw.manifest_tokens st) (Raw.file_extensions st)
    (Raw.file_paths st) (Raw.evidence st) (Raw.files_scanned st).

Definition note_evidence (rel label : string) (st : Raw.t) : Raw.t :=
  Raw.Make (Raw.languages st) (Raw.packages_found st)
    (Raw.imports_found st) (Raw.manifest_tokens st) (Raw.file_extensions st)
    (Raw.file_paths st) (append_to label rel (Raw.evidence st))
    (Raw.files_scanned st).

(** The body of the loops over the import extractors. *)
Definition note_import (rel : string) (st : Raw.t) (pkg : string) : Raw.t :=
  note_package rel pkg
    (Raw.Make (Raw.languages st) (Raw.packages_found st)
       ({[pkg]} ∪ Raw.imports_found st) (Raw.manifest_tokens st)
       (Raw.file_extensions st) (Raw.file_paths st) (Raw.evidence st)
       (Raw.files_scanned st)).

(** The body of the loop over the manifest tokens. *)
Definition note_manifest_token (rel : string) (st : Raw.t) (tk : string) : Raw.t :=
  note_package rel tk
    (Raw.Make (Raw.languages st) (Raw.packages_found st)
       (Raw.imports_found st) ({[tk]} ∪ Raw.manifest_tokens st)
       (Raw.file_extensions st) (Raw.file_paths st) (Raw.evidence st)
       (Raw.files_scanned st)).

(** The body of the loop over the header inclusions. *)
Definition note_include (rel : string) (st : Raw.t) (m : string) : Raw.t :=
  note_package rel (Str.lower (first_piece "." m)) st.

(** The body of the two loops over the taxonomy tables. *)
Definition note_keyword (rel content_l rel_l : string) (st : Raw.t)
    (item : string * skill) : Raw.t :=
  let '(key, (label, _)) := item in
  if keyword_present key content_l || keyword_present key rel_l
  then note_evidence rel label (note_package rel key st)
  else st.

(** The first lines of the loop body: the counters, the path and the
    extension. *)
Definition note_file (rel_l ext : string) (st : Raw.t) : Raw.t :=
  let exts :=
    if String.eqb ext EmptyString then Raw.file_extensions st
    else {[ext]} ∪ Raw.file_extensions st in
  let langs :=
    if String.eqb ext EmptyString then Raw.languages st
    else match EXT_LANG_MAP !! ext with
         | Some lang => {[lang]} ∪ Raw.languages st
         | None => Raw.languages st
         end in
  Raw.Make langs (Raw.packages_found st) (Raw.imports_found st)
    (Raw.manifest_tokens st) exts (Raw.file_paths st ++ [rel_l])
    (Raw.evidence st) (S (Raw.files_scanned st)).

Definition one_of (ext : string) (exts : list string) : bool :=
  bool_decide (ext ∈ exts).

(** A statement [if b: body], as a change of the evidence. *)
Definition when (b : bool) (body : Raw.t -> Raw.t) (st : Raw.t) : Raw.t :=
  if b then body st else st.

(** The body of the loop of [scan_repo] over the files.  ([all_content] and
    [repo_content] are written by the program and never read; they are left
    out.) *)
Definition scan_file (st : Raw.t) (f : file) : Raw.t :=
  let rel_l := Str.lower (Str.replace "\" "/" (rel f)) in
  let ext := Str.lower (suffix (filename f)) in
  let st := note_file rel_l ext st in
  let content := safe_read (data f) in
  let content_l := Str.lower content in
  let st :=
    when (bool_decide (Str.lower (filename f) ∈ MANIFEST_FILES))
      (fun st =>
         note_evidence (rel f) "manifests"
           (foldl (note_manifest_token (rel f)) st
              (Re.findall MANIFEST_TOKEN_RE content_l))) st in
  let st :=
    when (String.eqb ext ".py")
      (fun st => foldl (note_import (rel f)) st
                   (elements (extract_imports_from_py content))) st in
  let st :=
    when (one_of ext [".js"; ".ts"; ".jsx"; ".tsx"])
      (fun st => foldl (note_import (rel f)) st
                   (elements (extract_imports_from_js content))) st in
  let st :=
    when (String.eqb ext ".java")
      (fun st => foldl (note_import (rel f)) st
                   (elements (extract_imports_from_java content))) st in
  let st :=
    when (one_of ext [".c"; ".h"; ".cpp"; ".cc"; ".cxx"])
      (fun st => foldl (note_include (rel f)) st
                   (Re.findall INCLUDE_RE_C content)) st in
  let st := foldl (note_keyword (rel f) content_l rel_l) st KEYWORD_MAP in
  foldl (note_keyword (rel f) content_l rel_l) st PACKAGE_KEYWORD_MAP.

Definition scan_files (files : list file) : Raw.t :=
  foldl scan_file Raw.empty files.

(** ** Classification *)

Definition lowered (s : gset string) : gset string := set_map Str.lower s.

Definition all_tokens (st : Raw.t) : gset string :=
  lowered (dom (Raw.packages_found st))
  ∪ lowered (Raw.imports_found st)
  ∪ lowered (Raw.manifest_tokens st).

(** The two dictionaries of the first classification loop. *)
Record candidates : Type := Candidates {
  candidate_skills : gmap string (gset string);
  candidate_mappings : gmap string skill;
}.

Definition note_candidate (token : string) (c : candidates) (s : skill) : candidates :=
  let '(label, category) := s in
  Candidates (add_to category label (candidate_skills c))
             (setdefault token (label, category) (candidate_mappings c)).

Definition note_token (c : candidates) (token : string) : candidates :=
  foldl (note_candidate token) c (map_token_to_skill token).

Definition collect_candidates (tokens : list string) : candidates :=
  foldl note_token (Candidates ∅ ∅) tokens.

(** The provenance of a token: [set(result["packages_found"].get(token, []))] *)
Definition provenance (st : Raw.t) (token : string) : gset string :=
  list_to_set (default [] (Raw.packages_found st !! token)).

Definition seen (st : Raw.t) (token : string) : bool :=
  bool_decide (token ∈ lowered (Raw.imports_found st))
  || bool_decide (token ∈ lowered (Raw.manifest_tokens st))
  || (2 <=? size (provenance st token))%nat.

(** The two dictionaries of the second classification loop. *)
Record tiers : Type := Tiers {
  accepted : gmap string (gset string);
  possible : gmap string (gset string);
}.

Definition note_tier (st : Raw.t) (t : tiers) (entry : string * skill) : tiers :=
  let '(token, (label, category)) := entry in
  if seen st token
  then Tiers (add_to category label (accepted t)) (possible t)
  else Tiers (accepted t) (add_to category label (possible t)).

Definition split_tiers (st : Raw.t) (mappings : gmap string skill) : tiers :=
  foldl (note_tier st) (Tiers ∅ ∅) (map_to_list mappings).

(** ** The Repository Scan Record *)

(** The dictionary [result] as [scan_repo] returns it.  On the return after
    a failed clone the set-valued entries are still the empty sets of the
    initial [result]; they are written as empty lists here, which is also
    what [make_json_safe] turns them into. *)
Record scan_record : Type := ScanRecord {
  repo_url : string;
  repo_name : string;
  cloned : bool;
  errors : list string;
  languages : list string;
  packages_found : gmap string (list string);
  imports_found : list string;
  manifest_tokens : list string;
  file_extensions : gset string;
  file_paths : list string;
  candidate_skills_by_category : gmap string (list string);
  accepted_skills_by_category : gmap string (list string);
  possible_skills_by_category : gmap string (list string);
  evidence : gmap string (list string);
  files_scanned : nat;
}.

(** [sorted(set(v))] *)
Definition sorted_set (v : list string) : list string :=
  sorted (list_to_set v).

(** The outcome of [subprocess.run(["git", "clone", ...], check=True)]: the
    working copy, given by the files that [os.walk] then meets outside the
    [.git] directories, or [CalledProcessError] for a non-zero exit status
    of git, or another exception (no git executable, for one). *)
Inductive clone_result : Type :=
  | Cloned (files : list file)
  | CalledProcessError (msg : string)
  | CloneRaises (e : string).

(** A call that returns or raises. *)
Inductive outcome (A : Type) : Type :=
  | Returns (a : A)
  | Raises (e : string).
Arguments Returns {A} a.
Arguments Raises {A} e.

(** The name of the repository: the last piece of the address between
    slashes, trailing slashes apart, with every [.git] taken out. *)
Definition name_of_repo (url : string) : string :=
  Str.replace ".git" EmptyString
    (List.last (Str.split "/" (Str.rstrip "/" url)) EmptyString).

(** [scan_repo] after a successful clone. *)
Definition classify (url : string) (st : Raw.t) : scan_record :=
  let c := collect_candidates (elements (all_tokens st)) in
  let t := split_tiers st (candidate_mappings c) in
  ScanRecord url (name_of_repo url) true []
    (sorted (Raw.languages st))
    (sorted_set <$> Raw.packages_found st)
    (sorted (Raw.imports_found st))
    (sorted (Raw.manifest_tokens st))
    (Raw.file_extensions st)
    (Raw.file_paths st)
    (sorted <$> candidate_skills c)
    (sorted <$> accepted t)
    (sorted <$> possible t)
    (sorted_set <$> Raw.evidence st)
    (Raw.files_scanned st).

(** [scan_repo] after a clone that raised [CalledProcessError]: the initial
    [result] with the message added. *)
Definition failed (url msg : string) : scan_record :=
  ScanRecord url (name_of_repo url) false [msg] [] ∅ [] [] ∅ [] ∅ ∅ ∅ ∅ 0.

Definition scan_repo (url : string) (clone : clone_result) : outcome scan_record :=
  match clone with
  | Cloned files => Returns (classify url (scan_files files))
  | CalledProcessError msg => Returns (failed url msg)
  | CloneRaises e => Raises e
  end.

(** ** Aggregation *)

(** [agg.setdefault(cat, set()).update(skills)] *)
Definition update_to (cat : string) (skills : list string)
    (agg : gmap string (gset string)) : gmap string (gset string) :=
  <[cat := default ∅ (agg !! cat) ∪ list_to_set skills]> agg.

Definition aggregate_record (agg : gmap string (gset string)) (r : scan_record)
  : gmap string (gset string) :=
  foldl (fun agg item => update_to (fst item) (snd item) agg) agg
    (map_to_list (accepted_skills_by_category r)).

Definition aggregate_results (repo_results : list scan_record)
  : gmap string (list string) :=
  sorted <$> foldl aggregate_record ∅ repo_results.

(** [", ".join(skills)] *)
Fixpoint join (sep : string) (l : list string) : string :=
  match l with
  | [] => EmptyString
  | [x] => x
  | x :: l' => x +:+ sep +:+ join sep l'
  end.

(** [generate_resume_bullets], on the items of [agg] in the order in which
    the dictionary yields them. *)
Definition generate_resume_bullets (items : list (string * list string))
  : list string :=
  (fun item => fst item +:+ ": " +:+ join ", " (snd item) +:+ ".") <$> items.

(** ** The entry point of the scanner *)

(** [results], as handed to [json.dump] *)
Record results : Type := Results {
  repos : list scan_record;
  aggregated : gmap string (list string);
  resume_bullets : list string;
}.

(** What the run does to the outside world, in order. *)
Inductive event : Type :=
  | Print (line : string)
  | Mkdtemp                        (* the scratch workspace is created *)
  | GitClone (url : string)
  | WriteResults (out : results)   (* the output file is written *)
  | Rmtree.                        (* the scratch workspace is removed *)

(** How the run ends. *)
Inductive status : Type :=
  | Finished
  | Exited (code : nat)            (* [sys.exit(code)] *)
  | Crashed (e : string).          (* an exception nobody caught *)

(** What the outside world answers: the command line, the text of the
    input file (or the exception of opening or decoding it), whether the
    workspace can be created, the outcome of each clone by its position in
    the run, whether the output file can be written, and the rank of each
    category in the order in which the dictionary of the aggregate yields
    its keys: the order of their insertion, which goes back to the order
    in which the interpreter iterates over the set of the tokens of each
    repository. *)
Record world : Type := World {
  argv : list string;
  input_file : outcome string;
  mkdtemp : outcome unit;
  clone : nat -> string -> clone_result;
  output_file : outcome unit;
  category_rank : string -> nat;
}.

(** The items of the aggregate in the order in which the dictionary yields
    them: by the rank of their keys. *)
Definition items_in_order (rank : string -> nat) (agg : gmap string (list string))
  : list (string * list string) :=
  merge_sort (H := fun a b => decide (rank (fst a) <= rank (fst b))%nat)
    (fun a b => (rank (fst a) <= rank (fst b))%nat) (map_to_list agg).

(** [l.strip()] *)
Fixpoint lstrip_space (s : string) : string :=
  match s with
  | String c s' => if Chars.is_space c then lstrip_space s' else s
  | EmptyString => EmptyString
  end.

Definition strip (s : string) : string :=
  Str.reverse (lstrip_space (Str.reverse (lstrip_space s))).

(** [[l.strip() for l in f if l.strip()]]: the lines of the input file,
    which is opened in text mode, so that its line ends are translated as
    those of every file read as text. *)
Definition read_repos (content : string) : list string :=
  filter (fun l => l ≠ EmptyString)
    (strip <$> Str.split "010" (universal_newlines content)).

(** The loop of [main] over the repositories; [i] is the position of the
    next clone in the run. *)
Fixpoint scan_all (clone : nat -> string -> clone_result) (i : nat)
    (urls : list string) : list event * outcome (list scan_record) :=
  match urls with
  | [] => ([], Returns [])
  | url :: urls' =>
      let head := [Print ("Scanning: " +:+ url); GitClone url] in
      match scan_repo url (clone i url) with
      | Raises e => (head, Raises e)
      | Returns r =>
          let '(trace, rest) := scan_all clone (S i) urls' in
          (head ++ trace,
           match rest with
           | Returns rs => Returns (r :: rs)
           | Raises e => Raises e
           end)
      end
  end.

Definition usage : string :=
  "Usage: python3 repo_skill_scanner.py repos.txt results.json".

(** The body of the [try] statement of [main]. *)
Definition scan_and_write (w : world) (urls : list string) : list event * status :=
  match scan_all (clone w) 0 urls with
  | (trace, Raises e) => (trace, Crashed e)
  | (trace, Returns rs) =>
      let agg := aggregate_results rs in
      let out :=
        Results rs agg
          (generate_resume_bullets (items_in_order (category_rank w) agg)) in
      match output_file w with
      | Raises e => (trace, Crashed e)
      | Returns _ =>
          (trace ++ [WriteResults out; Print (String "010" "Scan complete.")],
           Finished)
      end
  end.

Definition main (w : world) : list event * status :=
  if (length (argv w) <? 3)%nat then ([Print usage], Exited 1)
  else
    match input_file w with
    | Raises e => ([], Crashed e)
    | Returns content =>
        match mkdtemp w with
        | Raises e => ([], Crashed e)
        | Returns _ =>
            let '(trace, st) := scan_and_write w (read_repos content) in
            (* [finally: shutil.rmtree(workspace, ignore_errors=True)] *)
            (Mkdtemp :: trace ++ [Rmtree], st)
        end
    end.

(** ** The report *)

Module Report.

(** One entry of [repos] in the JSON document, with the keys that the report
    reads; [None] stands for a key that is missing. *)
Record repo : Type := Repo {
  repo_name : option string;
  repo_url : option string;
  languages : option (list string);
  accepted_skills_by_category : option (gmap string (list string));
  accepted : option (gmap string (list string));
  possible_skills_by_category : option (gmap string (list string));
  possible : option (gmap string (list string));
}.

Definition FRAMEWORK_CATEGORIES : gset string :=
  list_to_set
  [ "ML/AI"; "Web & APIs"; "Frontend"; "Data & Analysis"; "Data & Big Data";
    "Frameworks"; "Libraries" ].

Definition DEVTOOL_CATEGORIES : gset string :=
  list_to_set
  [ "Dev Tools"; "CI/CD"; "Build & Packaging"; "Containers & Orchestration";
    "Cloud"; "Testing"; "Security / Auth"; "Databases"; "Messaging / Streaming";
    "Performance / GPU"; "Serialization / RPC"; "Other" ].

Definition collect_skills_by_categories (skill_map : gmap string (list string))
    (categories : gset string) : gset string :=
  foldl (fun s item =>
           if bool_decide (fst item ∈ categories)
           then s ∪ list_to_set (snd item) else s)
    ∅ (map_to_list skill_map).

(** [r.get(k1, {}) or r.get(k2, {})] *)
Definition get_or (first second : option (gmap string (list string)))
  : gmap string (list string) :=
  let a := default ∅ first in
  if bool_decide (a = ∅) then default ∅ second else a.

Definition accepted_of (r : repo) : gmap string (list string) :=
  get_or (accepted_skills_by_category r) (accepted r).

Definition possible_of (r : repo) : gmap string (list string) :=
  get_or (possible_skills_by_category r) (possible r).

Definition frameworks (r : repo) : gset string :=
  collect_skills_by_categories (accepted_of r) FRAMEWORK_CATEGORIES.

Definition devtools (r : repo) : gset string :=
  collect_skills_by_categories (accepted_of r) DEVTOOL_CATEGORIES.

Definition possible_frameworks (r : repo) : gset string :=
  collect_skills_by_categories (possible_of r) FRAMEWORK_CATEGORIES.

Definition possible_devtools (r : repo) : gset string :=
  collect_skills_by_categories (possible_of r) DEVTOOL_CATEGORIES.

(** [agg_frameworks] and [agg_devtools] after the loop over the entries. *)
Definition agg_frameworks (rs : list repo) : gset string :=
  foldl (fun agg r => agg ∪ frameworks r) ∅ rs.

Definition agg_devtools (rs : list repo) : gset string :=
  foldl (fun agg r => agg ∪ devtools r) ∅ rs.

Definition agg_languages (rs : list repo) : gset string :=
  foldl (fun agg r => agg ∪ list_to_set (default [] (languages r))) ∅ rs.

(** A heading and the lines below it: each item printed after [bullet], or
    [nothing] when there is no item. *)
Definition section (heading bullet nothing : string) (items : list string)
  : list string :=
  heading ::
  match items with
  | [] => [bullet +:+ nothing]
  | _ => (fun x => bullet +:+ x) <$> items
  end.

(** A heading and its lines, printed only when there are items. *)
Definition optional_section (heading bullet : string) (items : list string)
  : list string :=
  match items with
  | [] => []
  | _ => heading :: ((fun x => bullet +:+ x) <$> items)
  end.

(** [r.get("repo_name") or r.get("repo_url")], as an f-string shows it *)
Definition shown_name (r : repo) : string :=
  match repo_name r with
  | Some (String c n) => String c n
  | _ => default "None" (repo_url r)
  end.

(** The lines printed for one entry of [repos]. *)
Definition repo_lines (r : repo) : list string :=
  [String "010" "Repository: " +:+ shown_name r]
  ++ section "  Programming languages:" "   - " "(none detected)"
       (default [] (languages r))
  ++ section "  Frameworks & Libraries (confirmed):" "   - " "(none confirmed)"
       (sorted (frameworks r))
  ++ optional_section "  Frameworks & Libraries (possible/unconfirmed):" "   - "
       (sorted (possible_frameworks r))
  ++ section "  Development tools (confirmed):" "   - " "(none confirmed)"
       (sorted (devtools r))
  ++ optional_section "  Development tools (possible/unconfirmed):" "   - "
       (sorted (possible_devtools r)).

(** The lines printed after the loop. *)
Definition summary_lines (rs : list repo) : list string :=
  section "Programming languages:" " - " "(none detected)"
    (sorted (agg_languages rs))
  ++ section (String "010" "Frameworks & Libraries (confirmed):") " - "
       "(none detected)" (sorted (agg_frameworks rs))
  ++ section (String "010" "Development tools (confirmed):") " - "
       "(none detected)" (sorted (agg_devtools rs)).

End Report.

(** The entry of the JSON document that the scanner writes for a record, as
    the report reads it back. *)
Definition report_entry (r : scan_record) : Report.repo :=
  Report.Repo (Some (repo_name r)) (Some (repo_url r)) (Some (languages r))
    (Some (accepted_skills_by_category r)) None
    (Some (possible_skills_by_category r)) None.

(** * Specification

    The vocabulary of the statements, and the inputs of the examples. *)

(** A label is listed under a category of a tier. *)
Definition In_tier (tier : gmap string (list string)) (category label : string) : Prop :=
  ∃ labels, tier !! category = Some labels ∧ label ∈ labels.

(** The same for a tier still held as sets. *)
Definition in_sets (d : gmap string (gset string)) (category label : string) : Prop :=
  ∃ s, d !! category = Some s ∧ label ∈ s.

(** The skill that the classification keeps for a token: its entry in
    [candidate_mappings]. *)
Definition mapped_skill (st : Raw.t) (token : string) : option skill :=
  candidate_mappings (collect_candidates (elements (all_tokens st))) !! token.

(** A file that the scanner takes for a dependency manifest, and the tokens
    that the tokenizer finds in it. *)
Definition is_manifest (f : file) : Prop :=
  Str.lower (filename f) ∈ MANIFEST_FILES.

Definition manifest_tokens_of (f : file) : list string :=
  Re.findall MANIFEST_TOKEN_RE (Str.lower (safe_read (data f))).

(** The packages that the import extractors find in a file: those of Python
    in a [.py] file, of ECMAScript in a [.js], [.ts], [.jsx] or [.tsx] file,
    of the JVM in a [.java] file. *)
Definition imports_of (f : file) : gset string :=
  let ext := Str.lower (suffix (filename f)) in
  (if String.eqb ext ".java"
   then extract_imports_from_java (safe_read (data f)) else ∅)
  ∪ (if one_of ext [".js"; ".ts"; ".jsx"; ".tsx"]
     then extract_imports_from_js (safe_read (data f)) else ∅)
  ∪ (if String.eqb ext ".py"
     then extract_imports_from_py (safe_read (data f)) else ∅).

(** A file with its name for path, at the top of the working copy. *)
Definition top_file (name content : string) : file :=
  File name name (ReadGives (text content)).

Definition demo_url : string := "https://example.org/team/demo.git".

(** A working copy with a single pipeline definition, empty. *)
Definition pipeline_repo : list file := [top_file "azure-pipelines.yml" EmptyString].

(** A working copy with a single C source that includes one header. *)
Definition cuda_repo : list file := [top_file "main.c" "#include <cuda.h>"].

(** Two files that each mention Kubernetes once. *)
Definition kubernetes_repo : list file :=
  [ File "docs/a.txt" "a.txt" (ReadGives (text "kubernetes"));
    File "docs/b.txt" "b.txt" (ReadGives (text "kubernetes")) ].

(** A single manifest. *)
Definition requirements : file :=
  top_file "requirements.txt" "flask
requests
".

(** A decidable statement about concrete data, settled by evaluation. *)
Ltac evaluate :=
  match goal with
  | |- ?P => refine (@bool_decide_unpack P _ _); vm_compute; exact I
  end.

(** The conjuncts of a goal, one by one. *)
Ltac conjuncts :=
  repeat match goal with |- _ ∧ _ => split end.

(** The keys of the two taxonomy tables. *)
Definition table_keys : list string :=
  (fst <$> KEYWORD_MAP) ++ (fst <$> PACKAGE_KEYWORD_MAP).

(** [key] occurs in [text]. *)
Definition occurs_in (key text : string) : Prop :=
  ∃ pre post, text = pre +:+ key +:+ post.

(** [key] occurs in [text] as a whole word: with no word character next to
    the occurrence, on either side. *)
Definition occurs_as_word_in (key text : string) : Prop :=
  ∃ pre post, text = pre +:+ key +:+ post
    ∧ Re.wordy (Str.last_char pre) = false
    ∧ Re.wordy (Str.first_char post) = false.

(** A key made of word characters, at least one. *)
Fixpoint all_word (s : string) : bool :=
  match s with
  | EmptyString => true
  | String c s' => Chars.is_word c && all_word s'
  end.

Definition word_key (key : string) : bool :=
  negb (String.eqb key EmptyString) && all_word key.

(** The character before a position that lies [s] after a position with
    [prev] before it. *)
Definition last_or (prev : option ascii) (s : string) : option ascii :=
  match Str.last_char s with
  | Some c => Some c
  | None => prev
  end.

(** The skills of the two taxonomy tables. *)
Definition table_skills : list skill :=
  (snd <$> PACKAGE_KEYWORD_MAP) ++ (snd <$> KEYWORD_MAP).

(** A record that some call of [scan_repo] returns. *)
Definition scanned (r : scan_record) : Prop :=
  ∃ url clone, scan_repo url clone = Returns r.

(** An event on the scratch workspace. *)
Definition on_workspace (e : event) : Prop := e = Mkdtemp ∨ e = Rmtree.

(** A command line without the two arguments. *)
Definition usage_world : world :=
  World ["repo_skill_scanner.py"] (Raises "no input file") (Returns tt)
    (fun _ _ => CloneRaises "not reached") (Raises "not reached") (fun _ => 0%nat).

(** Three repositories, the second of which cannot be cloned. *)
Definition three_repos_world : world :=
  World ["repo_skill_scanner.py"; "repos.txt"; "results.json"]
    (Returns "https://example.org/team/one.git
https://example.org/team/two.git

https://example.org/team/three.git
")
    (Returns tt)
    (fun i _ =>
       match i with
       | 0 => Cloned kubernetes_repo
       | 1 => CalledProcessError "Command returned non-zero exit status 128."
       | _ => Cloned [requirements]
       end)
    (Returns tt) (fun _ => 0%nat).

(** Two pipeline definitions, empty, in two directories. *)
Definition two_pipelines_repo : list file :=
  [ File "a/azure-pipelines.yml" "azure-pipelines.yml" (ReadGives []);
    File "b/azure-pipelines.yml" "azure-pipelines.yml" (ReadGives []) ].

(** A manifest that lists one package, Open MPI. *)
Definition openmpi_manifest : file :=
  top_file "requirements.txt" "openmpi
".

(** An address with a NUL character in it: [subprocess.run] raises
    [ValueError] for such an argument, before git is started. *)
Definition nul_address : string :=
  "https://example.org/team/t" +:+ String "000" "wo.git".

(** Three repositories, the second with that address. *)
Definition nul_address_world : world :=
  World ["repo_skill_scanner.py"; "repos.txt"; "results.json"]
    (Returns ("https://example.org/team/one.git"
              +:+ String "010" (nul_address
              +:+ String "010" ("https://example.org/team/three.git"
              +:+ String "010" EmptyString))))
    (Returns tt)
    (fun i _ =>
       match i with
       | 0 => Cloned kubernetes_repo
       | 1 => CloneRaises "ValueError: embedded null byte"
       | _ => Cloned [requirements]
       end)
    (Returns tt) (fun _ => 0%nat).

(** A Python source whose lines end with carriage returns alone. *)
Definition carriage_return_source : list piece :=
  text ("import os" +:+ String "013" ("import flask" +:+ String "013"
          ("import numpy" +:+ String "013" EmptyString))).


#[local] Instance piece_eq_dec : EqDecision piece.
Proof. solve_decision. Defined.

(** ** Further vocabulary *)

(** The separators after which a package key may be continued. *)
Definition key_separators : list string := ["-"; "_"; "."].

(** Every character of [s] is of the class [p]. *)
Fixpoint all_chars (p : ascii -> bool) (s : string) : bool :=
  match s with
  | EmptyString => true
  | String c s' => p c && all_chars p s'
  end.

(** The character, if there is one, is of the class [p]. *)
Definition of_class (p : ascii -> bool) (c : option ascii) : bool :=
  match c with
  | Some c => p c
  | None => false
  end.

(** [tk] is a maximal run of characters of the class [p] in [text]: a
    non-empty stretch of such characters with none next to it. *)
Definition maximal_run (p : ascii -> bool) (tk text : string) : Prop :=
  ∃ pre post, text = pre +:+ tk +:+ post
    ∧ tk ≠ EmptyString
    ∧ all_chars p tk = true
    ∧ of_class p (Str.last_char pre) = false
    ∧ of_class p (Str.first_char post) = false.

(** A list of strings in strictly ascending order of code points. *)
Definition ascending (l : list string) : Prop :=
  StronglySorted (fun a b => String.ltb a b = true) l.

(** A tier whose categories each list at least one label, in strictly
    ascending order. *)
Definition well_formed_tier (tier : gmap string (list string)) : Prop :=
  map_Forall (fun _ labels => labels ≠ [] ∧ ascending labels) tier.

(** The longest prefix of [s] made of characters of the class [p], and what
    follows it. *)
Fixpoint take_while (p : ascii -> bool) (s : string) : string :=
  match s with
  | String c s' => if p c then String c (take_while p s') else EmptyString
  | EmptyString => EmptyString
  end.

Fixpoint drop_while (p : ascii -> bool) (s : string) : string :=
  match s with
  | String c s' => if p c then drop_while p s' else s
  | EmptyString => EmptyString
  end.

(** The character [c] occurs in [s]. *)
Fixpoint has_char (c : ascii) (s : string) : bool :=
  match s with
  | EmptyString => false
  | String d s' => Ascii.eqb c d || has_char c s'
  end.

(** The path of a file as [file_paths] lists it, its extension, and its
    content as the scanner reads it. *)
Definition path_l (f : file) : string :=
  Str.lower (Str.replace "\" "/" (rel f)).

Definition extension (f : file) : string := Str.lower (suffix (filename f)).

Definition content_of (f : file) : string := safe_read (data f).

(** A taxonomy key is present in the content or in the path of a file. *)
Definition keyword_hit (f : file) (key : string) : bool :=
  keyword_present key (Str.lower (content_of f)) || keyword_present key (path_l f).

(** The tokens that the header inclusions of a C-family file give. *)
Definition includes_of (f : file) : list string :=
  if one_of (extension f) [".c"; ".h"; ".cpp"; ".cc"; ".cxx"]
  then (fun m => Str.lower (first_piece "." m))
       <$> Re.findall INCLUDE_RE_C (content_of f)
  else [].

(** The scan of the file [f] notes the token [k]: as a manifest token, as
    an import, as an included header, or as a taxonomy key that is present. *)
Definition found_in (f : file) (k : string) : Prop :=
  (is_manifest f ∧ k ∈ manifest_tokens_of f)
  ∨ k ∈ imports_of f
  ∨ k ∈ includes_of f
  ∨ (k ∈ table_keys ∧ keyword_hit f k = true).

(** The scan of the file [f] gives evidence under [label]: the file is a
    manifest and the label is the word manifests, or a key of the label is
    present. *)
Definition evidence_in (f : file) (label : string) : Prop :=
  (label = "manifests" ∧ is_manifest f)
  ∨ ∃ key category,
      (key, (label, category)) ∈ KEYWORD_MAP ++ PACKAGE_KEYWORD_MAP
      ∧ keyword_hit f key = true.

(** The paths that a dictionary of path lists holds under a key. *)
Definition held (d : gmap string (list string)) (k : string) : gset string :=
  list_to_set (default [] (d !! k)).

(** The path [rel], when [b] holds. *)
Definition mark (b : bool) (rel : string) : gset string :=
  if b then {[rel]} else ∅.

(** [found_in] and [evidence_in] as computations, step by step of the scan
    of a file from its last step to its first. *)
Definition noted (f : file) (k : string) : bool :=
  existsb (fun e => keyword_hit f (fst e) && String.eqb k (fst e))
    PACKAGE_KEYWORD_MAP
  || existsb (fun e => keyword_hit f (fst e) && String.eqb k (fst e))
       KEYWORD_MAP
  || one_of (extension f) [".c"; ".h"; ".cpp"; ".cc"; ".cxx"]
     && bool_decide
          (k ∈ (fun m => Str.lower (first_piece "." m))
               <$> Re.findall INCLUDE_RE_C (content_of f))
  || String.eqb (extension f) ".java"
     && bool_decide (k ∈ elements (extract_imports_from_java (content_of f)))
  || one_of (extension f) [".js"; ".ts"; ".jsx"; ".tsx"]
     && bool_decide (k ∈ elements (extract_imports_from_js (content_of f)))
  || String.eqb (extension f) ".py"
     && bool_decide (k ∈ elements (extract_imports_from_py (content_of f)))
  || bool_decide (is_manifest f) && bool_decide (k ∈ manifest_tokens_of f).

Definition evidenced (f : file) (label : string) : bool :=
  existsb (fun e => keyword_hit f (fst e) && String.eqb label (fst (snd e)))
    PACKAGE_KEYWORD_MAP
  || existsb (fun e => keyword_hit f (fst e) && String.eqb label (fst (snd e)))
       KEYWORD_MAP
  || bool_decide (is_manifest f) && String.eqb label "manifests".

(** What the loop of [main] prints and clones for a list of addresses. *)
Definition announced (urls : list string) : list event :=
  urls ≫= (fun url => [Print ("Scanning: " +:+ url); GitClone url]).

(** The clones of the addresses before position [i] raise nothing that
    [scan_repo] lets through. *)
Definition clones_before (w : world) (urls : list string) (i : nat) : Prop :=
  ∀ j url e, (j < i)%nat → urls !! j = Some url → clone w j url ≠ CloneRaises e.

(** Two repositories, for the second of which git cannot be started. *)
Definition no_git_world : world :=
  World ["repo_skill_scanner.py"; "repos.txt"; "results.json"]
    (Returns "https://example.org/team/one.git
https://example.org/team/two.git
https://example.org/team/three.git
")
    (Returns tt)
    (fun i _ =>
       match i with
       | 0 => Cloned kubernetes_repo
       | _ => CloneRaises "FileNotFoundError: git"
       end)
    (Returns tt) (fun _ => 0%nat).

(** ** Values handed to [json.dump] *)

(** The values that the program builds: [None], booleans, integers, strings,
    lists, dictionaries with string keys in insertion order, and sets of
    strings. *)
#[warnings="-register-all"]
Inductive pyval : Type :=
  | PNone
  | PBool (b : bool)
  | PInt (n : Z)
  | PStr (s : string)
  | PList (items : list pyval)
  | PDict (items : list (string * pyval))
  | PSet (s : gset string).

(** [make_json_safe]; the elements of a set are strings, which the
    function returns as they are. *)
Fixpoint make_json_safe (obj : pyval) : pyval :=
  match obj with
  | PDict items =>
      PDict (List.map (fun kv => let '(k, v) := kv in (k, make_json_safe v)) items)
  | PList items => PList (List.map make_json_safe items)
  | PSet s => PList (PStr <$> sorted s)
  | _ => obj
  end.

(** A value that [json.dump] can write: one with no set in it. *)
Fixpoint serializable (obj : pyval) : bool :=
  match obj with
  | PDict items => forallb (fun kv => let '(_, v) := kv in serializable v) items
  | PList items => forallb serializable items
  | PSet _ => false
  | _ => true
  end.

(** The keys of a dictionary, in order. *)
Definition keys (obj : pyval) : list string :=
  match obj with
  | PDict items => fst <$> items
  | _ => []
  end.

(** A token of the universe of a working copy: the lower-cased form of a
    token that the scan of some file notes. *)
Definition token_of (files : list file) (token : string) : Prop :=
  ∃ f k, f ∈ files ∧ found_in f k ∧ token = Str.lower k.

(** The three ways in which a token is seen: an import extractor of Python,
    ECMAScript or the JVM found it, the manifest tokenizer found it, or two
    files of different paths note it as it is written. *)
Definition strong_in (files : list file) (token : string) : Prop :=
  (∃ f pkg, f ∈ files ∧ pkg ∈ imports_of f ∧ token = Str.lower pkg)
  ∨ (∃ f tk, f ∈ files ∧ is_manifest f ∧ tk ∈ manifest_tokens_of f
             ∧ token = Str.lower tk)
  ∨ (∃ f1 f2, f1 ∈ files ∧ f2 ∈ files ∧ rel f1 ≠ rel f2
              ∧ found_in f1 token ∧ found_in f2 token).

(** A dictionary of sets none of which is empty. *)
Definition inhabited_sets (d : gmap string (gset string)) : Prop :=
  map_Forall (fun _ s => s ≠ (∅ : gset string)) d.

(** * Proofs *)

(** ** Tiers as sets and as sorted lists *)

Lemma insert_sorted_elem x y l : y ∈ Str.insert_sorted x l ↔ y = x ∨ y ∈ l.
Proof.
  induction l as [|z l IH]; simpl.
  - set_solver.
  - destruct (String.leb x z); [set_solver|].
    rewrite elem_of_cons, IH. set_solver.
Qed.

Lemma sort_elem y l : y ∈ Str.sort l ↔ y ∈ l.
Proof.
  induction l as [|x l IH]; simpl; [done|].
  rewrite insert_sorted_elem, IH. set_solver.
Qed.

Lemma sorted_elem y (s : gset string) : y ∈ sorted s ↔ y ∈ s.
Proof. unfold sorted. rewrite sort_elem. apply elem_of_elements. Qed.

Lemma In_tier_sorted d category label :
  In_tier (sorted <$> d) category label ↔ in_sets d category label.
Proof.
  unfold In_tier, in_sets. rewrite lookup_fmap. split.
  - intros (labels & Hl & Hin). destruct (d !! category) as [s|]; [|done].
    simpl in Hl. injection Hl as <-. exists s. by rewrite <- sorted_elem.
  - intros (s & -> & Hin). exists (sorted s). by rewrite sorted_elem.
Qed.

Lemma in_sets_empty category label : ¬ in_sets ∅ category label.
Proof. intros (s & Hs & _). by rewrite lookup_empty in Hs. Qed.

Lemma in_sets_add_to k x d category label :
  in_sets (add_to k x d) category label
  ↔ in_sets d category label ∨ (category = k ∧ label = x).
Proof.
  unfold in_sets, add_to. destruct (decide (category = k)) as [->|Hne].
  - rewrite lookup_insert_eq. split.
    + intros (s & [= <-] & Hin). apply elem_of_union in Hin as [Hin|Hin].
      * left. destruct (d !! k) as [s0|]; [by exists s0|set_solver].
      * right. set_solver.
    + intros [(s & Hs & Hin)|[_ ->]]; eexists; (split; [done|]).
      * rewrite Hs. set_solver.
      * set_solver.
  - rewrite lookup_insert_ne by done. naive_solver.
Qed.

Lemma in_sets_update_to k xs d category label :
  in_sets (update_to k xs d) category label
  ↔ in_sets d category label ∨ (category = k ∧ label ∈ xs).
Proof.
  unfold in_sets, update_to. destruct (decide (category = k)) as [->|Hne].
  - rewrite lookup_insert_eq. split.
    + intros (s & [= <-] & Hin). apply elem_of_union in Hin as [Hin|Hin].
      * left. destruct (d !! k) as [s0|]; [by exists s0|set_solver].
      * right. set_solver.
    + intros [(s & Hs & Hin)|[_ Hin]]; eexists; (split; [done|]).
      * rewrite Hs. set_solver.
      * set_solver.
  - rewrite lookup_insert_ne by done. naive_solver.
Qed.

(** ** Aggregation *)

Lemma aggregate_record_spec agg r category label :
  in_sets (aggregate_record agg r) category label
  ↔ in_sets agg category label
    ∨ In_tier (accepted_skills_by_category r) category label.
Proof.
  unfold aggregate_record, In_tier.
  setoid_rewrite <- elem_of_map_to_list.
  generalize (map_to_list (accepted_skills_by_category r)) as items.
  intros items. revert agg.
  induction items as [|[cat skills] items IH]; intros agg; simpl.
  - split; [by left|]. intros [?|(? & Hin & _)]; [done|]. by apply elem_of_nil in Hin.
  - rewrite IH, in_sets_update_to. setoid_rewrite elem_of_cons. naive_solver.
Qed.

Lemma aggregate_fold_spec agg rs category label :
  in_sets (foldl aggregate_record agg rs) category label
  ↔ in_sets agg category label
    ∨ ∃ r, r ∈ rs ∧ In_tier (accepted_skills_by_category r) category label.
Proof.
  revert agg. induction rs as [|r rs IH]; intros agg; simpl.
  - split; [by left|]. intros [?|(? & Hin & _)]; [done|]. by apply elem_of_nil in Hin.
  - rewrite IH, aggregate_record_spec. setoid_rewrite elem_of_cons. naive_solver.
Qed.

Lemma aggregate_results_spec rs category label :
  In_tier (aggregate_results rs) category label
  ↔ ∃ r, r ∈ rs ∧ In_tier (accepted_skills_by_category r) category label.
Proof.
  unfold aggregate_results. rewrite In_tier_sorted, aggregate_fold_spec.
  split; [|by right]. intros [H|H]; [|done]. by apply in_sets_empty in H.
Qed.

(** ** The two loops of the classification *)

Lemma setdefault_present {V} k (v : V) d :
  is_Some (d !! k) → setdefault k v d = d.
Proof. intros [x Hx]. unfold setdefault. by rewrite Hx. Qed.

Lemma setdefault_defined {V} k (v : V) d : is_Some (setdefault k v d !! k).
Proof.
  unfold setdefault. destruct (d !! k) eqn:E.
  - rewrite E. eauto.
  - rewrite lookup_insert_eq. eauto.
Qed.

Lemma setdefault_lookup {V} k (v : V) d k' :
  setdefault k v d !! k'
  = match d !! k' with
    | Some x => Some x
    | None => if decide (k = k') then Some v else None
    end.
Proof.
  unfold setdefault. destruct (decide (k = k')) as [->|Hne].
  - destruct (d !! k') as [x|] eqn:E.
    + by rewrite E.
    + by rewrite lookup_insert_eq.
  - destruct (d !! k) eqn:E.
    + by destruct (d !! k').
    + rewrite lookup_insert_ne by done. by destruct (d !! k').
Qed.

Lemma candidate_mappings_token token c skills :
  candidate_mappings (foldl (note_candidate token) c skills)
  = match head skills with
    | Some s => setdefault token s (candidate_mappings c)
    | None => candidate_mappings c
    end.
Proof.
  revert c. induction skills as [|[label category] skills IH]; intros c; [done|].
  simpl. rewrite IH. simpl.
  destruct (head skills); [|done].
  apply setdefault_present, setdefault_defined.
Qed.

(** The entry of a token in [candidate_mappings] is the first skill that
    [map_token_to_skill] gives for it. *)
Lemma candidate_mappings_fold tokens c token :
  candidate_mappings (foldl note_token c tokens) !! token
  = match candidate_mappings c !! token with
    | Some s => Some s
    | None => if decide (token ∈ tokens) then head (map_token_to_skill token) else None
    end.
Proof.
  revert c. induction tokens as [|t tokens IH]; intros c.
  - cbn [foldl]. destruct (candidate_mappings c !! token); [done|].
    case_decide as Hin; [by apply elem_of_nil in Hin|done].
  - cbn [foldl]. rewrite IH. unfold note_token at 1.
    rewrite candidate_mappings_token.
    destruct (head (map_token_to_skill t)) as [s|] eqn:Hh.
    + rewrite setdefault_lookup.
      destruct (candidate_mappings c !! token); [done|].
      repeat case_decide; subst; rewrite ?elem_of_cons in *; naive_solver.
    + destruct (candidate_mappings c !! token); [done|].
      repeat case_decide; subst; rewrite ?elem_of_cons in *; naive_solver.
Qed.

Lemma candidate_skills_token token c skills category label :
  in_sets (candidate_skills (foldl (note_candidate token) c skills)) category label
  ↔ in_sets (candidate_skills c) category label ∨ (label, category) ∈ skills.
Proof.
  revert c. induction skills as [|[l k] skills IH]; intros c; simpl.
  - split; [by left|]. intros [?|H]; [done|]. by apply elem_of_nil in H.
  - rewrite IH. simpl. rewrite in_sets_add_to, elem_of_cons. naive_solver.
Qed.

Lemma candidate_skills_fold tokens c category label :
  in_sets (candidate_skills (foldl note_token c tokens)) category label
  ↔ in_sets (candidate_skills c) category label
    ∨ ∃ token, token ∈ tokens ∧ (label, category) ∈ map_token_to_skill token.
Proof.
  revert c. induction tokens as [|t tokens IH]; intros c; cbn [foldl].
  - split; [by left|]. intros [?|(? & H & _)]; [done|]. by apply elem_of_nil in H.
  - rewrite IH. unfold note_token at 1. rewrite candidate_skills_token.
    setoid_rewrite elem_of_cons. naive_solver.
Qed.

Lemma tiers_fold st entries t category label :
  (in_sets (accepted (foldl (note_tier st) t entries)) category label
   ↔ in_sets (accepted t) category label
     ∨ ∃ token, (token, (label, category)) ∈ entries ∧ seen st token = true)
  ∧ (in_sets (possible (foldl (note_tier st) t entries)) category label
     ↔ in_sets (possible t) category label
       ∨ ∃ token, (token, (label, category)) ∈ entries ∧ seen st token = false).
Proof.
  revert t. induction entries as [|[token [l k]] entries IH]; intros t; simpl.
  - split; (split; [by left|]); intros [?|(? & H & _)]; try done;
      by apply elem_of_nil in H.
  - destruct (IH (note_tier st t (token, (l, k)))) as [IHa IHp].
    rewrite IHa, IHp. clear IH IHa IHp. unfold note_tier.
    setoid_rewrite elem_of_cons.
    destruct (seen st token) eqn:Hs; simpl; rewrite in_sets_add_to.
    + split; [naive_solver|]. split; [naive_solver|].
      intros [?|(tk & [[= -> -> ->]|?] & ?)]; [naive_solver|congruence|naive_solver].
    + split; [|naive_solver]. split; [naive_solver|].
      intros [?|(tk & [[= -> -> ->]|?] & ?)]; [naive_solver|congruence|naive_solver].
Qed.

(** ** The tiers of a record *)

Section Classification.
Context (url : string) (st : Raw.t).

Lemma mapped_skill_spec token :
  mapped_skill st token
  = if decide (token ∈ all_tokens st) then head (map_token_to_skill token) else None.
Proof.
  unfold mapped_skill, collect_candidates. rewrite candidate_mappings_fold.
  cbn [candidate_mappings]. rewrite lookup_empty.
  repeat case_decide; rewrite ?elem_of_elements in *; naive_solver.
Qed.

Lemma mapped_skill_token token s :
  mapped_skill st token = Some s → token ∈ all_tokens st.
Proof. rewrite mapped_skill_spec. by case_decide. Qed.

Lemma mapped_skill_first token s :
  mapped_skill st token = Some s → head (map_token_to_skill token) = Some s.
Proof. rewrite mapped_skill_spec. by case_decide. Qed.

Lemma seen_spec token :
  seen st token = true
  ↔ token ∈ lowered (Raw.imports_found st)
    ∨ token ∈ lowered (Raw.manifest_tokens st)
    ∨ (2 ≤ size (provenance st token))%nat.
Proof.
  unfold seen. rewrite !orb_true_iff, !bool_decide_eq_true, Nat.leb_le.
  tauto.
Qed.

Lemma accepted_spec category label :
  In_tier (accepted_skills_by_category (classify url st)) category label
  ↔ ∃ token, mapped_skill st token = Some (label, category) ∧ seen st token = true.
Proof.
  unfold classify. cbn [accepted_skills_by_category].
  rewrite In_tier_sorted. unfold split_tiers.
  rewrite (proj1 (tiers_fold _ _ _ _ _)). cbn [accepted].
  setoid_rewrite elem_of_map_to_list. unfold mapped_skill.
  split; [|by right]. intros [H|H]; [by apply in_sets_empty in H|done].
Qed.

Lemma possible_spec category label :
  In_tier (possible_skills_by_category (classify url st)) category label
  ↔ ∃ token, mapped_skill st token = Some (label, category) ∧ seen st token = false.
Proof.
  unfold classify. cbn [possible_skills_by_category].
  rewrite In_tier_sorted. unfold split_tiers.
  rewrite (proj2 (tiers_fold _ _ _ _ _)). cbn [possible].
  setoid_rewrite elem_of_map_to_list. unfold mapped_skill.
  split; [|by right]. intros [H|H]; [by apply in_sets_empty in H|done].
Qed.

Lemma candidate_spec category label :
  In_tier (candidate_skills_by_category (classify url st)) category label
  ↔ ∃ token, token ∈ all_tokens st ∧ (label, category) ∈ map_token_to_skill token.
Proof.
  unfold classify. cbn [candidate_skills_by_category].
  rewrite In_tier_sorted. unfold collect_candidates.
  rewrite candidate_skills_fold. cbn [candidate_skills].
  setoid_rewrite elem_of_elements.
  split; [|by right]. intros [H|H]; [by apply in_sets_empty in H|done].
Qed.

(** Every skill of the accepted and of the possible tier is a candidate. *)
Lemma tiers_within_candidates category label :
  In_tier (accepted_skills_by_category (classify url st)) category label
  ∨ In_tier (possible_skills_by_category (classify url st)) category label
  → In_tier (candidate_skills_by_category (classify url st)) category label.
Proof.
  rewrite accepted_spec, possible_spec, candidate_spec.
  intros [(token & Hm & _)|(token & Hm & _)]; exists token;
    (split; [by eapply mapped_skill_token|]);
    apply mapped_skill_first in Hm; by apply head_Some_elem_of.
Qed.

(** The skill kept for a token goes to the accepted tier when the token
    is seen, and to the possible tier when it is not. *)
Lemma mapped_skill_tier token label category :
  mapped_skill st token = Some (label, category) →
  if seen st token
  then In_tier (accepted_skills_by_category (classify url st)) category label
  else In_tier (possible_skills_by_category (classify url st)) category label.
Proof.
  intros Hm. destruct (seen st token) eqn:Hs.
  - apply accepted_spec. eauto.
  - apply possible_spec. eauto.
Qed.

End Classification.

(** ** What the loop over the files keeps and adds *)

Section FileLoop.
Context (rel : string).

(** A conditional statement keeps what its body keeps. *)
Lemma when_keeps {A} (proj : Raw.t → A) b body st :
  (∀ s, proj (body s) = proj s) → proj (when b body st) = proj st.
Proof. intros H. unfold when. by destruct b. Qed.

Lemma manifest_tokens_imports l st :
  Raw.manifest_tokens (foldl (note_import rel) st l) = Raw.manifest_tokens st.
Proof. revert st. induction l as [|x l IH]; intros st; [done|]. cbn [foldl]. by rewrite IH. Qed.

Lemma manifest_tokens_includes l st :
  Raw.manifest_tokens (foldl (note_include rel) st l) = Raw.manifest_tokens st.
Proof. revert st. induction l as [|x l IH]; intros st; [done|]. cbn [foldl]. by rewrite IH. Qed.

Lemma manifest_tokens_manifest l st :
  Raw.manifest_tokens (foldl (note_manifest_token rel) st l)
  = list_to_set l ∪ Raw.manifest_tokens st.
Proof.
  revert st. induction l as [|x l IH]; intros st; cbn [foldl].
  - set_solver.
  - rewrite IH. cbn. set_solver.
Qed.

Lemma files_scanned_imports l st :
  Raw.files_scanned (foldl (note_import rel) st l) = Raw.files_scanned st.
Proof. revert st. induction l as [|x l IH]; intros st; [done|]. cbn [foldl]. by rewrite IH. Qed.

Lemma files_scanned_includes l st :
  Raw.files_scanned (foldl (note_include rel) st l) = Raw.files_scanned st.
Proof. revert st. induction l as [|x l IH]; intros st; [done|]. cbn [foldl]. by rewrite IH. Qed.

Lemma files_scanned_manifest l st :
  Raw.files_scanned (foldl (note_manifest_token rel) st l) = Raw.files_scanned st.
Proof. revert st. induction l as [|x l IH]; intros st; [done|]. cbn [foldl]. by rewrite IH. Qed.

Lemma imports_found_imports l st :
  Raw.imports_found (foldl (note_import rel) st l)
  = list_to_set l ∪ Raw.imports_found st.
Proof.
  revert st. induction l as [|x l IH]; intros st; cbn [foldl].
  - by rewrite list_to_set_nil, union_empty_l_L.
  - rewrite IH. cbn [note_import note_package Raw.imports_found].
    rewrite list_to_set_cons. set_solver.
Qed.

Lemma imports_found_includes l st :
  Raw.imports_found (foldl (note_include rel) st l) = Raw.imports_found st.
Proof. revert st. induction l as [|x l IH]; intros st; [done|]. cbn [foldl]. by rewrite IH. Qed.

Lemma imports_found_manifest l st :
  Raw.imports_found (foldl (note_manifest_token rel) st l) = Raw.imports_found st.
Proof. revert st. induction l as [|x l IH]; intros st; [done|]. cbn [foldl]. by rewrite IH. Qed.

Lemma manifest_tokens_keywords c p l st :
  Raw.manifest_tokens (foldl (note_keyword rel c p) st l) = Raw.manifest_tokens st.
Proof.
  revert st. induction l as [|[key [label cat]] l IH]; intros st; [done|].
  cbn [foldl]. rewrite IH. unfold note_keyword.
  by destruct (keyword_present key c || keyword_present key p).
Qed.

Lemma files_scanned_keywords c p l st :
  Raw.files_scanned (foldl (note_keyword rel c p) st l) = Raw.files_scanned st.
Proof.
  revert st. induction l as [|[key [label cat]] l IH]; intros st; [done|].
  cbn [foldl]. rewrite IH. unfold note_keyword.
  by destruct (keyword_present key c || keyword_present key p).
Qed.

Lemma imports_found_keywords c p l st :
  Raw.imports_found (foldl (note_keyword rel c p) st l) = Raw.imports_found st.
Proof.
  revert st. induction l as [|[key [label cat]] l IH]; intros st; [done|].
  cbn [foldl]. rewrite IH. unfold note_keyword.
  by destruct (keyword_present key c || keyword_present key p).
Qed.

End FileLoop.

Lemma manifest_tokens_note_file rel_l ext st :
  Raw.manifest_tokens (note_file rel_l ext st) = Raw.manifest_tokens st.
Proof. done. Qed.

Lemma manifest_tokens_when_manifest st f l :
  Raw.manifest_tokens
    (when (bool_decide (Str.lower (filename f) ∈ MANIFEST_FILES))
       (fun st => note_evidence (rel f) "manifests"
                    (foldl (note_manifest_token (rel f)) st l)) st)
  = (if decide (is_manifest f) then list_to_set l else ∅)
    ∪ Raw.manifest_tokens st.
Proof.
  unfold when, is_manifest. rewrite bool_decide_decide.
  destruct (decide (Str.lower (filename f) ∈ MANIFEST_FILES)).
  - cbn [note_evidence Raw.manifest_tokens]. by rewrite manifest_tokens_manifest.
  - by rewrite union_empty_l_L.
Qed.

Lemma manifest_tokens_scan_file st f :
  Raw.manifest_tokens (scan_file st f)
  = (if decide (is_manifest f) then list_to_set (manifest_tokens_of f) else ∅)
    ∪ Raw.manifest_tokens st.
Proof.
  unfold scan_file.
  rewrite !manifest_tokens_keywords.
  rewrite (when_keeps Raw.manifest_tokens) by (intros; apply manifest_tokens_includes).
  rewrite !(when_keeps Raw.manifest_tokens _ (fun s => foldl (note_import _) s _))
    by (intros; apply manifest_tokens_imports).
  rewrite manifest_tokens_when_manifest. done.
Qed.

Lemma manifest_tokens_scan files st tk :
  tk ∈ Raw.manifest_tokens (foldl scan_file st files)
  ↔ tk ∈ Raw.manifest_tokens st
    ∨ ∃ f, f ∈ files ∧ is_manifest f ∧ tk ∈ manifest_tokens_of f.
Proof.
  revert st. induction files as [|f files IH]; intros st; cbn [foldl].
  - split; [by left|]. intros [?|(? & H & _)]; [done|]. by apply elem_of_nil in H.
  - rewrite IH, manifest_tokens_scan_file, elem_of_union. split.
    + intros [[Hin|Hin]|(f' & Hf' & Hrest)].
      * case_decide as Hman; [|by apply not_elem_of_empty in Hin].
        apply elem_of_list_to_set in Hin. right. exists f.
        split; [apply list_elem_of_here|auto].
      * by left.
      * right. exists f'. split; [by apply list_elem_of_further|auto].
    + intros [Hin|(f' & Hf' & Hman & Hin)]; [left; by right|].
      apply elem_of_cons in Hf' as [->|Hf'].
      * left. left. rewrite decide_True by done. by apply elem_of_list_to_set.
      * right. exists f'. auto.
Qed.

Lemma files_scanned_scan_file st f :
  Raw.files_scanned (scan_file st f) = S (Raw.files_scanned st).
Proof.
  unfold scan_file. rewrite !files_scanned_keywords.
  rewrite (when_keeps Raw.files_scanned) by (intros; apply files_scanned_includes).
  rewrite !(when_keeps Raw.files_scanned _ (fun s => foldl (note_import _) s _))
    by (intros; apply files_scanned_imports).
  rewrite (when_keeps Raw.files_scanned); [done|].
  intros s. cbn [note_evidence Raw.files_scanned]. apply files_scanned_manifest.
Qed.


Lemma imports_found_when b (s : gset string) st rel :
  Raw.imports_found (when b (fun st => foldl (note_import rel) st (elements s)) st)
  = (if b then s else ∅) ∪ Raw.imports_found st.
Proof.
  unfold when. destruct b.
  - by rewrite imports_found_imports, list_to_set_elements_L.
  - by rewrite union_empty_l_L.
Qed.

Lemma imports_found_scan_file st f :
  Raw.imports_found (scan_file st f) = imports_of f ∪ Raw.imports_found st.
Proof.
  unfold scan_file, imports_of. rewrite !imports_found_keywords.
  rewrite (when_keeps Raw.imports_found) by (intros; apply imports_found_includes).
  rewrite !imports_found_when.
  rewrite (when_keeps Raw.imports_found).
  - cbn [note_file Raw.imports_found]. by rewrite !(assoc_L (∪)).
  - intros s. cbn [note_evidence Raw.imports_found]. apply imports_found_manifest.
Qed.

Lemma imports_found_scan files st pkg :
  pkg ∈ Raw.imports_found (foldl scan_file st files)
  ↔ pkg ∈ Raw.imports_found st ∨ ∃ f, f ∈ files ∧ pkg ∈ imports_of f.
Proof.
  revert st. induction files as [|f files IH]; intros st; cbn [foldl].
  - split; [by left|]. intros [?|(? & H & _)]; [done|]. by apply elem_of_nil in H.
  - rewrite IH, imports_found_scan_file, elem_of_union. split.
    + intros [[Hin|Hin]|(f' & Hf' & Hin)]; [|by left|].
      * right. exists f. split; [apply list_elem_of_here|done].
      * right. exists f'. split; [by apply list_elem_of_further|done].
    + intros [Hin|(f' & Hf' & Hin)]; [left; by right|].
      apply elem_of_cons in Hf' as [->|Hf']; [left; by left|].
      right. exists f'. auto.
Qed.

(** The tier rule of the classification.  The skill kept for a token is
    accepted when the token is seen and possible when it is not; a token is
    seen when an import extractor of Python, ECMAScript or the JVM found it,
    or the manifest tokenizer found it, or its provenance holds two distinct
    paths.  (A token that only the header inclusions of a C source give is
    not seen.) *)
Lemma tier_rule url files token label category :
  mapped_skill (scan_files files) token = Some (label, category) →
  (if seen (scan_files files) token
   then In_tier (accepted_skills_by_category (classify url (scan_files files)))
          category label
   else In_tier (possible_skills_by_category (classify url (scan_files files)))
          category label)
  ∧ (seen (scan_files files) token = true
     ↔ (∃ f pkg, f ∈ files ∧ pkg ∈ imports_of f ∧ token = Str.lower pkg)
       ∨ (∃ f tk, f ∈ files ∧ is_manifest f ∧ tk ∈ manifest_tokens_of f
                  ∧ token = Str.lower tk)
       ∨ (2 ≤ size (provenance (scan_files files) token))%nat).
Proof.
  intros Hm. split; [by apply mapped_skill_tier|].
  rewrite seen_spec. unfold lowered. rewrite !elem_of_map.
  assert (Himp : ∀ pkg, pkg ∈ Raw.imports_found (scan_files files)
                        ↔ ∃ f, f ∈ files ∧ pkg ∈ imports_of f).
  { intros pkg. unfold scan_files. rewrite imports_found_scan.
    split; [|by right]. intros [H|H]; [by apply not_elem_of_empty in H|done]. }
  assert (Hman : ∀ tk, tk ∈ Raw.manifest_tokens (scan_files files)
                       ↔ ∃ f, f ∈ files ∧ is_manifest f ∧ tk ∈ manifest_tokens_of f).
  { intros tk. unfold scan_files. rewrite manifest_tokens_scan.
    split; [|by right]. intros [H|H]; [by apply not_elem_of_empty in H|done]. }
  split.
  - intros [(pkg & -> & Hin)|[(tk & -> & Hin)|H]].
    + apply Himp in Hin as (f & Hf & Hin). left. exists f, pkg. auto.
    + apply Hman in Hin as (f & Hf & Hm' & Hin). right. left. exists f, tk. auto.
    + right. by right.
  - intros [(f & pkg & Hf & Hin & ->)|[(f & tk & Hf & Hm' & Hin & ->)|H]].
    + left. exists pkg. split; [done|]. apply Himp. exists f. auto.
    + right. left. exists tk. split; [done|]. apply Hman. exists f. auto.
    + right. by right.
Qed.

Lemma two_elements (s : gset string) p1 p2 :
  p1 ∈ s → p2 ∈ s → p1 ≠ p2 → (2 ≤ size s)%nat.
Proof.
  intros H1 H2 Hne.
  assert (Hsub : ({[p1]} ∪ {[p2]} : gset string) ⊆ s) by set_solver.
  apply subseteq_size in Hsub.
  rewrite size_union, !size_singleton in Hsub by set_solver. done.
Qed.

(** ** Strings and matching *)

Lemma append_nil (b : string) : EmptyString +:+ b = b.
Proof. reflexivity. Qed.

Lemma append_cons c (a b : string) : String c a +:+ b = String c (a +:+ b).
Proof. reflexivity. Qed.

Lemma append_assoc (a b c : string) : (a +:+ b) +:+ c = a +:+ (b +:+ c).
Proof.
  induction a as [|x a IH]; [done|]. rewrite !append_cons. by rewrite IH.
Qed.

Lemma startswith_spec s p :
  Str.startswith s p = true ↔ ∃ post, s = p +:+ post.
Proof.
  revert s. induction p as [|a p IH]; intros s.
  - cbn [Str.startswith]. split; [|done]. intros _. by exists s.
  - destruct s as [|b s]; cbn [Str.startswith].
    + split; [done|]. intros (post & H). by rewrite append_cons in H.
    + rewrite andb_true_iff, Ascii.eqb_eq, IH. setoid_rewrite append_cons. split.
      * intros (-> & post & ->). by exists post.
      * intros (post & [= -> ->]). eauto.
Qed.

Lemma contains_spec text key :
  Str.contains text key = true ↔ occurs_in key text.
Proof.
  unfold occurs_in. induction text as [|c text IH].
  - cbn [Str.contains]. rewrite orb_false_r, startswith_spec. split.
    + intros (post & ->). by exists EmptyString, post.
    + intros ([|] & post & H); [by exists post|by rewrite append_cons in H].
  - cbn [Str.contains]. rewrite orb_true_iff, startswith_spec, IH. split.
    + intros [(post & ->)|(pre & post & ->)].
      * by exists EmptyString, post.
      * by exists (String c pre), post.
    + intros ([|d pre] & post & H).
      * left. by exists post.
      * right. rewrite append_cons in H. injection H as -> ->. by exists pre, post.
Qed.

Lemma last_or_nil prev : last_or prev EmptyString = prev.
Proof. done. Qed.

Lemma last_char_cons c s : is_Some (Str.last_char (String c s)).
Proof.
  revert c. induction s as [|d s IH]; intros c; [by eexists|].
  change (Str.last_char (String c (String d s))) with (Str.last_char (String d s)).
  apply IH.
Qed.

Lemma last_or_cons prev c s : last_or prev (String c s) = last_or (Some c) s.
Proof.
  unfold last_or. destruct s as [|d s]; [done|].
  change (Str.last_char (String c (String d s))) with (Str.last_char (String d s)).
  by destruct (last_char_cons d s) as [x ->].
Qed.

Lemma last_or_append prev a b :
  last_or prev (a +:+ b) = last_or (last_or prev a) b.
Proof.
  revert prev. induction a as [|x a IH]; intros prev; [done|].
  by rewrite append_cons, !last_or_cons, IH.
Qed.

Lemma last_char_last_or s : Str.last_char s = last_or None s.
Proof. unfold last_or. by destruct (Str.last_char s). Qed.

Lemma last_char_append a b :
  Str.last_char (a +:+ b) = last_or (Str.last_char a) b.
Proof. by rewrite !last_char_last_or, last_or_append. Qed.

Lemma first_char_append_word key post :
  word_key key = true → Re.wordy (Str.first_char (key +:+ post)) = true.
Proof.
  unfold word_key. destruct key as [|c key]; [done|]. rewrite append_cons. cbn.
  by intros [? ?]%andb_true_iff.
Qed.

Lemma last_char_word prev key :
  word_key key = true → Re.wordy (last_or prev key) = true.
Proof.
  unfold word_key. destruct key as [|c key]; [done|]. cbn [negb String.eqb andb].
  rewrite last_or_cons. clear prev. revert c.
  induction key as [|d key IH]; intros c; cbn.
  - by rewrite andb_true_r.
  - intros [? ?]%andb_true_iff. rewrite last_or_cons. by apply IH.
Qed.

Lemma lit_spec l prev s prev' s' :
  Re.lit l prev s = Some (prev', s') ↔ s = l +:+ s' ∧ prev' = last_or prev l.
Proof.
  revert prev s. induction l as [|c l IH]; intros prev s; cbn [Re.lit].
  - rewrite append_nil, last_or_nil. naive_solver.
  - rewrite append_cons, last_or_cons. destruct s as [|d s]; [naive_solver|].
    destruct (Ascii.eqb_spec c d) as [->|Hne].
    + rewrite IH. naive_solver.
    + naive_solver.
Qed.

(** A search succeeds when an attempt succeeds at some position. *)
Lemma search_from_spec r prev s :
  Re.search_from r prev s = true
  ↔ ∃ pre post, s = pre +:+ post
      ∧ is_Some (Re.match_at r (last_or prev pre) post).
Proof.
  revert prev. induction s as [|c s IH]; intros prev; cbn [Re.search_from].
  - destruct (Re.match_at r prev EmptyString) eqn:E.
    + split; [|done]. intros _. exists EmptyString, EmptyString.
      rewrite last_or_nil, E. eauto.
    + split; [done|]. intros ([|] & post & H & Hm); [|done].
      rewrite append_nil in H. subst post.
      rewrite last_or_nil, E in Hm. by destruct Hm.
  - destruct (Re.match_at r prev (String c s)) eqn:E.
    + split; [|done]. intros _. exists EmptyString, (String c s).
      rewrite last_or_nil, E. eauto.
    + rewrite IH. split.
      * intros (pre & post & -> & Hm). exists (String c pre), post.
        by rewrite last_or_cons.
      * intros ([|d pre] & post & H & Hm).
        -- rewrite append_nil in H. subst post.
           rewrite last_or_nil, E in Hm. by destruct Hm.
        -- rewrite append_cons in H. injection H as -> ->.
           exists pre, post. by rewrite <- (last_or_cons prev).
Qed.

(** An attempt of the pattern of a whole word. *)
Lemma match_at_whole_word key prev s :
  is_Some (Re.match_at (whole_word key) prev s)
  ↔ ∃ post, s = key +:+ post
      ∧ Re.at_boundary prev (Str.first_char s) = true
      ∧ Re.at_boundary (last_or prev key) (Str.first_char post) = true.
Proof.
  unfold Re.match_at, whole_word. cbn [Re.exec Re.before Re.rest Re.grp].
  destruct (Re.at_boundary prev (Str.first_char s)) eqn:Hb1;
    [|split; [by intros []|naive_solver]].
  destruct (Re.lit key prev s) as [[prev' s']|] eqn:Hl.
  - apply lit_spec in Hl as [-> ->]. cbn [Re.before Re.rest].
    destruct (Re.at_boundary (last_or prev key) (Str.first_char s')) eqn:Hb2.
    + split; [|eauto]. intros _. exists s'. done.
    + split; [by intros []|]. intros (post & Heq & _ & Hb).
      apply (inj (String.append key)) in Heq as <-. congruence.
  - split; [by intros []|]. intros (post & -> & _).
    assert (Re.lit key prev (key +:+ post) = Some (last_or prev key, post)) as Hl'
      by (by apply lit_spec).
    congruence.
Qed.

Lemma search_whole_word key text :
  Re.search (whole_word key) text = true
  ↔ ∃ pre post, text = pre +:+ key +:+ post
      ∧ Re.at_boundary (Str.last_char pre) (Str.first_char (key +:+ post)) = true
      ∧ Re.at_boundary (Str.last_char (pre +:+ key)) (Str.first_char post) = true.
Proof.
  unfold Re.search. rewrite search_from_spec.
  setoid_rewrite match_at_whole_word. split.
  - intros (pre & s & -> & post & -> & Hb1 & Hb2). exists pre, post.
    rewrite last_char_append, last_char_last_or. auto.
  - intros (pre & post & -> & Hb1 & Hb2). exists pre, (key +:+ post).
    split; [done|]. exists post.
    rewrite last_char_append in Hb2. rewrite last_char_last_or in Hb1, Hb2. auto.
Qed.

Lemma search_word_key key text :
  word_key key = true →
  Re.search (whole_word key) text = true ↔ occurs_as_word_in key text.
Proof.
  intros Hk. rewrite search_whole_word. unfold occurs_as_word_in.
  assert (Hx : ∀ b, xorb b true = true ↔ b = false) by (by intros []).
  assert (Hy : ∀ b, xorb true b = true ↔ b = false) by (by intros []).
  split; intros (pre & post & -> & Hb1 & Hb2); exists pre, post;
    (split; [done|]); unfold Re.at_boundary in *;
    rewrite first_char_append_word, last_char_append, last_char_word in * by done;
    rewrite Hx, Hy in *; auto.
Qed.

Lemma short_table_keys_are_words :
  Forall (fun key => (String.length key <=? 4)%nat = true → word_key key = true)
    table_keys.
Proof. evaluate. Qed.

(** ** The report *)

Lemma collect_fold (items : list (string * list string))
    (categories s : gset string) (label : string) :
  label ∈ foldl (fun s item =>
                   if bool_decide (fst item ∈ categories)
                   then s ∪ list_to_set (snd item) else s) s items
  ↔ label ∈ s
    ∨ ∃ cat labels, (cat, labels) ∈ items ∧ cat ∈ categories ∧ label ∈ labels.
Proof.
  revert s. induction items as [|[cat labels] items IH]; intros s; cbn [foldl].
  - split; [by left|]. intros [?|(? & ? & H & _)]; [done|]. by apply elem_of_nil in H.
  - rewrite IH. setoid_rewrite elem_of_cons. cbn [fst snd]. split.
    + intros [Hin|(c & ls & Hi & Hc & Hl)].
      * case_bool_decide as Hcat; [|by left].
        apply elem_of_union in Hin as [Hin|Hin]; [by left|].
        apply elem_of_list_to_set in Hin. right. exists cat, labels. auto.
      * right. exists c, ls. auto.
    + intros [Hin|(c & ls & [[= -> ->]|Hi] & Hc & Hl)].
      * left. case_bool_decide; [|done]. apply elem_of_union. by left.
      * left. rewrite bool_decide_eq_true_2 by done.
        apply elem_of_union. right. by apply elem_of_list_to_set.
      * right. exists c, ls. auto.
Qed.

Lemma collect_skills_spec skill_map categories label :
  label ∈ Report.collect_skills_by_categories skill_map categories
  ↔ ∃ cat, cat ∈ categories ∧ In_tier skill_map cat label.
Proof.
  unfold Report.collect_skills_by_categories, In_tier. rewrite collect_fold.
  setoid_rewrite elem_of_map_to_list. split.
  - intros [H|(cat & labels & ? & ? & ?)]; [by apply not_elem_of_empty in H|].
    exists cat. eauto.
  - intros (cat & ? & labels & ? & ?). right. exists cat, labels. auto.
Qed.

Lemma agg_fold (f : Report.repo → gset string) rs (s : gset string) label :
  label ∈ foldl (fun agg r => agg ∪ f r) s rs
  ↔ label ∈ s ∨ ∃ r, r ∈ rs ∧ label ∈ f r.
Proof.
  revert s. induction rs as [|r rs IH]; intros s; cbn [foldl].
  - split; [by left|]. intros [?|(? & H & _)]; [done|]. by apply elem_of_nil in H.
  - rewrite IH, elem_of_union. setoid_rewrite elem_of_cons. naive_solver.
Qed.

Lemma agg_frameworks_spec rs label :
  label ∈ Report.agg_frameworks rs ↔ ∃ r, r ∈ rs ∧ label ∈ Report.frameworks r.
Proof.
  unfold Report.agg_frameworks. rewrite agg_fold. split; [|by right].
  intros [H|H]; [by apply not_elem_of_empty in H|done].
Qed.

Lemma agg_devtools_spec rs label :
  label ∈ Report.agg_devtools rs ↔ ∃ r, r ∈ rs ∧ label ∈ Report.devtools r.
Proof.
  unfold Report.agg_devtools. rewrite agg_fold. split; [|by right].
  intros [H|H]; [by apply not_elem_of_empty in H|done].
Qed.

(** The report reads the accepted tier of an entry that the scanner wrote. *)
Lemma accepted_of_report_entry r category label :
  In_tier (Report.accepted_of (report_entry r)) category label
  → In_tier (accepted_skills_by_category r) category label.
Proof.
  unfold Report.accepted_of, Report.get_or, report_entry.
  cbn [Report.accepted_skills_by_category Report.accepted default].
  case_bool_decide as Hempty; [|done].
  intros (labels & Hl & _). by rewrite lookup_empty in Hl.
Qed.

(** ** Skills come from the tables *)

Lemma map_token_to_skill_in_tables token s :
  s ∈ map_token_to_skill token → s ∈ table_skills.
Proof.
  unfold map_token_to_skill, table_skills. rewrite !elem_of_app.
  intros [H|H]; [left|right];
    apply list_elem_of_fmap in H as (e & -> & He);
    apply list_elem_of_filter in He as [_ He];
    apply list_elem_of_fmap; eauto.
Qed.

Lemma accepted_in_tables r category label :
  scanned r →
  In_tier (accepted_skills_by_category r) category label →
  (label, category) ∈ table_skills.
Proof.
  intros (url & [files|msg|e] & Hr); cbn in Hr; [| |done]; injection Hr as <-.
  - intros (token & Hm & _)%accepted_spec.
    apply mapped_skill_first, head_Some_elem_of in Hm.
    by eapply map_token_to_skill_in_tables.
  - intros (labels & H & _). cbn in H. by rewrite lookup_empty in H.
Qed.

(** In the tables a label has one category. *)
Lemma table_label_category label c1 c2 :
  (label, c1) ∈ table_skills → (label, c2) ∈ table_skills → c1 = c2.
Proof.
  assert (H : Forall (fun s1 => Forall (fun s2 => s1.1 = s2.1 → s1.2 = s2.2)
                                  table_skills) table_skills) by evaluate.
  intros H1 H2. rewrite Forall_forall in H. specialize (H _ H1).
  rewrite Forall_forall in H. by apply (H _ H2).
Qed.

(** The categories of the tables that are in neither category set of the
    report. *)
Lemma unlisted_scanner_categories :
  filter (fun c => (c ∉ Report.FRAMEWORK_CATEGORIES) ∧ (c ∉ Report.DEVTOOL_CATEGORIES))
    (remove_dups (snd <$> table_skills))
  = [ "Computer Vision"; "Databases / Search"; "Streaming"; "Messaging";
      "Observability"; "Cloud / IaC"; "Containers / Orchestration";
      "Performance"; "Data Engineering"; "Security"; "GUI / Desktop" ].
Proof. vm_compute. reflexivity. Qed.

(** ** The run *)

Section Run.
Context (clone : nat -> string -> clone_result).

Lemma scan_all_returns i0 urls :
  (∀ i url e, urls !! i = Some url → clone (i0 + i)%nat url ≠ CloneRaises e) →
  ∃ trace rs,
    scan_all clone i0 urls = (trace, Returns rs)
    ∧ Forall (fun e => ¬ on_workspace e) trace
    ∧ length rs = length urls
    ∧ ∀ i url, urls !! i = Some url →
        ∃ r, rs !! i = Some r ∧ scan_repo url (clone (i0 + i)%nat url) = Returns r.
Proof.
  revert i0. induction urls as [|url urls IH]; intros i0 Hok.
  - exists [], []. cbn. split; [done|]. split; [done|]. split; [done|].
    intros i url H. by rewrite lookup_nil in H.
  - cbn [scan_all].
    destruct (scan_repo url (clone i0 url)) as [r|e] eqn:Hr.
    2:{ exfalso. specialize (Hok 0%nat url). rewrite Nat.add_0_r in Hok.
        destruct (clone i0 url) eqn:Hc; cbn in Hr; try done.
        by eapply Hok. }
    destruct (IH (S i0)) as (trace & rs & -> & Htrace & Hlen & Hrs).
    { intros i u e Hu. replace (S i0 + i)%nat with (i0 + S i)%nat by lia.
      by apply (Hok (S i)). }
    eexists _, (r :: rs). split; [done|]. split.
    { repeat apply Forall_cons_2; [unfold on_workspace; naive_solver..|done]. }
    split; [by cbn; rewrite Hlen|].
    intros [|i] u Hu.
    + injection Hu as ->. exists r. by rewrite Nat.add_0_r.
    + destruct (Hrs i u Hu) as (r' & ? & ?). exists r'.
      by replace (i0 + S i)%nat with (S i0 + i)%nat by lia.
Qed.

Lemma scan_all_trace i0 urls :
  Forall (fun e => ¬ on_workspace e) (scan_all clone i0 urls).1.
Proof.
  revert i0. induction urls as [|url urls IH]; intros i0; [by cbn|].
  cbn [scan_all]. specialize (IH (S i0)).
  destruct (scan_repo url (clone i0 url)); [destruct (scan_all clone (S i0) urls)|];
    cbn [fst] in *;
    repeat apply Forall_cons_2; try (unfold on_workspace; naive_solver); done.
Qed.

End Run.

Lemma scan_and_write_trace w urls :
  Forall (fun e => ¬ on_workspace e) (scan_and_write w urls).1.
Proof.
  unfold scan_and_write. pose proof (scan_all_trace (clone w) 0 urls) as H.
  destruct (scan_all (clone w) 0 urls) as [trace [rs|e]]; cbn [fst] in *; [|done].
  destruct (output_file w); cbn [fst]; [|done].
  apply Forall_app. split; [done|].
  repeat apply Forall_cons_2; try (unfold on_workspace; naive_solver); done.
Qed.

(** ** Reading files *)










(** * The claims *)

(** C1.  The scanner run on a working copy that holds one empty file
    [azure-pipelines.yml]: the token [azure-pipelines] maps to two skills,
    the candidate tier lists Azure Pipelines under CI/CD, and neither the
    accepted nor the possible tier lists it. *)
Theorem candidate_skill_left_untiered :
  ∃ r, scan_repo demo_url (Cloned pipeline_repo) = Returns r
    ∧ "azure-pipelines" ∈ all_tokens (scan_files pipeline_repo)
    ∧ map_token_to_skill "azure-pipelines"
      = [("Azure", "Cloud"); ("Azure Pipelines", "CI/CD")]
    ∧ candidate_skills_by_category r !! "CI/CD" = Some ["Azure Pipelines"]
    ∧ accepted_skills_by_category r !! "CI/CD" = None
    ∧ possible_skills_by_category r !! "CI/CD" = None.
Proof.
  exists (classify demo_url (scan_files pipeline_repo)).
  conjuncts; [reflexivity|evaluate|..]; by vm_compute.
Qed.

(** C2.  The scanner run on a working copy that holds one C source with a
    single include of [cuda.h]: the header-inclusion pattern finds the
    token [cuda], the token maps to a skill, and the skill is listed as
    possible and not as accepted. *)
Theorem included_header_not_accepted :
  ∃ r, scan_repo demo_url (Cloned cuda_repo) = Returns r
    ∧ Re.findall INCLUDE_RE_C "#include <cuda.h>" = ["cuda.h"]
    ∧ mapped_skill (scan_files cuda_repo) "cuda"
      = Some ("CUDA / NVIDIA (GPU)", "Performance / GPU")
    ∧ possible_skills_by_category r !! "Performance / GPU"
      = Some ["CUDA / NVIDIA (GPU)"]
    ∧ accepted_skills_by_category r = ∅.
Proof.
  exists (classify demo_url (scan_files cuda_repo)).
  conjuncts; [reflexivity|..]; by vm_compute.
Qed.

(** C3.  The scanner run on a working copy that holds two empty files
    [azure-pipelines.yml] in two directories: the token [azure-pipelines]
    is in the universe, its provenance holds two distinct paths, it maps to
    Azure Pipelines, and the accepted tier does not list Azure Pipelines,
    which stays a candidate alone.  (The loss of every skill of a token
    after its first, as in C1.) *)
Theorem second_skill_of_repeated_token_not_accepted :
  ∃ r, scan_repo demo_url (Cloned two_pipelines_repo) = Returns r
    ∧ "azure-pipelines" ∈ all_tokens (scan_files two_pipelines_repo)
    ∧ provenance (scan_files two_pipelines_repo) "azure-pipelines"
      = {[ "a/azure-pipelines.yml"; "b/azure-pipelines.yml" ]}
    ∧ size (provenance (scan_files two_pipelines_repo) "azure-pipelines") = 2%nat
    ∧ ("Azure Pipelines", "CI/CD") ∈ map_token_to_skill "azure-pipelines"
    ∧ candidate_skills_by_category r !! "CI/CD" = Some ["Azure Pipelines"]
    ∧ accepted_skills_by_category r = {[ "Cloud" := ["Azure"] ]}
    ∧ possible_skills_by_category r = ∅.
Proof.
  exists (classify demo_url (scan_files two_pipelines_repo)).
  conjuncts; [reflexivity|evaluate..].
Qed.

(** What holds of a token with two distinct paths: the skill that the
    classification keeps for it, the first that it maps to, is in the
    accepted tier, however the token was found. *)
Theorem two_paths_accepted url files token label category p1 p2 :
  mapped_skill (scan_files files) token = Some (label, category) →
  p1 ∈ provenance (scan_files files) token →
  p2 ∈ provenance (scan_files files) token →
  p1 ≠ p2 →
  ∃ r, scan_repo url (Cloned files) = Returns r
    ∧ In_tier (accepted_skills_by_category r) category label.
Proof.
  intros Hm H1 H2 Hne. exists (classify url (scan_files files)).
  split; [reflexivity|].
  apply accepted_spec. exists token. split; [done|].
  apply seen_spec. right. right. by apply (two_elements _ p1 p2).
Qed.

(** The scenario of two files that each contain the word kubernetes once. *)
Lemma two_paths_accepted_witness :
  ∃ r, scan_repo demo_url (Cloned kubernetes_repo) = Returns r
    ∧ In_tier (accepted_skills_by_category r)
        "Containers / Orchestration" "Kubernetes".
Proof.
  apply (two_paths_accepted demo_url kubernetes_repo "kubernetes"
           "Kubernetes" "Containers / Orchestration" "docs/a.txt" "docs/b.txt").
  - vm_compute. reflexivity.
  - evaluate.
  - evaluate.
  - discriminate.
Defined.

(** C4.  The scanner run on a working copy that holds one manifest,
    [requirements.txt], with the one line openmpi: the manifest tokenizer
    finds the token [openmpi], the token maps to OpenMP and to MPI, and the
    accepted tier lists OpenMP and not MPI, which is a candidate that
    neither tier lists.  (The loss of every skill of a token after its
    first, as in C1.) *)
Theorem second_skill_of_manifest_token_not_accepted :
  ∃ r, scan_repo demo_url (Cloned [openmpi_manifest]) = Returns r
    ∧ is_manifest openmpi_manifest
    ∧ manifest_tokens_of openmpi_manifest = ["openmpi"]
    ∧ map_token_to_skill "openmpi"
      = [("OpenMP", "Performance"); ("MPI", "Performance")]
    ∧ candidate_skills_by_category r !! "Performance" = Some ["MPI"; "OpenMP"]
    ∧ accepted_skills_by_category r = {[ "Performance" := ["OpenMP"] ]}
    ∧ possible_skills_by_category r = {[ "Performance" := ["OpenMP"] ]}.
Proof.
  exists (classify demo_url (scan_files [openmpi_manifest])).
  conjuncts; [reflexivity|evaluate..].
Qed.

(** What holds of a token that the manifest tokenizer finds in a manifest
    file: the skill that the classification keeps for it, the first that it
    maps to, is in the accepted tier, whatever the number of files the
    token appears in. *)
Theorem manifest_token_accepted url files f tk label category :
  f ∈ files →
  is_manifest f →
  tk ∈ manifest_tokens_of f →
  mapped_skill (scan_files files) (Str.lower tk) = Some (label, category) →
  ∃ r, scan_repo url (Cloned files) = Returns r
    ∧ In_tier (accepted_skills_by_category r) category label.
Proof.
  intros Hf Hman Htk Hm. exists (classify url (scan_files files)).
  split; [reflexivity|].
  apply accepted_spec. exists (Str.lower tk). split; [done|].
  apply seen_spec. right. left. unfold lowered. apply elem_of_map.
  exists tk. split; [done|]. unfold scan_files.
  apply manifest_tokens_scan. right. exists f. auto.
Qed.

(** The scenario of a lone [requirements.txt] that lists flask and
    requests. *)
Lemma manifest_token_accepted_witness :
  ∃ r, scan_repo demo_url (Cloned [requirements]) = Returns r
    ∧ In_tier (accepted_skills_by_category r) "Web & APIs" "Flask".
Proof.
  apply (manifest_token_accepted demo_url [requirements] requirements "flask"
           "Flask" "Web & APIs").
  - apply list_elem_of_here.
  - evaluate.
  - vm_compute. apply list_elem_of_here.
  - vm_compute. reflexivity.
Defined.

(** The scenario of a single weak hit: one file that mentions Redis in a
    comment gives Redis as possible and accepts nothing. *)
Example redis_comment_is_possible :
  let r := classify demo_url (scan_files [top_file "notes.txt" "# talks to redis"]) in
  possible_skills_by_category r !! "Databases" = Some ["Redis"]
  ∧ accepted_skills_by_category r = ∅.
Proof. split; by vm_compute. Qed.

(** C5.  Every label of the aggregate comes from the accepted tier of some
    record, under the same category; a label that no record accepts under a
    category is not in the aggregate under it, whatever the possible and
    candidate tiers hold. *)
Theorem aggregate_only_accepted (rs : list scan_record) category label :
  (In_tier (aggregate_results rs) category label →
   ∃ r, r ∈ rs ∧ In_tier (accepted_skills_by_category r) category label)
  ∧ ((∀ r, r ∈ rs → ¬ In_tier (accepted_skills_by_category r) category label) →
     ¬ In_tier (aggregate_results rs) category label).
Proof.
  split.
  - apply aggregate_results_spec.
  - intros Hnone (r & Hr & Hin)%aggregate_results_spec. by eapply Hnone.
Qed.

(** Two records, one that accepts Kubernetes and one that holds a CUDA
    skill as possible only: the first label has its source, the second is
    not in the aggregate. *)
Lemma aggregate_only_accepted_witness :
  let rs := [classify demo_url (scan_files kubernetes_repo);
             classify demo_url (scan_files cuda_repo)] in
  (∃ r, r ∈ rs ∧ In_tier (accepted_skills_by_category r)
                   "Containers / Orchestration" "Kubernetes")
  ∧ ¬ In_tier (aggregate_results rs) "Performance / GPU" "CUDA / NVIDIA (GPU)".
Proof.
  intros rs. split.
  - apply (proj1 (aggregate_only_accepted rs "Containers / Orchestration" "Kubernetes")).
    exists ["Kubernetes"]. split; [by vm_compute|apply list_elem_of_here].
  - apply (proj2 (aggregate_only_accepted rs "Performance / GPU" "CUDA / NVIDIA (GPU)")).
    intros r Hr (labels & Hl & _).
    apply elem_of_cons in Hr as [->|Hr]; [by vm_compute in Hl|].
    apply elem_of_cons in Hr as [->|Hr]; [by vm_compute in Hl|].
    by apply elem_of_nil in Hr.
Defined.

(** C6.  For a key of the taxonomy tables: a key of at most four characters
    is present in a text exactly when it occurs there as a whole word, and a
    longer key exactly when it occurs there at all. *)
Theorem keyword_match_threshold key text :
  key ∈ table_keys →
  ((String.length key ≤ 4)%nat →
   (keyword_present key text = true ↔ occurs_as_word_in key text))
  ∧ ((4 < String.length key)%nat →
     (keyword_present key text = true ↔ occurs_in key text)).
Proof.
  intros Hkey. unfold keyword_present. split; intros Hlen.
  - assert (Hshort : (String.length key <=? 4)%nat = true) by by apply Nat.leb_le.
    rewrite Hshort. apply search_word_key.
    pose proof short_table_keys_are_words as Hw.
    rewrite Forall_forall in Hw. by apply Hw.
  - assert (Hlong : (String.length key <=? 4)%nat = false) by (apply Nat.leb_gt; lia).
    rewrite Hlong. apply contains_spec.
Qed.

(** A key of three characters and a key of five, each in a text where it
    occurs inside a longer word. *)
Lemma keyword_match_threshold_witness :
  (keyword_present "aws" "bylaws in aws-sdk" = true
   ↔ occurs_as_word_in "aws" "bylaws in aws-sdk")
  ∧ (keyword_present "kafka" "pykafka" = true ↔ occurs_in "kafka" "pykafka").
Proof.
  split.
  - apply (proj1 (keyword_match_threshold "aws" "bylaws in aws-sdk" ltac:(evaluate))).
    vm_compute. lia.
  - apply (proj2 (keyword_match_threshold "kafka" "pykafka" ltac:(evaluate))).
    vm_compute. lia.
Defined.

(** C7, as the claim states it, fails: a repository whose acquisition fails
    with another exception than [CalledProcessError] gets no record, and
    the run does not go on.  Of three repositories the second has a NUL
    character in its address: the run ends with the [ValueError] of
    [subprocess.run], the third repository is never cloned, nothing is
    written, and the workspace is removed. *)
Lemma other_clone_failure_ends_run :
  (∃ content, input_file nul_address_world = Returns content
     ∧ read_repos content
       = ["https://example.org/team/one.git"; nul_address;
          "https://example.org/team/three.git"])
  ∧ clone nul_address_world 1 nul_address
    = CloneRaises "ValueError: embedded null byte"
  ∧ main nul_address_world
    = ([ Mkdtemp;
         Print "Scanning: https://example.org/team/one.git";
         GitClone "https://example.org/team/one.git";
         Print ("Scanning: " +:+ nul_address);
         GitClone nul_address;
         Rmtree ],
       Crashed "ValueError: embedded null byte").
Proof.
  conjuncts.
  - eexists. split; [reflexivity|]. by vm_compute.
  - reflexivity.
  - by vm_compute.
Qed.

(** C7, amended.  When no clone raises anything but [CalledProcessError], the run
    finishes and writes one record per repository of the input; the record
    of a repository whose clone failed carries the message of the failure,
    no scanned file and empty tiers, and the record of every repository whose
    clone succeeded is the scan of its working copy. *)
Theorem failed_clone_is_recorded (w : world) (content : string) :
  (3 ≤ length (argv w))%nat →
  input_file w = Returns content →
  mkdtemp w = Returns tt →
  output_file w = Returns tt →
  (∀ i url e, read_repos content !! i = Some url → clone w i url ≠ CloneRaises e) →
  ∃ trace out,
    main w = (trace, Finished)
    ∧ WriteResults out ∈ trace
    ∧ length (repos out) = length (read_repos content)
    ∧ (∀ i url msg,
         read_repos content !! i = Some url →
         clone w i url = CalledProcessError msg →
         ∃ r, repos out !! i = Some r
           ∧ errors r = [msg]
           ∧ cloned r = false
           ∧ files_scanned r = 0%nat
           ∧ candidate_skills_by_category r = ∅
           ∧ accepted_skills_by_category r = ∅
           ∧ possible_skills_by_category r = ∅)
    ∧ (∀ i url files,
         read_repos content !! i = Some url →
         clone w i url = Cloned files →
         repos out !! i = Some (classify url (scan_files files))).
Proof.
  intros Hargs Hin Hmk Hout Hok.
  destruct (scan_all_returns (clone w) 0 (read_repos content))
    as (trace & rs & Hscan & _ & Hlen & Hrs); [done|].
  unfold main, scan_and_write.
  assert ((length (argv w) <? 3)%nat = false) as -> by (apply Nat.ltb_ge; lia).
  rewrite Hin, Hmk, Hscan, Hout.
  eexists _, _. split; [reflexivity|].
  split.
  { apply elem_of_cons. right. apply elem_of_app. left.
    apply elem_of_app. right. apply list_elem_of_here. }
  cbn [repos]. split; [done|]. split.
  - intros i url msg Hurl Hc. destruct (Hrs i url Hurl) as (r & Hr & Hres).
    cbn in Hres. rewrite Hc in Hres. injection Hres as <-.
    exists (failed url msg). done.
  - intros i url files Hurl Hc. destruct (Hrs i url Hurl) as (r & Hr & Hres).
    cbn in Hres. rewrite Hc in Hres. injection Hres as <-. done.
Qed.

(** The scenario of three repositories of which the second cannot be
    cloned. *)
Lemma failed_clone_is_recorded_witness :
  ∃ trace out,
    main three_repos_world = (trace, Finished)
    ∧ WriteResults out ∈ trace
    ∧ length (repos out) = 3%nat
    ∧ (∃ r, repos out !! 1%nat = Some r
         ∧ errors r = ["Command returned non-zero exit status 128."]
         ∧ accepted_skills_by_category r = ∅)
    ∧ repos out !! 2%nat
      = Some (classify "https://example.org/team/three.git" (scan_files [requirements])).
Proof.
  destruct (failed_clone_is_recorded three_repos_world
              "https://example.org/team/one.git
https://example.org/team/two.git

https://example.org/team/three.git
") as (trace & out & Hmain & Hw & Hlen & Hfail & Hok).
  - cbn. lia.
  - reflexivity.
  - reflexivity.
  - reflexivity.
  - intros [|[|i]] url e _; discriminate.
  - exists trace, out. split; [exact Hmain|]. split; [exact Hw|].
    split; [exact Hlen|]. split.
    + destruct (Hfail 1%nat "https://example.org/team/two.git"
                  "Command returned non-zero exit status 128.")
        as (r & Hr & He & _ & _ & _ & Ha & _); [by vm_compute|reflexivity|].
      exists r. auto.
    + apply (Hok 2%nat); [by vm_compute|reflexivity].
Defined.



(** Carriage returns alone end the lines of a source: the three imports
    are found, and Flask and NumPy are accepted. *)
Example carriage_returns_end_lines :
  let f := File "app.py" "app.py" (ReadGives carriage_return_source) in
  imports_of f = {[ "os"; "flask"; "numpy" ]}
  ∧ In_tier (accepted_skills_by_category (classify demo_url (scan_files [f])))
      "Web & APIs" "Flask".
Proof.
  split; [evaluate|].
  exists ["Flask"]. split; [evaluate|apply list_elem_of_here].
Qed.

(** C9, as the claim states it, fails: after a usage error the run ends
    without removing a workspace. *)
Lemma usage_error_removes_nothing :
  main usage_world = ([Print usage], Exited 1)
  ∧ Rmtree ∉ (main usage_world).1.
Proof.
  split; [reflexivity|]. cbn. intros H. apply elem_of_cons in H as [H|H]; [done|].
  by apply elem_of_nil in H.
Qed.

(** C9, amended.  A run that creates the workspace removes it as its last
    step, however it ends; a run that does not create it removes nothing; a
    run with fewer than two arguments prints the usage line, exits with
    status 1 and creates nothing; and a run whose input list cannot be
    opened or decoded ends with that exception, and creates nothing
    either. *)
Theorem workspace_removed_when_created (w : world) :
  (Mkdtemp ∈ (main w).1 →
   ∃ body, (main w).1 = Mkdtemp :: body ++ [Rmtree]
     ∧ Forall (fun e => ¬ on_workspace e) body)
  ∧ (Mkdtemp ∉ (main w).1 → Rmtree ∉ (main w).1)
  ∧ ((length (argv w) < 3)%nat → main w = ([Print usage], Exited 1))
  ∧ (∀ e, (3 ≤ length (argv w))%nat → input_file w = Raises e →
          main w = ([], Crashed e)).
Proof.
  cut ((Mkdtemp ∈ (main w).1 →
        ∃ body, (main w).1 = Mkdtemp :: body ++ [Rmtree]
          ∧ Forall (fun e => ¬ on_workspace e) body)
       ∧ (Mkdtemp ∉ (main w).1 → Rmtree ∉ (main w).1)
       ∧ ((length (argv w) < 3)%nat → main w = ([Print usage], Exited 1))).
  { intros (Hcreated & Hnone & Husage). conjuncts; [done..|].
    intros e Hargs Hin. unfold main.
    assert ((length (argv w) <? 3)%nat = false) as -> by (apply Nat.ltb_ge; lia).
    by rewrite Hin. }
  unfold main. destruct (length (argv w) <? 3)%nat eqn:Hargs.
  { cbn [fst]. conjuncts.
    - intros H. apply elem_of_cons in H as [H|H]; [done|]. by apply elem_of_nil in H.
    - intros _ H. apply elem_of_cons in H as [H|H]; [done|]. by apply elem_of_nil in H.
    - done. }
  apply Nat.ltb_ge in Hargs.
  destruct (input_file w) as [content|e].
  2:{ cbn [fst]. conjuncts; [by intros H%elem_of_nil|by intros _ H%elem_of_nil|lia]. }
  destruct (mkdtemp w) as [u|e].
  2:{ cbn [fst]. conjuncts; [by intros H%elem_of_nil|by intros _ H%elem_of_nil|lia]. }
  pose proof (scan_and_write_trace w (read_repos content)) as Htrace.
  destruct (scan_and_write w (read_repos content)) as [trace st]. cbn [fst] in *.
  conjuncts.
  - intros _. by exists trace.
  - intros H. exfalso. apply H, list_elem_of_here.
  - lia.
Qed.

(** C10.  A label that a record of the scanner accepts under a category
    that is in neither of the two category sets of the report is not among
    the confirmed frameworks nor the confirmed development tools, for that
    record and in the aggregated summary. *)
Theorem unlisted_category_not_reported (records : list scan_record) r category label :
  Forall scanned records →
  r ∈ records →
  In_tier (accepted_skills_by_category r) category label →
  category ∉ Report.FRAMEWORK_CATEGORIES →
  category ∉ Report.DEVTOOL_CATEGORIES →
  (label ∉ Report.frameworks (report_entry r))
  ∧ (label ∉ Report.devtools (report_entry r))
  ∧ (label ∉ Report.agg_frameworks (report_entry <$> records))
  ∧ (label ∉ Report.agg_devtools (report_entry <$> records)).
Proof.
  intros Hrecs Hr Hacc HF HD. rewrite Forall_forall in Hrecs.
  assert (Hlab : (label, category) ∈ table_skills)
    by (eapply accepted_in_tables; [by apply Hrecs|done]).
  assert (Hnot : ∀ r' (cats : gset string), r' ∈ records → category ∉ cats →
            label ∉ Report.collect_skills_by_categories
                      (Report.accepted_of (report_entry r')) cats).
  { intros r' cats Hr' Hcats (cat & Hcat & Hin%accepted_of_report_entry)%collect_skills_spec.
    assert (cat = category) as ->; [|done].
    eapply table_label_category; [|done].
    eapply accepted_in_tables; [by apply Hrecs|done]. }
  conjuncts.
  - by apply Hnot.
  - by apply Hnot.
  - intros (e & (r' & -> & Hr')%list_elem_of_fmap & Hin)%agg_frameworks_spec.
    by apply (Hnot r' Report.FRAMEWORK_CATEGORIES).
  - intros (e & (r' & -> & Hr')%list_elem_of_fmap & Hin)%agg_devtools_spec.
    by apply (Hnot r' Report.DEVTOOL_CATEGORIES).
Qed.

(** Kubernetes, accepted under the category Containers / Orchestration of
    the scanner, which the report does not list. *)
Lemma unlisted_category_not_reported_witness :
  let r := classify demo_url (scan_files kubernetes_repo) in
  ("Kubernetes" ∉ Report.frameworks (report_entry r))
  ∧ ("Kubernetes" ∉ Report.devtools (report_entry r))
  ∧ ("Kubernetes" ∉ Report.agg_frameworks (report_entry <$> [r]))
  ∧ ("Kubernetes" ∉ Report.agg_devtools (report_entry <$> [r])).
Proof.
  intros r.
  apply (unlisted_category_not_reported [r] r "Containers / Orchestration").
  - apply Forall_cons. split; [|apply Forall_nil_2].
    exists demo_url, (Cloned kubernetes_repo). reflexivity.
  - apply list_elem_of_here.
  - exists ["Kubernetes"]. split; [by vm_compute|apply list_elem_of_here].
  - evaluate.
  - evaluate.
Defined.

(** * Further properties *)

(** ** The skills of a token *)

Section TableLookup.
Context (table : list (string * skill)) (test : string -> bool).

Lemma matching_skills s :
  s ∈ snd <$> filter (fun e => test (fst e) = true) table
  ↔ ∃ key, (key, s) ∈ table ∧ test key = true.
Proof.
  rewrite list_elem_of_fmap. split.
  - intros ([key s'] & -> & [Ht Hin]%list_elem_of_filter). exists key. auto.
  - intros (key & Hin & Ht). exists (key, s). split; [done|].
    apply list_elem_of_filter. auto.
Qed.

End TableLookup.

Lemma package_key_matches_spec tl key :
  package_key_matches tl key = true
  ↔ tl = key ∨ ∃ sep rest, sep ∈ key_separators ∧ tl = key +:+ sep +:+ rest.
Proof.
  unfold package_key_matches, key_separators.
  rewrite !orb_true_iff, String.eqb_eq, !startswith_spec.
  setoid_rewrite append_assoc. split.
  - intros [[[->|(rest & ->)]|(rest & ->)]|(rest & ->)]; [by left|right..].
    + exists "-", rest. split; [|done]. apply list_elem_of_here.
    + exists "_", rest. split; [|done]. apply list_elem_of_further, list_elem_of_here.
    + exists ".", rest. split; [|done].
      apply list_elem_of_further, list_elem_of_further, list_elem_of_here.
  - intros [->|(sep & rest & Hsep & ->)]; [by repeat left|].
    repeat (apply elem_of_cons in Hsep as [->|Hsep]); [..|by apply elem_of_nil in Hsep].
    + left. left. right. by exists rest.
    + left. right. by exists rest.
    + right. by exists rest.
Qed.

(** X1.  The skills of a token are those of the package keys that its
    lower-cased form equals or continues after a separator, and those of the
    keyword keys that occur in it. *)
Theorem map_token_to_skill_spec token s :
  s ∈ map_token_to_skill token
  ↔ (∃ key, (key, s) ∈ PACKAGE_KEYWORD_MAP
        ∧ (Str.lower token = key
           ∨ ∃ sep rest, sep ∈ key_separators
               ∧ Str.lower token = key +:+ sep +:+ rest))
    ∨ (∃ key, (key, s) ∈ KEYWORD_MAP ∧ occurs_in key (Str.lower token)).
Proof.
  unfold map_token_to_skill. cbv zeta. rewrite elem_of_app.
  rewrite (matching_skills PACKAGE_KEYWORD_MAP (package_key_matches (Str.lower token))).
  rewrite (matching_skills KEYWORD_MAP (Str.contains (Str.lower token))).
  split.
  - intros [(key & Hin & Hm)|(key & Hin & Hm)]; [left|right]; exists key.
    + split; [exact Hin|]. by apply package_key_matches_spec.
    + split; [exact Hin|]. by apply contains_spec.
  - intros [(key & Hin & Hm)|(key & Hin & Hm)]; [left|right]; exists key.
    + split; [exact Hin|]. by apply package_key_matches_spec.
    + split; [exact Hin|]. by apply contains_spec.
Qed.

(** ** Sorted lists *)

Section Sorting.

Lemma insert_sorted_perm x l : Str.insert_sorted x l ≡ₚ x :: l.
Proof.
  induction l as [|y l IH]; [done|]. cbn [Str.insert_sorted].
  destruct (String.leb x y); [done|]. rewrite IH. apply Permutation_swap.
Qed.

Lemma sort_perm l : Str.sort l ≡ₚ l.
Proof.
  induction l as [|x l IH]; [done|]. cbn [Str.sort].
  by rewrite insert_sorted_perm, IH.
Qed.

Lemma leb_flip x y : String.leb x y = false → String.leb y x = true.
Proof. intros H. destruct (String.leb_total x y); congruence. Qed.

Lemma insert_sorted_sorted x l :
  Sorted (fun a b => String.leb a b = true) l →
  Sorted (fun a b => String.leb a b = true) (Str.insert_sorted x l).
Proof.
  induction 1 as [|y l Hl IH Hy]; cbn [Str.insert_sorted].
  - repeat constructor.
  - destruct (String.leb x y) eqn:Hxy.
    + constructor; [by constructor|]. by constructor.
    + constructor; [done|]. apply leb_flip in Hxy.
      destruct Hy as [|z l Hz]; cbn [Str.insert_sorted].
      * by constructor.
      * destruct (String.leb x z); by constructor.
Qed.

Lemma sort_sorted l : Sorted (fun a b => String.leb a b = true) (Str.sort l).
Proof.
  induction l as [|x l IH]; cbn [Str.sort]; [constructor|].
  by apply insert_sorted_sorted.
Qed.

Lemma ltb_of_leb x y : String.leb x y = true → x ≠ y → String.ltb x y = true.
Proof.
  unfold String.leb, String.ltb. intros Hle Hne.
  destruct (String.compare x y) eqn:Hc; [|done|done].
  by apply String.compare_eq_iff in Hc.
Qed.

Lemma leb_trans x y z :
  String.leb x y = true → String.leb y z = true → String.leb x z = true.
Proof.
  intros Hxy Hyz. apply Is_true_true.
  change (String.le x z). transitivity y; by apply Is_true_true.
Qed.

Lemma sort_ascending l : NoDup l → ascending (Str.sort l).
Proof.
  intros Hnd. assert (Hnd' : NoDup (Str.sort l)) by by rewrite sort_perm.
  pose proof (sort_sorted l) as Hs.
  apply Sorted_StronglySorted in Hs; [|intros x y z; apply leb_trans].
  unfold ascending. induction Hs as [|x l' Hl' IH Hx]; [constructor|].
  apply NoDup_cons in Hnd' as [Hx' Hnd']. constructor; [by apply IH|].
  rewrite Forall_forall in Hx. apply Forall_forall. intros y Hy.
  apply ltb_of_leb; [by apply Hx|]. by intros ->.
Qed.

Lemma sorted_ascending (s : gset string) : ascending (sorted s).
Proof. apply sort_ascending, NoDup_elements. Qed.

Lemma sorted_set_ascending l : ascending (sorted_set l).
Proof. apply sorted_ascending. Qed.

Lemma sorted_nil (s : gset string) : sorted s = [] ↔ s = ∅.
Proof.
  split.
  - intros H. apply set_eq. intros x. rewrite <- sorted_elem, H.
    split; [by intros ?%elem_of_nil|by intros ?%not_elem_of_empty].
  - intros ->. unfold sorted. by rewrite elements_empty.
Qed.

End Sorting.

(** ** Tiers never hold an empty category *)

Section Inhabited.

Lemma inhabited_empty : inhabited_sets ∅.
Proof. apply map_Forall_empty. Qed.

Lemma inhabited_add_to k x d : inhabited_sets d → inhabited_sets (add_to k x d).
Proof.
  intros Hd. unfold add_to. apply map_Forall_insert_2; [|done].
  intros H. assert (x ∈ (∅ : gset string)) as Hx; [|by apply not_elem_of_empty in Hx].
  rewrite <- H. apply elem_of_union. right. by apply elem_of_singleton.
Qed.

Lemma inhabited_candidates tokens c :
  inhabited_sets (candidate_skills c) →
  inhabited_sets (candidate_skills (foldl note_token c tokens)).
Proof.
  revert c. induction tokens as [|t tokens IH]; intros c Hc; [done|].
  cbn [foldl]. apply IH. unfold note_token.
  generalize (map_token_to_skill t). intros skills. revert c Hc.
  induction skills as [|[l k] skills IHs]; intros c Hc; [done|].
  cbn [foldl]. apply IHs. by apply inhabited_add_to.
Qed.

Lemma inhabited_tiers st entries t :
  inhabited_sets (accepted t) → inhabited_sets (possible t) →
  inhabited_sets (accepted (foldl (note_tier st) t entries))
  ∧ inhabited_sets (possible (foldl (note_tier st) t entries)).
Proof.
  revert t. induction entries as [|[token [l k]] entries IH]; intros t Ha Hp; [done|].
  cbn [foldl]. apply IH; unfold note_tier; destruct (seen st token); cbn;
    try done; by apply inhabited_add_to.
Qed.

Lemma well_formed_sorted d : inhabited_sets d → well_formed_tier (sorted <$> d).
Proof.
  intros Hd. unfold well_formed_tier. apply map_Forall_fmap.
  intros k s Hs. cbn. split; [|apply sorted_ascending].
  rewrite sorted_nil. by apply (Hd k).
Qed.

End Inhabited.

(** X2.  In a record that [scan_repo] returns, each of the three tiers lists
    under every category it has at least one label, and lists the labels in
    strictly ascending order, so without repetition. *)
Theorem tiers_well_formed url clone r :
  scan_repo url clone = Returns r →
  well_formed_tier (candidate_skills_by_category r)
  ∧ well_formed_tier (accepted_skills_by_category r)
  ∧ well_formed_tier (possible_skills_by_category r).
Proof.
  destruct clone as [files|msg|e]; cbn [scan_repo]; intros [= <-].
  - unfold classify. cbn [candidate_skills_by_category
      accepted_skills_by_category possible_skills_by_category].
    destruct (inhabited_tiers (scan_files files)
                (map_to_list (candidate_mappings
                   (collect_candidates (elements (all_tokens (scan_files files))))))
                (Tiers ∅ ∅) inhabited_empty inhabited_empty) as [Ha Hp].
    conjuncts; apply well_formed_sorted.
    + apply inhabited_candidates, inhabited_empty.
    + exact Ha.
    + exact Hp.
  - cbn. conjuncts; apply map_Forall_empty.
Qed.

Lemma tiers_well_formed_witness :
  well_formed_tier
    (candidate_skills_by_category (classify demo_url (scan_files kubernetes_repo)))
  ∧ well_formed_tier
      (accepted_skills_by_category (classify demo_url (scan_files kubernetes_repo)))
  ∧ well_formed_tier
      (possible_skills_by_category (classify demo_url (scan_files kubernetes_repo))).
Proof.
  apply (tiers_well_formed demo_url (Cloned kubernetes_repo)). reflexivity.
Defined.

(** ** Runs of a character class *)

Section Runs.
Context (p : ascii -> bool).

Lemma take_drop_while s : s = take_while p s +:+ drop_while p s.
Proof.
  induction s as [|c s IH]; [done|]. cbn [take_while drop_while].
  destruct (p c); [|done]. rewrite append_cons. by rewrite <- IH.
Qed.

Lemma take_while_all s : all_chars p (take_while p s) = true.
Proof.
  induction s as [|c s IH]; [done|]. cbn [take_while].
  destruct (p c) eqn:Hc; [|done]. cbn [all_chars]. by rewrite Hc, IH.
Qed.

Lemma drop_while_first s : of_class p (Str.first_char (drop_while p s)) = false.
Proof.
  induction s as [|c s IH]; [done|]. cbn [drop_while].
  destruct (p c) eqn:Hc; [done|]. cbn. done.
Qed.

Lemma length_append (a b : string) :
  String.length (a +:+ b) = (String.length a + String.length b)%nat.
Proof.
  induction a as [|c a IH]; [done|]. rewrite append_cons. cbn [String.length].
  by rewrite IH.
Qed.

Lemma take_append (a b : string) : Str.take (String.length a) (a +:+ b) = a.
Proof.
  induction a as [|c a IH]; [by destruct b|]. rewrite append_cons.
  cbn [String.length Str.take]. by rewrite IH.
Qed.

(** A run that is followed by no character of the class is the longest
    prefix of the class. *)
Lemma all_chars_prefix tk post :
  all_chars p tk = true →
  of_class p (Str.first_char post) = false →
  take_while p (tk +:+ post) = tk ∧ drop_while p (tk +:+ post) = post.
Proof.
  intros Hall Hpost. induction tk as [|c tk IH].
  - rewrite append_nil. destruct post as [|d post]; [done|].
    cbn in Hpost. cbn [take_while drop_while]. by rewrite Hpost.
  - cbn [all_chars] in Hall. apply andb_true_iff in Hall as [Hc Hall].
    rewrite append_cons. cbn [take_while drop_while]. rewrite Hc.
    destruct (IH Hall) as [-> ->]. done.
Qed.

(** A prefix that ends in a character outside the class reaches beyond the
    longest prefix of the class. *)
Lemma prefix_beyond_run pre rest :
  pre ≠ EmptyString →
  of_class p (Str.last_char pre) = false →
  ∃ pre', pre' ≠ EmptyString
    ∧ pre = take_while p (pre +:+ rest) +:+ pre'
    ∧ drop_while p (pre +:+ rest) = pre' +:+ rest
    ∧ Str.last_char pre' = Str.last_char pre.
Proof.
  induction pre as [|c pre IH]; [done|]. intros _ Hlast.
  rewrite append_cons. cbn [take_while drop_while].
  destruct (p c) eqn:Hc.
  - destruct pre as [|d pre].
    { cbn in Hlast. congruence. }
    destruct IH as (pre' & Hne & Heq & Hdrop & Hl); [done|exact Hlast|].
    exists pre'. split; [done|]. rewrite append_cons. split; [by rewrite <- Heq|].
    split; [done|]. rewrite Hl. done.
  - exists (String c pre). rewrite append_nil, append_cons. done.
Qed.

(** The star of the matcher takes the longest prefix of the class when the
    continuation accepts at once. *)
Lemma star_greedy g prev s :
  Re.star p g Some prev s
  = Some (Re.Cursor (last_or prev (take_while p s)) (drop_while p s) g).
Proof.
  revert prev. induction s as [|c s IH]; intros prev; [done|].
  cbn [Re.star take_while drop_while]. destruct (p c); [|done].
  by rewrite IH, last_or_cons.
Qed.

Lemma match_at_plus prev s :
  Re.match_at (Re.Plus p) prev s
  = match s with
    | String c s' =>
        if p c
        then Some (Re.Cursor (last_or (Some c) (take_while p s'))
                     (drop_while p s') None)
        else None
    | EmptyString => None
    end.
Proof.
  unfold Re.match_at, Re.Plus. cbn [Re.exec Re.rest Re.before Re.grp].
  destruct s as [|c s]; [done|]. destruct (p c); [|done]. apply star_greedy.
Qed.

End Runs.

(** Passing over the characters of a match. *)
Lemma findall_skip r prev pre s :
  Re.findall_from r prev (pre +:+ s) (String.length pre)
  = Re.findall_from r (last_or prev pre) s 0.
Proof.
  revert prev. induction pre as [|c pre IH]; intros prev.
  - by rewrite append_nil.
  - rewrite append_cons, last_or_cons. cbn [String.length Re.findall_from].
    replace (S (String.length pre) - 1)%nat with (String.length pre) by lia.
    apply IH.
Qed.

Section RunsFound.
Context (p : ascii -> bool).

Lemma findall_plus_cons prev c s :
  Re.findall_from (Re.Plus p) prev (String c s) 0
  = if p c
    then String c (take_while p s)
         :: Re.findall_from (Re.Plus p) (last_or (Some c) (take_while p s))
              (drop_while p s) 0
    else Re.findall_from (Re.Plus p) (Some c) s 0.
Proof.
  cbn [Re.findall_from]. rewrite match_at_plus. destruct (p c); [|done].
  cbn [Re.rest Re.grp].
  assert (Hlen : (String.length (String c s) - String.length (drop_while p s))%nat
                 = S (String.length (take_while p s))).
  { cbn [String.length]. rewrite (take_drop_while p s) at 1.
    rewrite length_append. lia. }
  rewrite Hlen. cbn [Str.take]. f_equal.
  - f_equal. pose proof (take_append (take_while p s) (drop_while p s)) as H.
    by rewrite <- take_drop_while in H.
  - replace (S (String.length (take_while p s)) - 1)%nat
      with (String.length (take_while p s)) by lia.
    pose proof (findall_skip (Re.Plus p) (Some c) (take_while p s)
                  (drop_while p s)) as H.
    by rewrite <- take_drop_while in H.
Qed.

Lemma findall_plus_spec n : ∀ s prev tk,
  (String.length s ≤ n)%nat →
  tk ∈ Re.findall_from (Re.Plus p) prev s 0 ↔ maximal_run p tk s.
Proof.
  induction n as [|n IH]; intros s prev tk Hn.
  - destruct s as [|c s]; [|cbn in Hn; lia]. cbn. split; [by intros ?%elem_of_nil|].
    intros (pre & post & Hs & Hne & _).
    destruct pre; [|by rewrite append_cons in Hs].
    destruct tk; [done|by rewrite append_nil, append_cons in Hs].
  - destruct s as [|c s].
    { cbn. split; [by intros ?%elem_of_nil|].
      intros (pre & post & Hs & Hne & _).
      destruct pre; [|by rewrite append_cons in Hs].
      destruct tk; [done|by rewrite append_nil, append_cons in Hs]. }
    cbn [String.length] in Hn. rewrite findall_plus_cons.
    destruct (p c) eqn:Hc.
    + assert (Hdw : (String.length (drop_while p s) ≤ n)%nat).
      { pose proof (f_equal String.length (take_drop_while p s)) as Hl.
        rewrite length_append in Hl. lia. }
      rewrite elem_of_cons, (IH _ _ _ Hdw). split.
      * intros [->|(pre & post & Hs & Hne & Hall & Hpre & Hpost)].
        -- exists EmptyString, (drop_while p s). rewrite append_nil.
           split; [by rewrite append_cons, <- take_drop_while|].
           split; [done|]. split; [cbn [all_chars]; by rewrite Hc, take_while_all|].
           split; [done|apply drop_while_first].
        -- destruct pre as [|d pre].
           { exfalso. rewrite append_nil in Hs. destruct tk as [|e tk]; [done|].
             cbn [all_chars] in Hall. apply andb_true_iff in Hall as [He _].
             pose proof (drop_while_first p s) as Hf.
             rewrite Hs, append_cons in Hf. cbn in Hf. congruence. }
           exists (String c (take_while p s) +:+ String d pre), post.
           split.
           { rewrite append_assoc, <- Hs, append_cons. by rewrite <- take_drop_while. }
           split; [done|]. split; [done|]. split; [|done].
           rewrite last_char_append. unfold last_or.
           destruct (last_char_cons d pre) as [x Hx]. rewrite Hx in Hpre |- *. done.
      * intros (pre & post & Hs & Hne & Hall & Hpre & Hpost).
        destruct pre as [|d pre].
        -- left. rewrite append_nil in Hs.
           destruct tk as [|e tk]; [done|]. rewrite append_cons in Hs.
           injection Hs as <- Hs. cbn [all_chars] in Hall.
           apply andb_true_iff in Hall as [_ Hall].
           destruct (all_chars_prefix p tk post Hall Hpost) as [Ht _].
           by rewrite Hs, Ht.
        -- right. rewrite append_cons in Hs. injection Hs as <- Hs.
           destruct (prefix_beyond_run p (String c pre) (tk +:+ post))
             as (pre' & Hne' & Heq & Hdrop & Hl); [done|exact Hpre|].
           rewrite append_cons in Hdrop. cbn [drop_while] in Hdrop.
           rewrite Hc, <- Hs in Hdrop.
           exists pre', post. rewrite Hl. done.
    + assert (Hs' : (String.length s ≤ n)%nat) by lia.
      rewrite (IH _ _ _ Hs'). split.
      * intros (pre & post & Hs & Hne & Hall & Hpre & Hpost).
        exists (String c pre), post. rewrite append_cons, <- Hs.
        split; [done|]. split; [done|]. split; [done|]. split; [|done].
        destruct pre as [|d pre]; [cbn; exact Hc|].
        change (Str.last_char (String c (String d pre)))
          with (Str.last_char (String d pre)). exact Hpre.
      * intros (pre & post & Hs & Hne & Hall & Hpre & Hpost).
        destruct pre as [|d pre].
        { exfalso. rewrite append_nil in Hs. destruct tk as [|e tk]; [done|].
          rewrite append_cons in Hs. injection Hs as <- _.
          cbn [all_chars] in Hall. apply andb_true_iff in Hall as [He _]. congruence. }
        rewrite append_cons in Hs. injection Hs as <- Hs.
        exists pre, post. split; [done|]. split; [done|]. split; [done|].
        split; [|done]. destruct pre as [|e pre]; [done|]. exact Hpre.
Qed.

End RunsFound.

(** X3.  The tokens that the manifest tokenizer finds in a text are the
    maximal runs of letters, digits, underscores, hyphens and dots of the
    text. *)
Theorem manifest_tokens_are_maximal_runs text tk :
  tk ∈ Re.findall MANIFEST_TOKEN_RE text
  ↔ maximal_run Chars.is_manifest_char tk text.
Proof.
  unfold Re.findall, MANIFEST_TOKEN_RE.
  apply (findall_plus_spec _ (String.length text)). done.
Qed.

(** ** The shape of import tokens *)

Section Pieces.

Lemma split_pieces_clean sep s :
  Forall (fun piece => has_char sep piece = false) (Str.split sep s).
Proof.
  induction s as [|c s IH]; cbn [Str.split].
  - by repeat constructor.
  - destruct (Ascii.eqb c sep) eqn:Hc.
    + by constructor.
    + destruct (Str.split sep s) as [|piece pieces].
      * repeat constructor. cbn. by rewrite Ascii.eqb_sym, Hc.
      * apply Forall_cons in IH as [Hp Hps]. constructor; [|done].
        cbn. by rewrite Ascii.eqb_sym, Hc, Hp.
Qed.

Lemma first_piece_clean sep m : has_char sep (first_piece sep m) = false.
Proof.
  pose proof (split_pieces_clean sep m) as H. unfold first_piece.
  destruct (Str.split sep m); [done|]. by apply Forall_cons in H as [? _].
Qed.

Lemma lower_char_idemp c : Chars.lower_char (Chars.lower_char c) = Chars.lower_char c.
Proof. destruct c as [[] [] [] [] [] [] [] []]; reflexivity. Qed.

Lemma lower_idemp s : Str.lower (Str.lower s) = Str.lower s.
Proof.
  induction s as [|c s IH]; [done|]. cbn [Str.lower].
  by rewrite lower_char_idemp, IH.
Qed.

Lemma lower_char_dot c :
  Ascii.eqb "." (Chars.lower_char c) = Ascii.eqb "." c.
Proof. destruct c as [[] [] [] [] [] [] [] []]; reflexivity. Qed.

Lemma lower_keeps_dots s : has_char "." (Str.lower s) = has_char "." s.
Proof.
  induction s as [|c s IH]; [done|]. cbn [Str.lower has_char].
  by rewrite lower_char_dot, IH.
Qed.

End Pieces.

(** X4.  A token of the Python extractor has no dot; a token of the JVM
    extractor has no dot and is in lower case; a token of the ECMAScript
    extractor starts with an at sign or has no slash. *)
Theorem import_tokens_shape content tok :
  (tok ∈ extract_imports_from_py content → has_char "." tok = false)
  ∧ (tok ∈ extract_imports_from_java content →
     has_char "." tok = false ∧ Str.lower tok = tok)
  ∧ (tok ∈ extract_imports_from_js content →
     Str.startswith tok "@" = true ∨ has_char "/" tok = false).
Proof.
  conjuncts.
  - unfold extract_imports_from_py.
    intros (m & -> & _)%elem_of_list_to_set%list_elem_of_fmap.
    apply first_piece_clean.
  - unfold extract_imports_from_java.
    intros (m & -> & _)%elem_of_list_to_set%list_elem_of_fmap.
    split; [|apply lower_idemp]. rewrite lower_keeps_dots. apply first_piece_clean.
  - unfold extract_imports_from_js.
    assert (Hn : ∀ name, Str.startswith (normalize_js_pkg name) "@" = true
                         ∨ has_char "/" (normalize_js_pkg name) = false).
    { intros name. unfold normalize_js_pkg.
      destruct (Str.startswith name "@") eqn:Hat; [by left|].
      right. apply first_piece_clean. }
    intros [H|H]%elem_of_union;
      apply elem_of_list_to_set, list_elem_of_fmap in H as (m & -> & _); apply Hn.
Qed.

(** A Python source, a Java source and a JavaScript source, and a token of
    each. *)
Lemma import_tokens_shape_witness :
  has_char "." "os" = false
  ∧ (has_char "." "java" = false ∧ Str.lower "java" = "java")
  ∧ (Str.startswith "lodash" "@" = true ∨ has_char "/" "lodash" = false).
Proof.
  conjuncts.
  - apply (proj1 (import_tokens_shape "import os.path" "os")). evaluate.
  - apply (proj1 (proj1 (proj2 (import_tokens_shape "import Java.util.List;" "java"))
                    ltac:(evaluate))).
  - apply (proj2 (proj1 (proj2 (import_tokens_shape "import Java.util.List;" "java"))
                    ltac:(evaluate))).
  - apply (proj2 (proj2 (import_tokens_shape "const fp = require('lodash/fp');" "lodash"))).
    evaluate.
Defined.

(** ** What the scan of a file adds to the dictionaries of paths *)

Section Held.

Lemma elem_of_mark b rel p : p ∈ mark b rel ↔ b = true ∧ p = rel.
Proof.
  unfold mark. destruct b.
  - rewrite elem_of_singleton. naive_solver.
  - split; [by intros ?%not_elem_of_empty|by intros [? _]].
Qed.

Lemma mark_false rel (s : gset string) : mark false rel ∪ s = s.
Proof. apply union_empty_l_L. Qed.

Lemma held_append_to k v d k' :
  held (append_to k v d) k' = mark (String.eqb k' k) v ∪ held d k'.
Proof.
  unfold held, append_to. destruct (String.eqb_spec k' k) as [->|Hne].
  - rewrite lookup_insert_eq. simpl. set_solver.
  - rewrite lookup_insert_ne by done. simpl. by rewrite union_empty_l_L.
Qed.

Context (proj : Raw.t → gmap string (list string)) (rel k : string).

Lemma held_fold {A} (step : Raw.t → A → Raw.t) (c : A → bool) :
  (∀ st x, held (proj (step st x)) k = mark (c x) rel ∪ held (proj st) k) →
  ∀ l st, held (proj (foldl step st l)) k
          = mark (existsb c l) rel ∪ held (proj st) k.
Proof.
  intros Hstep l. induction l as [|x l IH]; intros st; cbn [foldl existsb].
  - by rewrite mark_false.
  - rewrite IH, Hstep. destruct (c x), (existsb c l); cbn [orb mark];
      rewrite ?union_empty_l_L; try done.
    by rewrite (assoc_L (∪)), union_idemp_L.
Qed.

Lemma held_when b body c :
  (∀ st, held (proj (body st)) k = mark c rel ∪ held (proj st) k) →
  ∀ st, held (proj (when b body st)) k = mark (b && c) rel ∪ held (proj st) k.
Proof.
  intros Hbody st. unfold when. destruct b; cbn [andb]; [apply Hbody|].
  by rewrite mark_false.
Qed.

End Held.

Section PackagesFound.
Context (rel k : string).

Lemma packages_note_package tk st :
  held (Raw.packages_found (note_package rel tk st)) k
  = mark (String.eqb k tk) rel ∪ held (Raw.packages_found st) k.
Proof. apply held_append_to. Qed.

Lemma packages_note_import st pkg :
  held (Raw.packages_found (note_import rel st pkg)) k
  = mark (String.eqb k pkg) rel ∪ held (Raw.packages_found st) k.
Proof. apply held_append_to. Qed.

Lemma packages_note_manifest_token st tk :
  held (Raw.packages_found (note_manifest_token rel st tk)) k
  = mark (String.eqb k tk) rel ∪ held (Raw.packages_found st) k.
Proof. apply held_append_to. Qed.

Lemma packages_note_include st m :
  held (Raw.packages_found (note_include rel st m)) k
  = mark (String.eqb k (Str.lower (first_piece "." m))) rel
    ∪ held (Raw.packages_found st) k.
Proof. apply held_append_to. Qed.

Lemma packages_note_keyword c pl st (item : string * skill) :
  held (Raw.packages_found (note_keyword rel c pl st item)) k
  = mark ((keyword_present (fst item) c || keyword_present (fst item) pl)
          && String.eqb k (fst item)) rel
    ∪ held (Raw.packages_found st) k.
Proof.
  destruct item as [key [label cat]]. unfold note_keyword. cbn [fst].
  destruct (keyword_present key c || keyword_present key pl); cbn [andb].
  - cbn [note_evidence Raw.packages_found]. apply held_append_to.
  - by rewrite mark_false.
Qed.

Lemma evidence_note_keyword c pl st (item : string * skill) :
  held (Raw.evidence (note_keyword rel c pl st item)) k
  = mark ((keyword_present (fst item) c || keyword_present (fst item) pl)
          && String.eqb k (fst (snd item))) rel
    ∪ held (Raw.evidence st) k.
Proof.
  destruct item as [key [label cat]]. unfold note_keyword. cbn [fst snd].
  destruct (keyword_present key c || keyword_present key pl); cbn [andb].
  - cbn [note_evidence Raw.evidence]. apply held_append_to.
  - by rewrite mark_false.
Qed.

Lemma evidence_note_import st pkg :
  held (Raw.evidence (note_import rel st pkg)) k
  = mark false rel ∪ held (Raw.evidence st) k.
Proof. by rewrite mark_false. Qed.

Lemma evidence_note_manifest_token st tk :
  held (Raw.evidence (note_manifest_token rel st tk)) k
  = mark false rel ∪ held (Raw.evidence st) k.
Proof. by rewrite mark_false. Qed.

Lemma evidence_note_include st m :
  held (Raw.evidence (note_include rel st m)) k
  = mark false rel ∪ held (Raw.evidence st) k.
Proof. by rewrite mark_false. Qed.

End PackagesFound.

Lemma existsb_false {A} (l : list A) : existsb (fun _ => false) l = false.
Proof. by induction l. Qed.

Lemma existsb_eqb k (l : list string) :
  existsb (String.eqb k) l = bool_decide (k ∈ l).
Proof.
  induction l as [|x l IH]; cbn [existsb].
  - by rewrite bool_decide_eq_false_2 by apply not_elem_of_nil.
  - rewrite IH. destruct (String.eqb_spec k x) as [->|Hne]; cbn [orb].
    + by rewrite bool_decide_eq_true_2 by apply list_elem_of_here.
    + apply bool_decide_ext. rewrite elem_of_cons. naive_solver.
Qed.

Lemma mark_orb a b rel (s : gset string) :
  mark a rel ∪ (mark b rel ∪ s) = mark (a || b) rel ∪ s.
Proof.
  destruct a, b; cbn [orb mark]; rewrite ?union_empty_l_L; try done.
  by rewrite (assoc_L (∪)), union_idemp_L.
Qed.

Lemma mark_ext a b rel : a = b → mark a rel = mark b rel.
Proof. by intros ->. Qed.

Lemma existsb_fmap_eqb {A} k (g : A → string) (l : list A) :
  existsb (fun m => String.eqb k (g m)) l = bool_decide (k ∈ g <$> l).
Proof.
  rewrite <- existsb_eqb. induction l as [|x l IH]; [done|].
  cbn [existsb fmap list_fmap]. by rewrite IH.
Qed.

(** The scan of one file, on [packages_found]. *)
Lemma packages_scan_file st f k :
  held (Raw.packages_found (scan_file st f)) k
  = mark (noted f k) (rel f) ∪ held (Raw.packages_found st) k.
Proof.
  unfold scan_file. cbv zeta.
  rewrite (held_fold Raw.packages_found (rel f) k _ _
             (packages_note_keyword (rel f) k _ _)).
  rewrite (held_fold Raw.packages_found (rel f) k _ _
             (packages_note_keyword (rel f) k _ _)).
  rewrite (held_when Raw.packages_found (rel f) k _ _ _
             (held_fold Raw.packages_found (rel f) k _ _
                (packages_note_include (rel f) k) _)).
  rewrite (held_when Raw.packages_found (rel f) k _ _ _
             (held_fold Raw.packages_found (rel f) k _ _
                (packages_note_import (rel f) k) _)).
  rewrite (held_when Raw.packages_found (rel f) k _ _ _
             (held_fold Raw.packages_found (rel f) k _ _
                (packages_note_import (rel f) k) _)).
  rewrite (held_when Raw.packages_found (rel f) k _ _ _
             (held_fold Raw.packages_found (rel f) k _ _
                (packages_note_import (rel f) k) _)).
  rewrite (held_when Raw.packages_found (rel f) k
             (bool_decide (Str.lower (filename f) ∈ MANIFEST_FILES)) _
             (bool_decide (k ∈ manifest_tokens_of f))).
  2:{ intros s. cbn [note_evidence Raw.packages_found].
      rewrite (held_fold Raw.packages_found (rel f) k _ _
                 (packages_note_manifest_token (rel f) k)).
      by rewrite existsb_eqb. }
  cbn [note_file Raw.packages_found].
  rewrite !existsb_eqb, existsb_fmap_eqb, !mark_orb.
  unfold noted, extension, content_of, keyword_hit, path_l, is_manifest.
  reflexivity.
Qed.

Lemma evidence_manifest_step rel k tokens st :
  held (Raw.evidence
          (note_evidence rel "manifests"
             (foldl (note_manifest_token rel) st tokens))) k
  = mark (String.eqb k "manifests") rel ∪ held (Raw.evidence st) k.
Proof.
  cbn [note_evidence Raw.evidence]. rewrite held_append_to. f_equal.
  rewrite (held_fold Raw.evidence rel k _ _ (evidence_note_manifest_token rel k)).
  by rewrite existsb_false, mark_false.
Qed.

(** The scan of one file, on [evidence]. *)
Lemma evidence_scan_file st f k :
  held (Raw.evidence (scan_file st f)) k
  = mark (evidenced f k) (rel f) ∪ held (Raw.evidence st) k.
Proof.
  unfold scan_file. cbv zeta.
  rewrite (held_fold Raw.evidence (rel f) k _ _
             (evidence_note_keyword (rel f) k _ _)).
  rewrite (held_fold Raw.evidence (rel f) k _ _
             (evidence_note_keyword (rel f) k _ _)).
  rewrite (held_when Raw.evidence (rel f) k _ _ _
             (held_fold Raw.evidence (rel f) k _ _
                (evidence_note_include (rel f) k) _)).
  rewrite (held_when Raw.evidence (rel f) k _ _ _
             (held_fold Raw.evidence (rel f) k _ _
                (evidence_note_import (rel f) k) _)).
  rewrite (held_when Raw.evidence (rel f) k _ _ _
             (held_fold Raw.evidence (rel f) k _ _
                (evidence_note_import (rel f) k) _)).
  rewrite (held_when Raw.evidence (rel f) k _ _ _
             (held_fold Raw.evidence (rel f) k _ _
                (evidence_note_import (rel f) k) _)).
  rewrite (held_when Raw.evidence (rel f) k _ _ _
             (evidence_manifest_step (rel f) k _)).
  cbn [note_file Raw.evidence].
  rewrite !existsb_false, !andb_false_r, !mark_false, !mark_orb.
  unfold evidenced, keyword_hit, content_of, path_l, is_manifest.
  reflexivity.
Qed.

Section Noted.

Lemma table_hit_spec {A} (hit : string → bool) (tbl : list (string * A)) k :
  existsb (fun e => hit (fst e) && String.eqb k (fst e)) tbl = true
  ↔ k ∈ fst <$> tbl ∧ hit k = true.
Proof.
  induction tbl as [|[key v] tbl IH]; cbn [existsb fmap list_fmap fst].
  - split; [done|]. by intros [?%elem_of_nil _].
  - rewrite orb_true_iff, andb_true_iff, String.eqb_eq, IH, elem_of_cons. split.
    + intros [[Hh ->]|[Hin Hh]]; auto.
    + intros [[->|Hin] Hh]; auto.
Qed.

Lemma label_hit_spec (hit : string → bool) (tbl : list (string * skill)) label :
  existsb (fun e => hit (fst e) && String.eqb label (fst (snd e))) tbl = true
  ↔ ∃ key category, (key, (label, category)) ∈ tbl ∧ hit key = true.
Proof.
  induction tbl as [|[key [l c]] tbl IH]; cbn [existsb fst snd].
  - split; [done|]. by intros (? & ? & ?%elem_of_nil & _).
  - rewrite orb_true_iff, andb_true_iff, String.eqb_eq, IH. split.
    + intros [[Hh ->]|(key' & c' & Hin & Hh)].
      * exists key, c. split; [apply list_elem_of_here|done].
      * exists key', c'. split; [by apply list_elem_of_further|done].
    + intros (key' & c' & Hin & Hh). apply elem_of_cons in Hin as [Heq|Hin].
      * injection Heq as -> -> ->. by left.
      * right. exists key', c'. auto.
Qed.

Lemma elem_of_guarded (b : bool) (s : gset string) k :
  k ∈ (if b then s else ∅) ↔ b = true ∧ k ∈ s.
Proof.
  destruct b; [naive_solver|].
  split; [by intros ?%not_elem_of_empty|by intros [? _]].
Qed.

Lemma imports_of_spec f k :
  k ∈ imports_of f
  ↔ (String.eqb (extension f) ".java" = true
     ∧ k ∈ extract_imports_from_java (content_of f))
    ∨ (one_of (extension f) [".js"; ".ts"; ".jsx"; ".tsx"] = true
       ∧ k ∈ extract_imports_from_js (content_of f))
    ∨ (String.eqb (extension f) ".py" = true
       ∧ k ∈ extract_imports_from_py (content_of f)).
Proof.
  unfold imports_of, extension, content_of. cbv zeta.
  rewrite !elem_of_union, !elem_of_guarded. tauto.
Qed.

Lemma includes_of_spec f k :
  k ∈ includes_of f
  ↔ one_of (extension f) [".c"; ".h"; ".cpp"; ".cc"; ".cxx"] = true
    ∧ k ∈ (fun m => Str.lower (first_piece "." m))
          <$> Re.findall INCLUDE_RE_C (content_of f).
Proof.
  unfold includes_of. destruct (one_of _ _); [naive_solver|].
  split; [by intros ?%elem_of_nil|by intros [? _]].
Qed.

Lemma noted_spec f k : noted f k = true ↔ found_in f k.
Proof.
  unfold noted, found_in.
  rewrite !orb_true_iff, !andb_true_iff, !bool_decide_eq_true.
  rewrite !(table_hit_spec (keyword_hit f)).
  rewrite imports_of_spec, includes_of_spec.
  unfold table_keys. rewrite elem_of_app.
  setoid_rewrite elem_of_elements. tauto.
Qed.

Lemma evidenced_spec f label : evidenced f label = true ↔ evidence_in f label.
Proof.
  unfold evidenced, evidence_in.
  rewrite !orb_true_iff, andb_true_iff, bool_decide_eq_true, String.eqb_eq.
  rewrite !(label_hit_spec (keyword_hit f)). split.
  - intros [[(key & c & Hin & Hh)|(key & c & Hin & Hh)]|[Hm ->]].
    + right. exists key, c. split; [|done]. apply elem_of_app. by right.
    + right. exists key, c. split; [|done]. apply elem_of_app. by left.
    + left. split; [reflexivity|exact Hm].
  - intros [[-> Hm]|(key & c & Hin & Hh)]; [right; split; [exact Hm|reflexivity]|].
    left. apply elem_of_app in Hin as [Hin|Hin]; [right|left]; exists key, c; auto.
Qed.

End Noted.

Section Scan.

Lemma held_scan_files (proj : Raw.t → gmap string (list string))
    (what : file → string → bool) :
  (∀ st f k, held (proj (scan_file st f)) k
             = mark (what f k) (rel f) ∪ held (proj st) k) →
  ∀ files st k p,
    p ∈ held (proj (foldl scan_file st files)) k
    ↔ p ∈ held (proj st) k ∨ ∃ f, f ∈ files ∧ rel f = p ∧ what f k = true.
Proof.
  intros Hstep files. induction files as [|f files IH]; intros st k p; cbn [foldl].
  - split; [by left|]. intros [?|(? & ?%elem_of_nil & _)]; done.
  - rewrite IH, Hstep, elem_of_union, elem_of_mark. split.
    + intros [[[Hw ->]|Hin]|(f' & Hf' & Hrest)].
      * right. exists f. split; [apply list_elem_of_here|done].
      * by left.
      * right. exists f'. split; [by apply list_elem_of_further|done].
    + intros [Hin|(f' & Hf' & <- & Hw)]; [left; by right|].
      apply elem_of_cons in Hf' as [->|Hf']; [left; by left|].
      right. exists f'. auto.
Qed.

Lemma held_empty k : held ∅ k = ∅.
Proof. unfold held. by rewrite lookup_empty. Qed.

Lemma In_tier_sorted_set d k p : In_tier (sorted_set <$> d) k p ↔ p ∈ held d k.
Proof.
  unfold In_tier, held. rewrite lookup_fmap. destruct (d !! k) as [l|]; cbn.
  - split.
    + intros (labels & [= <-] & Hp). by apply sorted_elem in Hp.
    + intros Hp. eexists. split; [done|]. by apply sorted_elem.
  - split; [by intros (? & ? & _)|by intros ?%not_elem_of_empty].
Qed.

End Scan.

Lemma held_packages_found files k p :
  p ∈ held (Raw.packages_found (scan_files files)) k
  ↔ ∃ f, f ∈ files ∧ rel f = p ∧ found_in f k.
Proof.
  unfold scan_files.
  rewrite (held_scan_files Raw.packages_found noted packages_scan_file).
  cbn [Raw.empty Raw.packages_found]. rewrite held_empty. split.
  - intros [?%not_elem_of_empty|(f & Hf & Hr & Hn)]; [done|].
    exists f. by rewrite <- noted_spec.
  - intros (f & Hf & Hr & Hn). right. exists f. by rewrite noted_spec.
Qed.

Lemma held_evidence files label p :
  p ∈ held (Raw.evidence (scan_files files)) label
  ↔ ∃ f, f ∈ files ∧ rel f = p ∧ evidence_in f label.
Proof.
  unfold scan_files.
  rewrite (held_scan_files Raw.evidence evidenced evidence_scan_file).
  cbn [Raw.empty Raw.evidence]. rewrite held_empty. split.
  - intros [?%not_elem_of_empty|(f & Hf & Hr & Hn)]; [done|].
    exists f. by rewrite <- evidenced_spec.
  - intros (f & Hf & Hr & Hn). right. exists f. by rewrite evidenced_spec.
Qed.

(** X5.  The provenance of a token holds the paths of the files whose scan
    notes the token, and nothing else; the record lists the same paths. *)
Theorem provenance_spec url files k p :
  (p ∈ provenance (scan_files files) k
   ↔ ∃ f, f ∈ files ∧ rel f = p ∧ found_in f k)
  ∧ (In_tier (packages_found (classify url (scan_files files))) k p
     ↔ ∃ f, f ∈ files ∧ rel f = p ∧ found_in f k).
Proof.
  split; [exact (held_packages_found files k p)|].
  unfold classify. cbn [packages_found]. rewrite In_tier_sorted_set.
  apply held_packages_found.
Qed.

(** X6.  The evidence of a label in a record holds the paths of the files in
    which a key of the label is present, the evidence under the word
    manifests the paths of the manifests, and nothing else. *)
Theorem evidence_spec url files label p :
  In_tier (evidence (classify url (scan_files files))) label p
  ↔ ∃ f, f ∈ files ∧ rel f = p ∧ evidence_in f label.
Proof.
  unfold classify. cbn [evidence]. rewrite In_tier_sorted_set.
  apply held_evidence.
Qed.

(** ** [packages_found] only grows by appending *)

Section Appending.
Context (I : gmap string (list string) → Prop).
Context (I_append : ∀ k v d, I d → I (append_to k v d)).

Lemma appending_fold {A} (step : Raw.t → A → Raw.t) :
  (∀ st x, I (Raw.packages_found st) → I (Raw.packages_found (step st x))) →
  ∀ l st, I (Raw.packages_found st) → I (Raw.packages_found (foldl step st l)).
Proof.
  intros Hstep l. induction l as [|x l IH]; intros st Hst; [done|].
  cbn [foldl]. by apply IH, Hstep.
Qed.

Lemma appending_when b body :
  (∀ st, I (Raw.packages_found st) → I (Raw.packages_found (body st))) →
  ∀ st, I (Raw.packages_found st) → I (Raw.packages_found (when b body st)).
Proof. intros Hbody st Hst. unfold when. destruct b; [by apply Hbody|done]. Qed.

Lemma appending_keyword rel c pl st item :
  I (Raw.packages_found st) →
  I (Raw.packages_found (note_keyword rel c pl st item)).
Proof.
  intros Hst. destruct item as [key [label cat]]. unfold note_keyword.
  destruct (keyword_present key c || keyword_present key pl); [|done].
  cbn [note_evidence note_package Raw.packages_found]. by apply I_append.
Qed.

Lemma appending_scan_file st f :
  I (Raw.packages_found st) → I (Raw.packages_found (scan_file st f)).
Proof.
  intros Hst. unfold scan_file. cbv zeta.
  apply appending_fold; [intros; by apply appending_keyword|].
  apply appending_fold; [intros; by apply appending_keyword|].
  apply appending_when.
  { intros s Hs. apply appending_fold; [|done]. intros s' m Hs'.
    by apply I_append. }
  apply appending_when.
  { intros s Hs. apply appending_fold; [|done]. intros s' m Hs'.
    by apply I_append. }
  apply appending_when.
  { intros s Hs. apply appending_fold; [|done]. intros s' m Hs'.
    by apply I_append. }
  apply appending_when.
  { intros s Hs. apply appending_fold; [|done]. intros s' m Hs'.
    by apply I_append. }
  apply appending_when.
  { intros s Hs. cbn [note_evidence Raw.packages_found].
    apply appending_fold; [|done]. intros s' m Hs'. by apply I_append. }
  exact Hst.
Qed.

Lemma appending_scan_files files :
  I ∅ → I (Raw.packages_found (scan_files files)).
Proof.
  intros H0. unfold scan_files.
  apply (appending_fold scan_file); [intros; by apply appending_scan_file|].
  exact H0.
Qed.

End Appending.

Lemma packages_found_nonempty files k l :
  Raw.packages_found (scan_files files) !! k = Some l → l ≠ [].
Proof.
  revert k l. change (map_Forall (fun _ l => l ≠ @nil string)
                        (Raw.packages_found (scan_files files))).
  apply (appending_scan_files (map_Forall (fun _ l => l ≠ @nil string))).
  - intros k v d Hd. unfold append_to. apply map_Forall_insert_2; [|done].
    by destruct (default [] (d !! k)).
  - apply map_Forall_empty.
Qed.

Lemma dom_packages_found files k :
  k ∈ dom (Raw.packages_found (scan_files files))
  ↔ ∃ f, f ∈ files ∧ found_in f k.
Proof.
  rewrite elem_of_dom. split.
  - intros [l Hl]. pose proof (packages_found_nonempty files k l Hl) as Hne.
    destruct l as [|p l]; [done|].
    assert (Hp : p ∈ provenance (scan_files files) k).
    { unfold provenance. rewrite Hl. apply elem_of_list_to_set.
      apply list_elem_of_here. }
    apply held_packages_found in Hp as (f & Hf & _ & Hfound).
    by exists f.
  - intros (f & Hf & Hfound).
    assert (Hp : rel f ∈ provenance (scan_files files) k).
    { apply held_packages_found. by exists f. }
    unfold provenance in Hp.
    destruct (Raw.packages_found (scan_files files) !! k) as [l|]; [by eexists|].
    by apply not_elem_of_empty in Hp.
Qed.

Lemma imports_found_spec files pkg :
  pkg ∈ Raw.imports_found (scan_files files) ↔ ∃ f, f ∈ files ∧ pkg ∈ imports_of f.
Proof.
  unfold scan_files. rewrite imports_found_scan.
  split; [|by right]. intros [H|H]; [by apply not_elem_of_empty in H|done].
Qed.

Lemma manifest_tokens_spec files tk :
  tk ∈ Raw.manifest_tokens (scan_files files)
  ↔ ∃ f, f ∈ files ∧ is_manifest f ∧ tk ∈ manifest_tokens_of f.
Proof.
  unfold scan_files. rewrite manifest_tokens_scan.
  split; [|by right]. intros [H|H]; [by apply not_elem_of_empty in H|done].
Qed.

Lemma all_tokens_files files token :
  token ∈ all_tokens (scan_files files) ↔ token_of files token.
Proof.
  unfold all_tokens, lowered, token_of. rewrite !elem_of_union, !elem_of_map. split.
  - intros [[(k & -> & Hk)|(k & -> & Hk)]|(k & -> & Hk)].
    + apply dom_packages_found in Hk as (f & Hf & Hfound). by exists f, k.
    + apply imports_found_spec in Hk as (f & Hf & Hin). exists f, k.
      split; [done|]. split; [|done]. right. by left.
    + apply manifest_tokens_spec in Hk as (f & Hf & Hm & Hin). exists f, k.
      split; [exact Hf|]. split; [|reflexivity]. left. split; [exact Hm|exact Hin].
  - intros (f & k & Hf & Hfound & ->). left. left. exists k.
    split; [done|]. apply dom_packages_found. by exists f.
Qed.

Lemma two_of_size (s : gset string) :
  (2 ≤ size s)%nat → ∃ p1 p2, p1 ∈ s ∧ p2 ∈ s ∧ p1 ≠ p2.
Proof.
  intros Hs.
  destruct (set_choose_L s) as [p1 Hp1].
  { intros ->. rewrite size_empty in Hs. lia. }
  destruct (set_choose_L (s ∖ {[p1]})) as [p2 Hp2].
  { intros He. assert (size (s ∖ {[p1]}) = 0%nat) as H0 by by rewrite He, size_empty.
    rewrite size_difference, size_singleton in H0; [lia|].
    by apply singleton_subseteq_l. }
  exists p1, p2. apply elem_of_difference in Hp2 as [Hp2 Hne].
  rewrite elem_of_singleton in Hne. auto.
Qed.

(** X7.  The provenance of a token reaches two paths exactly when two files
    of different paths note the token: hits within one file count once. *)
Theorem two_paths_need_two_files files k :
  (2 ≤ size (provenance (scan_files files) k))%nat
  ↔ ∃ f1 f2, f1 ∈ files ∧ f2 ∈ files ∧ rel f1 ≠ rel f2
      ∧ found_in f1 k ∧ found_in f2 k.
Proof.
  split.
  - intros (p1 & p2 & Hp1 & Hp2 & Hne)%two_of_size.
    apply held_packages_found in Hp1 as (f1 & Hf1 & <- & H1).
    apply held_packages_found in Hp2 as (f2 & Hf2 & <- & H2).
    exists f1, f2. auto.
  - intros (f1 & f2 & Hf1 & Hf2 & Hne & H1 & H2).
    apply (two_elements _ (rel f1) (rel f2)); [..|done].
    + apply held_packages_found. by exists f1.
    + apply held_packages_found. by exists f2.
Qed.

(** ** What the extractors and the table loops leave alone *)

Lemma kept_fold {A B} (proj : Raw.t → B) (step : Raw.t → A → Raw.t) :
  (∀ st x, proj (step st x) = proj st) →
  ∀ l st, proj (foldl step st l) = proj st.
Proof.
  intros Hstep l. induction l as [|x l IH]; intros st; [done|].
  cbn [foldl]. by rewrite IH.
Qed.

Section Kept.
Context {B : Type} (proj : Raw.t → B).
Context (kept_package : ∀ rel tk st, proj (note_package rel tk st) = proj st).
Context (kept_evidence : ∀ rel label st, proj (note_evidence rel label st) = proj st).
Context (kept_import : ∀ rel st pkg, proj (note_import rel st pkg) = proj st).
Context (kept_manifest_token :
  ∀ rel st tk, proj (note_manifest_token rel st tk) = proj st).

Lemma kept_keyword rel c pl st item :
  proj (note_keyword rel c pl st item) = proj st.
Proof.
  destruct item as [key [label cat]]. unfold note_keyword.
  destruct (keyword_present key c || keyword_present key pl); [|done].
  by rewrite kept_evidence, kept_package.
Qed.

Lemma kept_scan_file st f :
  proj (scan_file st f) = proj (note_file (path_l f) (extension f) st).
Proof.
  unfold scan_file. cbv zeta.
  rewrite (kept_fold proj); [|intros; apply kept_keyword].
  rewrite (kept_fold proj); [|intros; apply kept_keyword].
  rewrite (when_keeps proj);
    [|intros s; apply (kept_fold proj); intros; unfold note_include; apply kept_package].
  rewrite (when_keeps proj); [|intros s; apply (kept_fold proj); intros; apply kept_import].
  rewrite (when_keeps proj); [|intros s; apply (kept_fold proj); intros; apply kept_import].
  rewrite (when_keeps proj); [|intros s; apply (kept_fold proj); intros; apply kept_import].
  rewrite (when_keeps proj);
    [|intros s; rewrite kept_evidence; apply (kept_fold proj); intros;
      apply kept_manifest_token].
  reflexivity.
Qed.

End Kept.

Lemma file_paths_scan_file st f :
  Raw.file_paths (scan_file st f) = Raw.file_paths st ++ [path_l f].
Proof. by rewrite (kept_scan_file Raw.file_paths). Qed.

Lemma file_extensions_scan_file st f :
  Raw.file_extensions (scan_file st f)
  = (if String.eqb (extension f) EmptyString then ∅ else {[extension f]})
    ∪ Raw.file_extensions st.
Proof.
  rewrite (kept_scan_file Raw.file_extensions) by done.
  cbn [note_file Raw.file_extensions].
  destruct (String.eqb (extension f) EmptyString); [|done].
  by rewrite union_empty_l_L.
Qed.

(** The language that [EXT_LANG_MAP] gives for the extension of a file. *)
Lemma languages_scan_file st f :
  Raw.languages (scan_file st f)
  = (if String.eqb (extension f) EmptyString then ∅
     else match EXT_LANG_MAP !! extension f with
          | Some lang => {[lang]}
          | None => ∅
          end)
    ∪ Raw.languages st.
Proof.
  rewrite (kept_scan_file Raw.languages) by done.
  cbn [note_file Raw.languages].
  destruct (String.eqb (extension f) EmptyString); [by rewrite union_empty_l_L|].
  destruct (EXT_LANG_MAP !! extension f); [done|by rewrite union_empty_l_L].
Qed.

Lemma file_paths_fold files st :
  Raw.file_paths (foldl scan_file st files) = Raw.file_paths st ++ (path_l <$> files).
Proof.
  revert st. induction files as [|f files IH]; intros st; cbn [foldl fmap list_fmap].
  - by rewrite app_nil_r.
  - rewrite IH, file_paths_scan_file. by rewrite <- app_assoc.
Qed.

Lemma file_extensions_fold files st ext :
  ext ∈ Raw.file_extensions (foldl scan_file st files)
  ↔ ext ∈ Raw.file_extensions st
    ∨ ∃ f, f ∈ files ∧ extension f = ext ∧ ext ≠ EmptyString.
Proof.
  revert st. induction files as [|f files IH]; intros st; cbn [foldl].
  - split; [by left|]. intros [H|(f & Hf & _)]; [done|]. by apply elem_of_nil in Hf.
  - rewrite IH, file_extensions_scan_file, elem_of_union. split.
    + intros [[H|H]|(g & Hg & He)].
      * right. exists f. split; [apply list_elem_of_here|].
        destruct (String.eqb_spec (extension f) EmptyString) as [He|He].
        -- by apply not_elem_of_empty in H.
        -- apply elem_of_singleton in H. by subst.
      * by left.
      * right. exists g. split; [by apply list_elem_of_further|done].
    + intros [H|(g & Hg & He & Hne)]; [by left; right|].
      apply elem_of_cons in Hg as [->|Hg].
      * left. left. destruct (String.eqb_spec (extension f) EmptyString) as [He'|He'].
        -- congruence.
        -- by apply elem_of_singleton.
      * right. by exists g.
Qed.

Lemma languages_fold files st lang :
  lang ∈ Raw.languages (foldl scan_file st files)
  ↔ lang ∈ Raw.languages st
    ∨ ∃ f, f ∈ files ∧ EXT_LANG_MAP !! extension f = Some lang.
Proof.
  assert (Hnone : EXT_LANG_MAP !! EmptyString = None) by (by vm_compute).
  revert st. induction files as [|f files IH]; intros st; cbn [foldl].
  - split; [by left|]. intros [H|(f & Hf & _)]; [done|]. by apply elem_of_nil in Hf.
  - rewrite IH, languages_scan_file, elem_of_union. split.
    + intros [[H|H]|(g & Hg & He)].
      * right. exists f. split; [apply list_elem_of_here|].
        destruct (String.eqb (extension f) EmptyString);
          [by apply not_elem_of_empty in H|].
        destruct (EXT_LANG_MAP !! extension f) as [l|];
          [|by apply not_elem_of_empty in H].
        apply elem_of_singleton in H. by subst.
      * by left.
      * right. exists g. split; [by apply list_elem_of_further|done].
    + intros [H|(g & Hg & He)]; [by left; right|].
      apply elem_of_cons in Hg as [->|Hg].
      * left. left. destruct (String.eqb_spec (extension f) EmptyString) as [He'|He'].
        -- rewrite He' in He. congruence.
        -- rewrite He. by apply elem_of_singleton.
      * right. by exists g.
Qed.

Lemma files_scanned_fold files st :
  Raw.files_scanned (foldl scan_file st files)
  = (Raw.files_scanned st + length files)%nat.
Proof.
  revert st. induction files as [|f files IH]; intros st; cbn [foldl length].
  - lia.
  - rewrite IH, files_scanned_scan_file. lia.
Qed.

Lemma languages_spec files lang :
  lang ∈ Raw.languages (scan_files files)
  ↔ ∃ f, f ∈ files ∧ EXT_LANG_MAP !! extension f = Some lang.
Proof.
  unfold scan_files. rewrite languages_fold.
  split; [|by right]. intros [H|H]; [by apply not_elem_of_empty in H|done].
Qed.

Lemma file_extensions_spec files ext :
  ext ∈ Raw.file_extensions (scan_files files)
  ↔ ∃ f, f ∈ files ∧ extension f = ext ∧ ext ≠ EmptyString.
Proof.
  unfold scan_files. rewrite file_extensions_fold.
  split; [|by right]. intros [H|H]; [by apply not_elem_of_empty in H|done].
Qed.

(** X8.  The languages of a record are those that the extension table gives
    for the lower-cased suffix of some file, and the extensions are the
    non-empty lower-cased suffixes of the files. *)
Theorem languages_and_extensions_spec url files :
  (∀ lang, lang ∈ languages (classify url (scan_files files))
           ↔ ∃ f, f ∈ files ∧ EXT_LANG_MAP !! extension f = Some lang)
  ∧ (∀ ext, ext ∈ file_extensions (classify url (scan_files files))
            ↔ ∃ f, f ∈ files ∧ extension f = ext ∧ ext ≠ EmptyString).
Proof.
  unfold classify. cbn [languages file_extensions]. split.
  - intros lang. rewrite sorted_elem. apply languages_spec.
  - intros ext. apply file_extensions_spec.
Qed.

(** X9.  A record that [scan_repo] returns lists the lower-cased paths of
    the files in the order of the walk, with forward slashes for
    backslashes, and counts as many files as it lists paths; a clone that
    raises [CalledProcessError] lists none. *)
Theorem file_paths_spec url clone r :
  scan_repo url clone = Returns r →
  length (file_paths r) = files_scanned r
  ∧ file_paths r = match clone with
                   | Cloned files => path_l <$> files
                   | _ => []
                   end.
Proof.
  destruct clone as [files|msg|e]; intros [= <-]; [|done].
  unfold classify. cbn [file_paths files_scanned]. unfold scan_files.
  rewrite file_paths_fold, files_scanned_fold. cbn [Raw.empty Raw.file_paths Raw.files_scanned].
  split; [|done]. cbn [app]. by rewrite length_fmap.
Qed.

Lemma file_paths_spec_witness :
  scan_repo demo_url (Cloned kubernetes_repo)
    = Returns (classify demo_url (scan_files kubernetes_repo))
  ∧ file_paths (classify demo_url (scan_files kubernetes_repo))
    = ["docs/a.txt"; "docs/b.txt"].
Proof.
  split; [reflexivity|].
  exact (proj2 (file_paths_spec demo_url (Cloned kubernetes_repo) _ eq_refl)).
Defined.

(** ** [evidence] only grows by appending *)

Section AppendingEvidence.
Context (I : gmap string (list string) → Prop).
Context (I_append : ∀ k v d, I d → I (append_to k v d)).

Lemma evidence_appending_fold {A} (step : Raw.t → A → Raw.t) :
  (∀ st x, I (Raw.evidence st) → I (Raw.evidence (step st x))) →
  ∀ l st, I (Raw.evidence st) → I (Raw.evidence (foldl step st l)).
Proof.
  intros Hstep l. induction l as [|x l IH]; intros st Hst; [done|].
  cbn [foldl]. by apply IH, Hstep.
Qed.

Lemma evidence_appending_keyword rel c pl st item :
  I (Raw.evidence st) → I (Raw.evidence (note_keyword rel c pl st item)).
Proof.
  intros Hst. destruct item as [key [label cat]]. unfold note_keyword.
  destruct (keyword_present key c || keyword_present key pl); [|done].
  cbn [note_evidence note_package Raw.evidence]. by apply I_append.
Qed.

Lemma evidence_appending_scan_file st f :
  I (Raw.evidence st) → I (Raw.evidence (scan_file st f)).
Proof.
  intros Hst. unfold scan_file. cbv zeta.
  apply evidence_appending_fold; [intros; by apply evidence_appending_keyword|].
  apply evidence_appending_fold; [intros; by apply evidence_appending_keyword|].
  rewrite (when_keeps Raw.evidence);
    [|intros s; by apply (kept_fold Raw.evidence)].
  rewrite (when_keeps Raw.evidence);
    [|intros s; by apply (kept_fold Raw.evidence)].
  rewrite (when_keeps Raw.evidence);
    [|intros s; by apply (kept_fold Raw.evidence)].
  rewrite (when_keeps Raw.evidence);
    [|intros s; by apply (kept_fold Raw.evidence)].
  unfold when at 1.
  destruct (bool_decide (Str.lower (filename f) ∈ MANIFEST_FILES)); [|exact Hst].
  cbn [note_evidence Raw.evidence]. apply I_append.
  rewrite (kept_fold Raw.evidence); [exact Hst|reflexivity].
Qed.

Lemma evidence_appending_scan_files files :
  I ∅ → I (Raw.evidence (scan_files files)).
Proof.
  intros H0. unfold scan_files.
  apply (evidence_appending_fold scan_file);
    [intros; by apply evidence_appending_scan_file|].
  exact H0.
Qed.

End AppendingEvidence.

Lemma nonempty_append_to k v d :
  map_Forall (fun _ l => l ≠ @nil string) d →
  map_Forall (fun _ l => l ≠ @nil string) (append_to k v d).
Proof.
  intros Hd. unfold append_to. apply map_Forall_insert_2; [|done].
  by destruct (default [] (d !! k)).
Qed.

Lemma evidence_nonempty files k l :
  Raw.evidence (scan_files files) !! k = Some l → l ≠ [].
Proof.
  revert k l. change (map_Forall (fun _ l => l ≠ @nil string)
                        (Raw.evidence (scan_files files))).
  apply (evidence_appending_scan_files (map_Forall (fun _ l => l ≠ @nil string))).
  - apply nonempty_append_to.
  - apply map_Forall_empty.
Qed.

Lemma dom_evidence files label :
  label ∈ dom (Raw.evidence (scan_files files))
  ↔ ∃ f, f ∈ files ∧ evidence_in f label.
Proof.
  rewrite elem_of_dom. split.
  - intros [l Hl]. pose proof (evidence_nonempty files label l Hl) as Hne.
    destruct l as [|p l]; [done|].
    assert (Hp : p ∈ held (Raw.evidence (scan_files files)) label).
    { unfold held. rewrite Hl. apply elem_of_list_to_set. apply list_elem_of_here. }
    apply held_evidence in Hp as (f & Hf & _ & He). by exists f.
  - intros (f & Hf & He).
    assert (Hp : rel f ∈ held (Raw.evidence (scan_files files)) label).
    { apply held_evidence. by exists f. }
    unfold held in Hp.
    destruct (Raw.evidence (scan_files files) !! label) as [l|]; [by eexists|].
    by apply not_elem_of_empty in Hp.
Qed.

(** ** Scans of the same files *)

Lemma sorted_sets_eq (d d' : gmap string (list string)) :
  dom d = dom d' → (∀ k, held d k = held d' k) →
  sorted_set <$> d = sorted_set <$> d'.
Proof.
  intros Hdom Hheld. apply map_eq. intros k. rewrite !lookup_fmap.
  specialize (Hheld k). unfold held in Hheld.
  destruct (d !! k) as [l|] eqn:Hl, (d' !! k) as [l'|] eqn:Hl'; cbn in *.
  - unfold sorted_set. by rewrite Hheld.
  - apply (elem_of_dom_2 d) in Hl. rewrite Hdom in Hl.
    apply elem_of_dom in Hl as [? ?]. congruence.
  - apply (elem_of_dom_2 d') in Hl'. rewrite <- Hdom in Hl'.
    apply elem_of_dom in Hl' as [? ?]. congruence.
  - done.
Qed.

Lemma split_tiers_ext st st' mappings :
  (∀ token, seen st token = seen st' token) →
  split_tiers st mappings = split_tiers st' mappings.
Proof.
  intros Hseen. unfold split_tiers. generalize (Tiers ∅ ∅).
  induction (map_to_list mappings) as [|[token [label cat]] l IH]; intros t; [done|].
  cbn [foldl]. rewrite IH. unfold note_tier. by rewrite Hseen.
Qed.

Section SameFiles.
Context (files files' : list file).
Context (same : ∀ f, f ∈ files ↔ f ∈ files').

Lemma same_exists (P : file → Prop) :
  (∃ f, f ∈ files ∧ P f) ↔ (∃ f, f ∈ files' ∧ P f).
Proof. split; intros (f & Hf & HP); exists f; (split; [by apply same|done]). Qed.

Lemma same_imports_found :
  Raw.imports_found (scan_files files) = Raw.imports_found (scan_files files').
Proof.
  apply set_eq. intros pkg. rewrite !imports_found_spec. apply same_exists.
Qed.

Lemma same_manifest_tokens :
  Raw.manifest_tokens (scan_files files) = Raw.manifest_tokens (scan_files files').
Proof.
  apply set_eq. intros tk. rewrite !manifest_tokens_spec.
  apply (same_exists (fun f => is_manifest f ∧ tk ∈ manifest_tokens_of f)).
Qed.

Lemma same_provenance k :
  provenance (scan_files files) k = provenance (scan_files files') k.
Proof.
  apply set_eq. intros p. unfold provenance.
  rewrite (held_packages_found files k p), (held_packages_found files' k p).
  apply (same_exists (fun f => rel f = p ∧ found_in f k)).
Qed.

Lemma same_dom_packages :
  dom (Raw.packages_found (scan_files files))
  = dom (Raw.packages_found (scan_files files')).
Proof.
  apply set_eq. intros k. rewrite !dom_packages_found. apply same_exists.
Qed.

Lemma same_held_evidence label :
  held (Raw.evidence (scan_files files)) label
  = held (Raw.evidence (scan_files files')) label.
Proof.
  apply set_eq. intros p. rewrite !held_evidence.
  apply (same_exists (fun f => rel f = p ∧ evidence_in f label)).
Qed.

Lemma same_dom_evidence :
  dom (Raw.evidence (scan_files files)) = dom (Raw.evidence (scan_files files')).
Proof.
  apply set_eq. intros k. rewrite !dom_evidence. apply same_exists.
Qed.

Lemma same_languages url :
  languages (classify url (scan_files files))
  = languages (classify url (scan_files files')).
Proof.
  unfold classify. cbn [languages]. f_equal.
  apply set_eq. intros lang. rewrite !languages_spec. apply same_exists.
Qed.

Lemma same_file_extensions :
  Raw.file_extensions (scan_files files) = Raw.file_extensions (scan_files files').
Proof.
  apply set_eq. intros ext. rewrite !file_extensions_spec.
  apply (same_exists (fun f => extension f = ext ∧ ext ≠ EmptyString)).
Qed.

Lemma same_all_tokens :
  all_tokens (scan_files files) = all_tokens (scan_files files').
Proof.
  unfold all_tokens.
  by rewrite same_dom_packages, same_imports_found, same_manifest_tokens.
Qed.

Lemma same_seen token :
  seen (scan_files files) token = seen (scan_files files') token.
Proof.
  unfold seen.
  by rewrite same_imports_found, same_manifest_tokens, same_provenance.
Qed.

End SameFiles.

Lemma same_files_of_permutation (files files' : list file) :
  files ≡ₚ files' → ∀ f, f ∈ files ↔ f ∈ files'.
Proof. intros Hp f. by rewrite Hp. Qed.

(** X10.  The order in which the walk meets the files shows in the record
    only in the order of [file_paths]: the scans of two arrangements of
    the same files agree on every other entry (dictionaries compared as
    Python compares them, by their keys and values). *)
Theorem walk_order_only_in_file_paths url files files' :
  files ≡ₚ files' →
  let r := classify url (scan_files files) in
  let r' := classify url (scan_files files') in
  languages r = languages r'
  ∧ packages_found r = packages_found r'
  ∧ imports_found r = imports_found r'
  ∧ manifest_tokens r = manifest_tokens r'
  ∧ file_extensions r = file_extensions r'
  ∧ candidate_skills_by_category r = candidate_skills_by_category r'
  ∧ accepted_skills_by_category r = accepted_skills_by_category r'
  ∧ possible_skills_by_category r = possible_skills_by_category r'
  ∧ evidence r = evidence r'
  ∧ files_scanned r = files_scanned r'
  ∧ file_paths r ≡ₚ file_paths r'.
Proof.
  intros Hperm r r'. subst r r'.
  pose proof (same_files_of_permutation files files' Hperm) as same.
  unfold classify.
  cbn [languages packages_found imports_found manifest_tokens file_extensions
       candidate_skills_by_category accepted_skills_by_category
       possible_skills_by_category evidence files_scanned file_paths].
  rewrite <- (same_all_tokens files files' same).
  rewrite <- (split_tiers_ext (scan_files files) (scan_files files') _
                (same_seen files files' same)).
  conjuncts; try reflexivity.
  - f_equal. apply set_eq. intros lang. rewrite !languages_spec.
    by apply same_exists.
  - apply sorted_sets_eq; [by apply same_dom_packages|].
    intros k. by apply same_provenance.
  - f_equal. by apply same_imports_found.
  - f_equal. by apply same_manifest_tokens.
  - by apply same_file_extensions.
  - apply sorted_sets_eq; [by apply same_dom_evidence|].
    intros k. by apply same_held_evidence.
  - unfold scan_files. rewrite !files_scanned_fold. by rewrite Hperm.
  - unfold scan_files. rewrite !file_paths_fold. by rewrite Hperm.
Qed.

Lemma walk_order_only_in_file_paths_witness :
  kubernetes_repo ≡ₚ reverse kubernetes_repo
  ∧ accepted_skills_by_category (classify demo_url (scan_files kubernetes_repo))
    = accepted_skills_by_category
        (classify demo_url (scan_files (reverse kubernetes_repo))).
Proof.
  split; [apply perm_swap|].
  apply (walk_order_only_in_file_paths demo_url kubernetes_repo
           (reverse kubernetes_repo) (perm_swap _ _ _)).
Defined.

Section MoreFiles.
Context (files files' : list file).
Context (more : ∀ f, f ∈ files → f ∈ files').

Lemma more_all_tokens token :
  token ∈ all_tokens (scan_files files) → token ∈ all_tokens (scan_files files').
Proof.
  unfold all_tokens, lowered. rewrite !elem_of_union, !elem_of_map.
  intros [[(k & -> & Hk)|(k & -> & Hk)]|(k & -> & Hk)].
  - left. left. exists k. split; [done|].
    apply dom_packages_found in Hk as (f & Hf & Hfound).
    apply dom_packages_found. exists f. auto.
  - left. right. exists k. split; [done|].
    apply imports_found_spec in Hk as (f & Hf & Hin).
    apply imports_found_spec. exists f. auto.
  - right. exists k. split; [done|].
    apply manifest_tokens_spec in Hk as (f & Hf & Hin).
    apply manifest_tokens_spec. exists f. auto.
Qed.

Lemma more_mapped_skill token s :
  mapped_skill (scan_files files) token = Some s →
  mapped_skill (scan_files files') token = Some s.
Proof.
  rewrite !mapped_skill_spec. case_decide as Hin; [|done].
  intros Hhead. apply more_all_tokens in Hin. by case_decide.
Qed.

Lemma more_seen token :
  seen (scan_files files) token = true → seen (scan_files files') token = true.
Proof.
  rewrite !seen_spec. unfold lowered. rewrite !elem_of_map.
  intros [(k & -> & Hk)|[(k & -> & Hk)|Hsize]].
  - left. exists k. split; [done|].
    apply imports_found_spec in Hk as (f & Hf & Hin).
    apply imports_found_spec. exists f. auto.
  - right. left. exists k. split; [done|].
    apply manifest_tokens_spec in Hk as (f & Hf & Hin).
    apply manifest_tokens_spec. exists f. auto.
  - right. right. etrans; [exact Hsize|]. apply subseteq_size.
    intros p. unfold provenance.
    rewrite (held_packages_found files token p), (held_packages_found files' token p).
    intros (f & Hf & Hrest). exists f. auto.
Qed.

End MoreFiles.

(** X11.  Files added to a working copy take no skill away: a candidate
    stays a candidate, an accepted skill stays accepted, and a possible
    skill stays possible or becomes accepted. *)
Theorem more_files_keep_skills url url' files files' category label :
  (∀ f, f ∈ files → f ∈ files') →
  let r := classify url (scan_files files) in
  let r' := classify url' (scan_files files') in
  (In_tier (candidate_skills_by_category r) category label →
   In_tier (candidate_skills_by_category r') category label)
  ∧ (In_tier (accepted_skills_by_category r) category label →
     In_tier (accepted_skills_by_category r') category label)
  ∧ (In_tier (possible_skills_by_category r) category label →
     In_tier (accepted_skills_by_category r') category label
     ∨ In_tier (possible_skills_by_category r') category label).
Proof.
  intros more r r'. subst r r'. conjuncts.
  - rewrite !candidate_spec. intros (token & Hin & Hmap). exists token.
    split; [|done]. by apply (more_all_tokens files files' more).
  - rewrite !accepted_spec. intros (token & Hmap & Hseen). exists token. split.
    + by apply (more_mapped_skill files files' more).
    + by apply (more_seen files files' more).
  - rewrite possible_spec. intros (token & Hmap & _).
    apply (more_mapped_skill files files' more) in Hmap.
    destruct (seen (scan_files files') token) eqn:Hseen.
    + left. apply accepted_spec. by exists token.
    + right. apply possible_spec. by exists token.
Qed.

Lemma more_files_keep_skills_witness :
  (∀ f, f ∈ [requirements] → f ∈ requirements :: kubernetes_repo)
  ∧ In_tier (accepted_skills_by_category
               (classify demo_url (scan_files (requirements :: kubernetes_repo))))
      "Web & APIs" "Flask".
Proof.
  assert (more : ∀ f, f ∈ [requirements] → f ∈ requirements :: kubernetes_repo).
  { intros f Hf. apply list_elem_of_singleton in Hf as ->. apply list_elem_of_here. }
  split; [exact more|].
  apply (proj1 (proj2 (more_files_keep_skills demo_url demo_url [requirements]
                         (requirements :: kubernetes_repo)
                         "Web & APIs" "Flask" more))).
  exists ["Flask"]. split; [by vm_compute|apply list_elem_of_here].
Defined.

(** ** The loop of the run *)

Lemma announced_cons url urls :
  announced (url :: urls)
  = Print ("Scanning: " +:+ url) :: GitClone url :: announced urls.
Proof. reflexivity. Qed.

Lemma scan_repo_raises url c e :
  scan_repo url c = Raises e ↔ c = CloneRaises e.
Proof. destruct c; cbn; split; congruence. Qed.

(** The loop either scans every address, or stops at the first clone that
    raises another exception than [CalledProcessError]. *)
Lemma scan_all_spec clone i0 urls :
  (∃ rs, scan_all clone i0 urls = (announced urls, Returns rs)
         ∧ length rs = length urls
         ∧ ∀ j u e', urls !! j = Some u → clone (i0 + j)%nat u ≠ CloneRaises e')
  ∨ (∃ i url e, urls !! i = Some url
       ∧ clone (i0 + i)%nat url = CloneRaises e
       ∧ (∀ j u e', (j < i)%nat → urls !! j = Some u
                    → clone (i0 + j)%nat u ≠ CloneRaises e')
       ∧ scan_all clone i0 urls = (announced (take (S i) urls), Raises e)).
Proof.
  revert i0. induction urls as [|url urls IH]; intros i0.
  - left. exists []. split; [done|]. split; [done|].
    intros j u e' Hu. by rewrite lookup_nil in Hu.
  - cbn [scan_all]. destruct (scan_repo url (clone i0 url)) as [r|e] eqn:Hr.
    + assert (Hhere : ∀ e', clone i0 url ≠ CloneRaises e').
      { intros e' Hc. rewrite Hc in Hr. cbn in Hr. congruence. }
      destruct (IH (S i0))
        as [(rs & -> & Hlen & Hall)|(i & u & e & Hu & He & Hbefore & ->)].
      * left. exists (r :: rs). split; [done|].
        split; [cbn [length]; by rewrite Hlen|].
        intros [|j] u e' Hu.
        -- injection Hu as <-. rewrite Nat.add_0_r. apply Hhere.
        -- replace (i0 + S j)%nat with (S i0 + j)%nat by lia. by apply Hall.
      * right. exists (S i), u, e. split; [done|].
        replace (i0 + S i)%nat with (S i0 + i)%nat by lia. split; [done|].
        split; [|done]. intros [|j] u' e' Hj Hu'.
        -- injection Hu' as <-. rewrite Nat.add_0_r. apply Hhere.
        -- replace (i0 + S j)%nat with (S i0 + j)%nat by lia.
           apply Hbefore; [lia|done].
    + right. exists 0%nat, url, e. split; [done|].
      rewrite Nat.add_0_r. split; [by apply (scan_repo_raises url)|].
      split; [intros j ? ? Hj; lia|]. cbn [take]. by rewrite announced_cons.
Qed.

Lemma not_written_announced out urls : WriteResults out ∉ announced urls.
Proof.
  induction urls as [|url urls IH]; [by intros H%elem_of_nil|].
  rewrite announced_cons. intros H.
  apply elem_of_cons in H as [H|H]; [done|].
  apply elem_of_cons in H as [H|H]; [done|]. by apply IH.
Qed.

Lemma elem_of_framed (x : event) trace :
  x ∈ Mkdtemp :: trace ++ [Rmtree] → x = Mkdtemp ∨ x = Rmtree ∨ x ∈ trace.
Proof.
  intros H. apply elem_of_cons in H as [H|H]; [by left|].
  apply elem_of_app in H as [H|H]; [by right; right|].
  apply list_elem_of_singleton in H. by right; left.
Qed.

(** X12.  The run writes the output file exactly when it finishes, and then
    once, after the clone of every address of the input and just before the
    last message and the removal of the workspace; the document written
    holds one record per address.  A run that ends otherwise writes
    nothing, whatever it scanned. *)
Theorem output_written_iff_finished (w : world) :
  ((main w).2 = Finished ↔ ∃ out, WriteResults out ∈ (main w).1)
  ∧ ∀ out, WriteResults out ∈ (main w).1 →
      ∃ content,
        input_file w = Returns content
        ∧ (main w).1
          = Mkdtemp :: announced (read_repos content)
              ++ [WriteResults out; Print (String "010" "Scan complete."); Rmtree]
        ∧ length (repos out) = length (read_repos content).
Proof.
  unfold main. destruct (length (argv w) <? 3)%nat.
  { cbn [fst snd]. split.
    - split; [done|]. intros (out & H).
      apply list_elem_of_singleton in H. done.
    - intros out H. apply list_elem_of_singleton in H. done. }
  destruct (input_file w) as [content|e].
  2:{ cbn [fst snd]. split.
      - split; [done|]. by intros (out & H%elem_of_nil).
      - by intros out H%elem_of_nil. }
  destruct (mkdtemp w) as [u|e].
  2:{ cbn [fst snd]. split.
      - split; [done|]. by intros (out & H%elem_of_nil).
      - by intros out H%elem_of_nil. }
  unfold scan_and_write.
  destruct (scan_all_spec (clone w) 0 (read_repos content))
    as [(rs & -> & Hlen & _)|(i & url & e & _ & _ & _ & ->)].
  - destruct (output_file w) as [u'|e]; cbn [fst snd].
    + split.
      * split; [|done]. intros _. eexists. apply list_elem_of_further.
        apply elem_of_app. left. apply elem_of_app. right. apply list_elem_of_here.
      * intros out H. exists content. split; [done|].
        apply elem_of_framed in H as [H|[H|H]]; [done..|].
        apply elem_of_app in H as [H|H]; [by apply not_written_announced in H|].
        apply elem_of_cons in H as [H|H].
        2:{ apply list_elem_of_singleton in H. done. }
        injection H as ->. cbn [repos].
        split; [|done]. by rewrite <- app_assoc.
    + split.
      * split; [done|]. intros (out & H).
        apply elem_of_framed in H as [H|[H|H]]; [done..|].
        by apply not_written_announced in H.
      * intros out H. apply elem_of_framed in H as [H|[H|H]]; [done..|].
        by apply not_written_announced in H.
  - cbn [fst snd]. split.
    + split; [done|]. intros (out & H).
      apply elem_of_framed in H as [H|[H|H]]; [done..|].
      by apply not_written_announced in H.
    + intros out H. apply elem_of_framed in H as [H|[H|H]]; [done..|].
      by apply not_written_announced in H.
Qed.

(** X13.  A clone that raises another exception than [CalledProcessError]
    ends the run there: the addresses up to it have been announced and
    cloned, no later one is, nothing is written, the workspace is removed,
    and the exception leaves [main]. *)
Theorem run_stops_at_first_exception (w : world) content i url e :
  (3 ≤ length (argv w))%nat →
  input_file w = Returns content →
  mkdtemp w = Returns tt →
  read_repos content !! i = Some url →
  clone w i url = CloneRaises e →
  clones_before w (read_repos content) i →
  main w = (Mkdtemp :: announced (take (S i) (read_repos content)) ++ [Rmtree],
            Crashed e).
Proof.
  intros Hargs Hin Hmk Hurl Hraise Hbefore.
  unfold main, scan_and_write.
  assert ((length (argv w) <? 3)%nat = false) as -> by (apply Nat.ltb_ge; lia).
  rewrite Hin, Hmk.
  destruct (scan_all_spec (clone w) 0 (read_repos content))
    as [(rs & _ & _ & Hall)|(i' & url' & e' & Hurl' & Hraise' & Hbefore' & ->)].
  - exfalso. by apply (Hall i url e Hurl).
  - cbn [Nat.add] in *.
    destruct (Nat.lt_trichotomy i i') as [Hlt|[->|Hgt]].
    + exfalso. by apply (Hbefore' i url e Hlt Hurl).
    + rewrite Hurl in Hurl'. injection Hurl' as <-.
      rewrite Hraise in Hraise'. by injection Hraise' as <-.
    + exfalso. by apply (Hbefore i' url' e' Hgt Hurl').
Qed.

(** Three addresses, with no git for the second: the third is never
    cloned. *)
Lemma run_stops_at_first_exception_witness :
  main no_git_world
  = ([ Mkdtemp;
       Print "Scanning: https://example.org/team/one.git";
       GitClone "https://example.org/team/one.git";
       Print "Scanning: https://example.org/team/two.git";
       GitClone "https://example.org/team/two.git";
       Rmtree ],
     Crashed "FileNotFoundError: git").
Proof.
  apply (run_stops_at_first_exception no_git_world
           (match input_file no_git_world with Returns c => c | Raises _ => EmptyString end)
           1 "https://example.org/team/two.git" "FileNotFoundError: git").
  - vm_compute. lia.
  - reflexivity.
  - reflexivity.
  - by vm_compute.
  - reflexivity.
  - intros [|j] url e Hj Hurl; [|lia]. by vm_compute.
Defined.

(** ** The categories of the aggregate *)

Lemma dom_update_to k xs d c :
  c ∈ dom (update_to k xs d) ↔ c = k ∨ c ∈ dom d.
Proof. unfold update_to. rewrite dom_insert, elem_of_union, elem_of_singleton. tauto. Qed.

Lemma dom_aggregate_record agg r c :
  c ∈ dom (aggregate_record agg r)
  ↔ c ∈ dom agg ∨ c ∈ dom (accepted_skills_by_category r).
Proof.
  unfold aggregate_record.
  assert (Hitems : c ∈ dom (accepted_skills_by_category r)
                   ↔ ∃ skills, (c, skills) ∈ map_to_list (accepted_skills_by_category r)).
  { rewrite elem_of_dom. unfold is_Some. by setoid_rewrite elem_of_map_to_list. }
  rewrite Hitems. clear Hitems.
  generalize (map_to_list (accepted_skills_by_category r)) as items.
  intros items. revert agg.
  induction items as [|[cat skills] items IH]; intros agg; cbn [foldl fst snd].
  - split; [by left|]. intros [?|(? & Hin)]; [done|]. by apply elem_of_nil in Hin.
  - rewrite IH, dom_update_to. split.
    + intros [[->|H]|(sk & H)].
      * right. exists skills. apply list_elem_of_here.
      * by left.
      * right. exists sk. by apply list_elem_of_further.
    + intros [H|(sk & H)]; [by left; right|].
      apply elem_of_cons in H as [[= -> ->]|H]; [by left; left|].
      right. by exists sk.
Qed.

Lemma dom_aggregate_fold agg rs c :
  c ∈ dom (foldl aggregate_record agg rs)
  ↔ c ∈ dom agg ∨ ∃ r, r ∈ rs ∧ c ∈ dom (accepted_skills_by_category r).
Proof.
  revert agg. induction rs as [|r rs IH]; intros agg; cbn [foldl].
  - split; [by left|]. intros [?|(? & Hin & _)]; [done|]. by apply elem_of_nil in Hin.
  - rewrite IH, dom_aggregate_record. split.
    + intros [[H|H]|(r' & Hr' & H)].
      * by left.
      * right. exists r. split; [apply list_elem_of_here|done].
      * right. exists r'. split; [by apply list_elem_of_further|done].
    + intros [H|(r' & Hr' & H)]; [by left; left|].
      apply elem_of_cons in Hr' as [->|Hr']; [by left; right|].
      right. by exists r'.
Qed.

(** Two dictionaries of sets with the same keys and the same members. *)
Lemma sets_eq (d d' : gmap string (gset string)) :
  (∀ c, c ∈ dom d ↔ c ∈ dom d') →
  (∀ c l, in_sets d c l ↔ in_sets d' c l) →
  d = d'.
Proof.
  intros Hdom Hin. apply map_eq. intros c.
  specialize (Hdom c). rewrite !elem_of_dom in Hdom.
  destruct (d !! c) as [s|] eqn:Hs, (d' !! c) as [s'|] eqn:Hs'.
  - f_equal. apply set_eq. intros l. specialize (Hin c l). unfold in_sets in Hin.
    rewrite Hs, Hs' in Hin. split.
    + intros Hl. destruct (proj1 Hin) as (x & [= <-] & Hx); [by exists s|done].
    + intros Hl. destruct (proj2 Hin) as (x & [= <-] & Hx); [by exists s'|done].
  - destruct (proj1 Hdom) as [? ?]; [by eexists|done].
  - destruct (proj2 Hdom) as [? ?]; [by eexists|done].
  - done.
Qed.

Lemma accepting_of_dom r c :
  c ∈ dom (accepted_skills_by_category r) → accepted_skills_by_category r ≠ ∅.
Proof. intros Hc He. rewrite He, dom_empty in Hc. by apply not_elem_of_empty in Hc. Qed.

Lemma accepting_of_tier r c l :
  In_tier (accepted_skills_by_category r) c l → accepted_skills_by_category r ≠ ∅.
Proof. intros (labels & Hl & _) He. by rewrite He, lookup_empty in Hl. Qed.

(** X14.  The aggregate depends on the records only through those with a
    non-empty accepted tier: neither the order of the records, nor a record
    met twice, nor a record of a failed clone changes its categories and
    their labels. *)
Theorem aggregate_of_accepting_records rs rs' :
  (∀ r, accepted_skills_by_category r ≠ ∅ → (r ∈ rs ↔ r ∈ rs')) →
  aggregate_results rs = aggregate_results rs'.
Proof.
  intros Hsame. unfold aggregate_results. f_equal. apply sets_eq.
  - intros c. rewrite !dom_aggregate_fold.
    split; (intros [H|(r & Hr & Hc)]; [by left|]); right; exists r;
      (split; [|done]); by apply (Hsame r (accepting_of_dom r c Hc)).
  - intros c l. rewrite !aggregate_fold_spec.
    split; (intros [H|(r & Hr & Hc)]; [by left|]); right; exists r;
      (split; [|done]); by apply (Hsame r (accepting_of_tier r c l Hc)).
Qed.

Lemma aggregate_of_accepting_records_witness :
  let r := classify demo_url (scan_files [requirements]) in
  aggregate_results [failed demo_url "exit status 128"; r; r] = aggregate_results [r].
Proof.
  intros r. apply aggregate_of_accepting_records. intros x Hx. split.
  - intros H. apply elem_of_cons in H as [->|H]; [done|].
    apply elem_of_cons in H as [->|H]; [apply list_elem_of_here|].
    apply elem_of_cons in H as [->|H]; [apply list_elem_of_here|].
    by apply elem_of_nil in H.
  - intros H. apply list_elem_of_singleton in H as ->.
    apply list_elem_of_further, list_elem_of_here.
Defined.

(** ** The report on the records of the scanner *)

Lemma accepted_of_report_entry_iff r category label :
  In_tier (Report.accepted_of (report_entry r)) category label
  ↔ In_tier (accepted_skills_by_category r) category label.
Proof.
  split; [apply accepted_of_report_entry|].
  unfold Report.accepted_of, Report.get_or, report_entry.
  cbn [Report.accepted_skills_by_category Report.accepted default].
  case_bool_decide as Hempty; [|done].
  intros (labels & Hl & _). change (accepted_skills_by_category r = ∅) in Hempty.
  by rewrite Hempty, lookup_empty in Hl.
Qed.

Lemma agg_languages_fold (rs : list Report.repo) (s : gset string) label :
  label ∈ foldl (fun agg r => agg ∪ list_to_set (default [] (Report.languages r))) s rs
  ↔ label ∈ s ∨ ∃ r, r ∈ rs ∧ label ∈ default [] (Report.languages r).
Proof.
  revert s. induction rs as [|r rs IH]; intros s; cbn [foldl].
  - split; [by left|]. intros [?|(? & H & _)]; [done|]. by apply elem_of_nil in H.
  - rewrite IH, elem_of_union, elem_of_list_to_set. split.
    + intros [[H|H]|(r' & Hr' & H)].
      * by left.
      * right. exists r. split; [apply list_elem_of_here|done].
      * right. exists r'. split; [by apply list_elem_of_further|done].
    + intros [H|(r' & Hr' & H)]; [by left; left|].
      apply elem_of_cons in Hr' as [->|Hr']; [by left; right|].
      right. by exists r'.
Qed.

Section ReportOfRecords.
Context (rs : list scan_record) (label : string).

Lemma collected_of_records (categories : gset string)
    (collected : Report.repo → gset string) :
  (∀ r, collected r
        = Report.collect_skills_by_categories (Report.accepted_of r) categories) →
  (∃ e, e ∈ report_entry <$> rs ∧ label ∈ collected e)
  ↔ ∃ cat, cat ∈ categories ∧ In_tier (aggregate_results rs) cat label.
Proof.
  intros Hcollected. split.
  - intros (e & He & Hl). apply list_elem_of_fmap in He as (r & -> & Hr).
    rewrite Hcollected in Hl. apply collect_skills_spec in Hl as (cat & Hcat & Hl).
    exists cat. split; [done|]. apply aggregate_results_spec. exists r.
    split; [done|]. by apply accepted_of_report_entry_iff.
  - intros (cat & Hcat & Hl). apply aggregate_results_spec in Hl as (r & Hr & Hl).
    exists (report_entry r). split; [apply list_elem_of_fmap; by exists r|].
    rewrite Hcollected. apply collect_skills_spec. exists cat.
    split; [done|]. by apply accepted_of_report_entry_iff.
Qed.

End ReportOfRecords.

(** X15.  On the records that the scanner wrote, the aggregated summary of
    the report shows what the scanner's own aggregate holds: the confirmed
    frameworks are the labels of the aggregate under the framework
    categories, the confirmed tools those under the tool categories, and
    the languages those of the records. *)
Theorem report_agrees_with_aggregate rs label :
  (label ∈ Report.agg_frameworks (report_entry <$> rs)
   ↔ ∃ cat, cat ∈ Report.FRAMEWORK_CATEGORIES
            ∧ In_tier (aggregate_results rs) cat label)
  ∧ (label ∈ Report.agg_devtools (report_entry <$> rs)
     ↔ ∃ cat, cat ∈ Report.DEVTOOL_CATEGORIES
              ∧ In_tier (aggregate_results rs) cat label)
  ∧ (label ∈ Report.agg_languages (report_entry <$> rs)
     ↔ ∃ r, r ∈ rs ∧ label ∈ languages r).
Proof.
  conjuncts.
  - rewrite agg_frameworks_spec. by apply collected_of_records.
  - rewrite agg_devtools_spec. by apply collected_of_records.
  - unfold Report.agg_languages. rewrite agg_languages_fold. split.
    + intros [H|(e & He & Hl)]; [by apply not_elem_of_empty in H|].
      apply list_elem_of_fmap in He as (r & -> & Hr). by exists r.
    + intros (r & Hr & Hl). right. exists (report_entry r).
      split; [apply list_elem_of_fmap; by exists r|done].
Qed.

Lemma category_sets_disjoint c :
  c ∈ Report.FRAMEWORK_CATEGORIES → c ∉ Report.DEVTOOL_CATEGORIES.
Proof.
  assert (H : Report.FRAMEWORK_CATEGORIES ∩ Report.DEVTOOL_CATEGORIES = ∅)
    by evaluate.
  intros Hf Hd. assert (Hc : c ∈ Report.FRAMEWORK_CATEGORIES ∩ Report.DEVTOOL_CATEGORIES)
    by (apply elem_of_intersection; split; assumption).
  rewrite H in Hc. by apply not_elem_of_empty in Hc.
Qed.

(** X16.  On records of the scanner no label is confirmed both as a framework
    and as a development tool, for one repository or in the summary: a
    label has one category in the tables and the two category sets share
    none. *)
Theorem confirmed_sections_disjoint rs label :
  Forall scanned rs →
  label ∈ Report.agg_frameworks (report_entry <$> rs) →
  label ∉ Report.agg_devtools (report_entry <$> rs).
Proof.
  intros Hrs Hf Hd. rewrite Forall_forall in Hrs.
  apply agg_frameworks_spec in Hf as (e1 & He1 & Hf).
  apply agg_devtools_spec in Hd as (e2 & He2 & Hd).
  apply list_elem_of_fmap in He1 as (r1 & -> & Hr1).
  apply list_elem_of_fmap in He2 as (r2 & -> & Hr2).
  apply collect_skills_spec in Hf as (c1 & Hc1 & Hl1).
  apply collect_skills_spec in Hd as (c2 & Hc2 & Hl2).
  apply accepted_of_report_entry in Hl1, Hl2.
  apply (accepted_in_tables r1) in Hl1; [|by apply Hrs].
  apply (accepted_in_tables r2) in Hl2; [|by apply Hrs].
  pose proof (table_label_category label c1 c2 Hl1 Hl2) as ->.
  by apply (category_sets_disjoint c2).
Qed.

Lemma confirmed_sections_disjoint_witness :
  let rs := [classify demo_url (scan_files [requirements])] in
  "Flask" ∈ Report.agg_frameworks (report_entry <$> rs)
  ∧ "Flask" ∉ Report.agg_devtools (report_entry <$> rs).
Proof.
  intros rs. assert (Hf : "Flask" ∈ Report.agg_frameworks (report_entry <$> rs))
    by evaluate.
  split; [exact Hf|].
  apply (confirmed_sections_disjoint rs "Flask"); [|exact Hf].
  apply Forall_cons_2; [|apply Forall_nil_2].
  by exists demo_url, (Cloned [requirements]).
Defined.

(** ** Values handed to [json.dump] *)

Lemma pyval_induction (P : pyval → Prop) :
  P PNone → (∀ b, P (PBool b)) → (∀ n, P (PInt n)) → (∀ s, P (PStr s)) →
  (∀ items, Forall P items → P (PList items)) →
  (∀ items, Forall (fun kv => P kv.2) items → P (PDict items)) →
  (∀ s, P (PSet s)) →
  ∀ obj, P obj.
Proof.
  intros HNone HBool HInt HStr HList HDict HSet.
  fix IH 1. intros [ |b|n|s|items|items|s].
  - exact HNone.
  - apply HBool.
  - apply HInt.
  - apply HStr.
  - apply HList. induction items as [|x items IHitems]; constructor.
    + apply IH.
    + exact IHitems.
  - apply HDict. induction items as [|[k v] items IHitems]; constructor.
    + apply IH.
    + exact IHitems.
  - apply HSet.
Qed.

Lemma serializable_strings (l : list string) :
  forallb serializable (PStr <$> l) = true.
Proof. by induction l. Qed.

Lemma make_json_safe_serializable obj : serializable (make_json_safe obj) = true.
Proof.
  induction obj as [ | | | |items IH|items IH|s] using pyval_induction;
    cbn [make_json_safe serializable]; try done.
  - induction IH as [|x items Hx _ IHitems]; [done|].
    cbn [List.map forallb]. by rewrite Hx, IHitems.
  - induction IH as [|[k v] items Hx _ IHitems]; [done|].
    cbn [List.map forallb]. cbn [snd] in Hx. by rewrite Hx, IHitems.
  - apply serializable_strings.
Qed.

Lemma make_json_safe_fixed obj :
  serializable obj = true → make_json_safe obj = obj.
Proof.
  induction obj as [ | | | |items IH|items IH|s] using pyval_induction;
    cbn [make_json_safe serializable]; try done.
  - intros Hs. f_equal.
    induction IH as [|x items Hx _ IHitems]; [done|].
    cbn [List.map forallb] in *. apply andb_true_iff in Hs as [H1 H2].
    by rewrite Hx, IHitems.
  - intros Hs. f_equal.
    induction IH as [|[k v] items Hx _ IHitems]; [done|].
    cbn [List.map forallb snd] in *. apply andb_true_iff in Hs as [H1 H2].
    by rewrite Hx, IHitems.
Qed.

(** X17.  [make_json_safe] returns a value without sets, whatever the depth
    at which the sets were; it keeps the keys of a dictionary and their
    order, changes nothing in a value that has no set, and so changes
    nothing when applied twice. *)
Theorem make_json_safe_spec obj :
  serializable (make_json_safe obj) = true
  ∧ keys (make_json_safe obj) = keys obj
  ∧ (serializable obj = true → make_json_safe obj = obj)
  ∧ make_json_safe (make_json_safe obj) = make_json_safe obj.
Proof.
  conjuncts.
  - apply make_json_safe_serializable.
  - destruct obj as [ | | | |items|items|s]; try done.
    cbn [make_json_safe keys]. induction items as [|[k v] items IH]; [done|].
    cbn [List.map fmap list_fmap fst] in *. by f_equal.
  - apply make_json_safe_fixed.
  - apply make_json_safe_fixed, make_json_safe_serializable.
Qed.

(** ** Stripping *)

Lemma append_empty_r (a : string) : a +:+ EmptyString = a.
Proof. induction a as [|c a IH]; [done|]. by rewrite append_cons, IH. Qed.

Lemma rev_onto_spec s acc : Str.rev_onto s acc = Str.reverse s +:+ acc.
Proof.
  unfold Str.reverse. revert acc. induction s as [|c s IH]; intros acc.
  - by rewrite append_nil.
  - cbn [Str.rev_onto]. rewrite (IH (String c acc)), (IH (String c EmptyString)).
    by rewrite append_assoc, append_cons, append_nil.
Qed.

Lemma reverse_cons c s : Str.reverse (String c s) = Str.reverse s +:+ String c EmptyString.
Proof. unfold Str.reverse at 1. cbn [Str.rev_onto]. apply rev_onto_spec. Qed.

Lemma reverse_append a b : Str.reverse (a +:+ b) = Str.reverse b +:+ Str.reverse a.
Proof.
  induction a as [|c a IH].
  - by rewrite append_nil, append_empty_r.
  - by rewrite append_cons, !reverse_cons, IH, append_assoc.
Qed.

Lemma reverse_involutive s : Str.reverse (Str.reverse s) = s.
Proof.
  induction s as [|c s IH]; [done|].
  rewrite reverse_cons, reverse_append, IH. reflexivity.
Qed.

Lemma has_char_append c a b : has_char c (a +:+ b) = has_char c a || has_char c b.
Proof.
  induction a as [|d a IH]; [by rewrite append_nil|].
  rewrite append_cons. cbn [has_char]. by rewrite IH, orb_assoc.
Qed.

Lemma has_char_reverse c s : has_char c (Str.reverse s) = has_char c s.
Proof.
  induction s as [|d s IH]; [done|].
  rewrite reverse_cons, has_char_append, IH. cbn [has_char].
  rewrite orb_false_r. apply orb_comm.
Qed.

Lemma first_char_reverse s : Str.first_char (Str.reverse s) = Str.last_char s.
Proof.
  induction s as [|c s IH]; [reflexivity|]. rewrite reverse_cons.
  destruct s as [|d s]; [reflexivity|].
  change (Str.last_char (String c (String d s))) with (Str.last_char (String d s)).
  rewrite <- IH. rewrite (reverse_cons d s).
  destruct (Str.reverse s) as [|e t]; [by rewrite !append_nil, append_cons|].
  by rewrite !append_cons.
Qed.

Lemma last_char_reverse s : Str.last_char (Str.reverse s) = Str.first_char s.
Proof. by rewrite <- first_char_reverse, reverse_involutive. Qed.

(** What a left strip leaves is a tail of the string that does not start
    with a stripped character. *)
Lemma lstrip_space_spec s :
  ∃ spaces, s = spaces +:+ lstrip_space s
    ∧ of_class Chars.is_space (Str.first_char (lstrip_space s)) = false.
Proof.
  induction s as [|c s (spaces & Hs & Hfirst)]; [by exists EmptyString|].
  cbn [lstrip_space]. destruct (Chars.is_space c) eqn:Hc.
  - exists (String c spaces). by rewrite append_cons, <- Hs.
  - exists EmptyString. cbn. by rewrite Hc.
Qed.

Lemma last_char_tail pre s :
  s ≠ EmptyString → Str.last_char (pre +:+ s) = Str.last_char s.
Proof.
  intros Hs. induction pre as [|c pre IH]; [by rewrite append_nil|].
  rewrite append_cons. cbn [Str.last_char].
  destruct (pre +:+ s) eqn:E; [|done].
  destruct pre; [rewrite append_nil in E; congruence|by rewrite append_cons in E].
Qed.

Lemma strip_ends s :
  of_class Chars.is_space (Str.first_char (strip s)) = false
  ∧ of_class Chars.is_space (Str.last_char (strip s)) = false.
Proof.
  unfold strip.
  destruct (lstrip_space_spec s) as (sp1 & Hs1 & Hfirst1).
  destruct (lstrip_space_spec (Str.reverse (lstrip_space s))) as (sp2 & Hs2 & Hfirst2).
  split; [|by rewrite last_char_reverse].
  rewrite first_char_reverse.
  destruct (lstrip_space (Str.reverse (lstrip_space s))) as [|c t] eqn:E; [done|].
  rewrite <- (last_char_tail sp2) by done. rewrite <- Hs2, last_char_reverse.
  exact Hfirst1.
Qed.

Lemma has_char_lstrip_space c s :
  has_char c (lstrip_space s) = true → has_char c s = true.
Proof.
  destruct (lstrip_space_spec s) as (sp & Hs & _). intros H.
  rewrite Hs, has_char_append, H. apply orb_true_r.
Qed.

Lemma has_char_strip c s : has_char c (strip s) = true → has_char c s = true.
Proof.
  unfold strip. rewrite has_char_reverse. intros H.
  apply has_char_lstrip_space in H. rewrite has_char_reverse in H.
  by apply has_char_lstrip_space.
Qed.

(** X18.  Every address that [main] hands to [scan_repo] is a line of the
    input file without the white space at its ends: it is not empty, holds
    no newline, and neither starts nor ends with a white-space character;
    a line of white space alone gives no address. *)
Theorem read_repos_stripped content url :
  url ∈ read_repos content →
  url ≠ EmptyString
  ∧ has_char "010" url = false
  ∧ of_class Chars.is_space (Str.first_char url) = false
  ∧ of_class Chars.is_space (Str.last_char url) = false.
Proof.
  unfold read_repos. rewrite list_elem_of_filter, list_elem_of_fmap.
  intros (Hne & line & -> & Hline). split; [done|].
  split; [|apply strip_ends].
  destruct (has_char "010" (strip line)) eqn:Hc; [|done].
  apply has_char_strip in Hc.
  pose proof (split_pieces_clean "010" (universal_newlines content)) as Hclean.
  rewrite Forall_forall in Hclean. by rewrite (Hclean line Hline) in Hc.
Qed.

(** A line with white space around the address, and two lines without
    one. *)
Lemma read_repos_stripped_witness :
  let url := "https://example.org/team/one.git" in
  url ≠ EmptyString
  ∧ has_char "010" url = false
  ∧ of_class Chars.is_space (Str.first_char url) = false
  ∧ of_class Chars.is_space (Str.last_char url) = false.
Proof.
  apply (read_repos_stripped "   https://example.org/team/one.git  

    
").
  vm_compute. apply list_elem_of_here.
Defined.

(** ** The name of a repository *)

Lemma has_char_replace_from c old skip s :
  has_char c (Str.replace_from old EmptyString skip s) = true → has_char c s = true.
Proof.
  revert skip. induction s as [|d s IH]; intros skip; [done|].
  cbn [Str.replace_from has_char]. destruct skip as [|k].
  - destruct (Str.startswith (String d s) old && negb (String.eqb old EmptyString)).
    + rewrite append_nil. intros H%IH. rewrite H. apply orb_true_r.
    + cbn [has_char]. intros [H|H%IH]%orb_true_iff; rewrite H; [done|apply orb_true_r].
  - intros H%IH. rewrite H. apply orb_true_r.
Qed.

Lemma last_Forall {A} (P : A → Prop) l d : Forall P l → P d → P (List.last l d).
Proof.
  intros Hl Hd. induction Hl as [|x l Hx Hl IH]; [done|].
  cbn [List.last]. by destruct l.
Qed.

Lemma rstrip_trailing c s :
  Str.rstrip c (s +:+ String c EmptyString) = Str.rstrip c s.
Proof.
  unfold Str.rstrip. rewrite reverse_append.
  change (Str.reverse (String c EmptyString)) with (String c EmptyString).
  rewrite append_cons, append_nil. cbn [Str.lstrip]. by rewrite Ascii.eqb_refl.
Qed.

(** X19.  The name of a repository holds no slash, and a slash at the end
    of the address does not change the name. *)
Theorem name_of_repo_spec url :
  has_char "/" (name_of_repo url) = false
  ∧ name_of_repo (url +:+ "/") = name_of_repo url.
Proof.
  unfold name_of_repo. split.
  - destruct (has_char "/" _) eqn:Hc; [|done].
    apply has_char_replace_from in Hc.
    assert (Hlast : has_char "/" (List.last (Str.split "/" (Str.rstrip "/" url))
                                    EmptyString) = false).
    { apply (last_Forall (fun piece => has_char "/" piece = false));
        [apply split_pieces_clean|done]. }
    by rewrite Hlast in Hc.
  - by rewrite rstrip_trailing.
Qed.

(** ** The tiers in terms of the files *)

Lemma seen_files files token :
  seen (scan_files files) token = true ↔ strong_in files token.
Proof.
  rewrite seen_spec. unfold strong_in, lowered. rewrite !elem_of_map. split.
  - intros [(pkg & -> & Hin)|[(tk & -> & Hin)|Hsize]].
    + apply imports_found_spec in Hin as (f & Hf & Hin). left. by exists f, pkg.
    + apply manifest_tokens_spec in Hin as (f & Hf & Hm & Hin).
      right. left. exists f, tk.
      split; [exact Hf|]. split; [exact Hm|]. split; [exact Hin|reflexivity].
    + right. right. apply two_of_size in Hsize as (p1 & p2 & Hp1 & Hp2 & Hne).
      apply held_packages_found in Hp1 as (f1 & Hf1 & <- & H1).
      apply held_packages_found in Hp2 as (f2 & Hf2 & <- & H2).
      exists f1, f2. auto.
  - intros [(f & pkg & Hf & Hin & ->)|[(f & tk & Hf & Hm & Hin & ->)
                                      |(f1 & f2 & Hf1 & Hf2 & Hne & H1 & H2)]].
    + left. exists pkg. split; [done|]. apply imports_found_spec. by exists f.
    + right. left. exists tk. split; [reflexivity|]. apply manifest_tokens_spec.
      exists f. split; [exact Hf|]. split; [exact Hm|exact Hin].
    + right. right. apply (two_elements _ (rel f1) (rel f2)); [..|done].
      * apply held_packages_found. by exists f1.
      * apply held_packages_found. by exists f2.
Qed.

Lemma mapped_skill_files files token s :
  mapped_skill (scan_files files) token = Some s
  ↔ token_of files token ∧ head (map_token_to_skill token) = Some s.
Proof.
  rewrite mapped_skill_spec, <- all_tokens_files.
  case_decide as Hin; [|split; [done|by intros [? _]]].
  split; [done|by intros [_ ?]].
Qed.

(** X20.  The three tiers of a record in terms of the files of the working
    copy.  A label is a candidate under a category when a token of the
    universe maps to it; it is accepted when it is the first skill of a
    token that an import extractor or the manifest tokenizer found, or that
    two files note; it is possible when it is the first skill of a token for
    which none of these holds. *)
Theorem tiers_of_files url files category label :
  let r := classify url (scan_files files) in
  (In_tier (candidate_skills_by_category r) category label
   ↔ ∃ token, token_of files token
       ∧ (label, category) ∈ map_token_to_skill token)
  ∧ (In_tier (accepted_skills_by_category r) category label
     ↔ ∃ token, token_of files token
         ∧ head (map_token_to_skill token) = Some (label, category)
         ∧ strong_in files token)
  ∧ (In_tier (possible_skills_by_category r) category label
     ↔ ∃ token, token_of files token
         ∧ head (map_token_to_skill token) = Some (label, category)
         ∧ ¬ strong_in files token).
Proof.
  intros r. subst r. conjuncts.
  - rewrite candidate_spec.
    split; intros (token & Htoken & Hmap); exists token;
      (split; [by apply all_tokens_files|done]).
  - rewrite accepted_spec. split.
    + intros (token & [Htoken Hhead]%mapped_skill_files & Hseen%seen_files).
      by exists token.
    + intros (token & Htoken & Hhead & Hstrong). exists token.
      split; [by apply mapped_skill_files|by apply seen_files].
  - rewrite possible_spec. split.
    + intros (token & [Htoken Hhead]%mapped_skill_files & Hseen).
      exists token. split; [done|]. split; [done|].
      intros Hstrong%seen_files. congruence.
    + intros (token & Htoken & Hhead & Hstrong). exists token.
      split; [by apply mapped_skill_files|].
      destruct (seen (scan_files files) token) eqn:Hseen; [|done].
      by apply seen_files in Hseen.
Qed.

(** The keys of the tables are in lower case, and each maps to the skill of
    its entry. *)
Lemma table_entries_map_to_their_skill :
  Forall (fun item => Str.lower item.1 = item.1
                      ∧ (item.2.1, item.2.2) ∈ map_token_to_skill item.1)
    (KEYWORD_MAP ++ PACKAGE_KEYWORD_MAP).
Proof. evaluate. Qed.

(** X21.  The evidence of a record is held under the labels of candidate
    skills, and under the word manifests: a label with evidence is a
    candidate of the record under some category. *)
Theorem evidenced_labels_are_candidates url files label p :
  In_tier (evidence (classify url (scan_files files))) label p →
  label = "manifests"
  ∨ ∃ category,
      In_tier (candidate_skills_by_category (classify url (scan_files files)))
        category label.
Proof.
  unfold classify at 1. cbn [evidence]. rewrite In_tier_sorted_set.
  intros (f & Hf & _ & [[-> _]|(key & category & Hitem & Hhit)])%held_evidence;
    [by left|].
  right. exists category. apply candidate_spec.
  pose proof table_entries_map_to_their_skill as Htable.
  rewrite Forall_forall in Htable. destruct (Htable _ Hitem) as [Hlower Hmap].
  cbn [fst snd] in Hlower, Hmap.
  exists key. split; [|done].
  apply all_tokens_files. exists f, key. split; [done|]. split; [|done].
  right. right. right. split; [|done].
  unfold table_keys. apply elem_of_app in Hitem as [Hitem|Hitem].
  - apply elem_of_app. left. apply list_elem_of_fmap. by exists (key, (label, category)).
  - apply elem_of_app. right. apply list_elem_of_fmap. by exists (key, (label, category)).
Qed.

Lemma evidenced_labels_are_candidates_witness :
  let r := classify demo_url (scan_files [requirements]) in
  In_tier (evidence r) "Flask" "requirements.txt"
  ∧ ("Flask" = "manifests"
     ∨ ∃ category, In_tier (candidate_skills_by_category r) category "Flask").
Proof.
  intros r.
  assert (H : In_tier (evidence r) "Flask" "requirements.txt").
  { exists ["requirements.txt"]. split; [by vm_compute|apply list_elem_of_here]. }
  split; [exact H|].
  exact (evidenced_labels_are_candidates demo_url [requirements] "Flask"
           "requirements.txt" H).
Defined.

(** ** The suffix of a file name *)

Lemma is_code_dot c : Chars.is_code 46 c = Ascii.eqb "." c.
Proof. destruct c as [[] [] [] [] [] [] [] []]; reflexivity. Qed.

Lemma rfind_dot_none s : rfind_dot s = None ↔ has_char "." s = false.
Proof.
  induction s as [|c s IH]; [done|]. cbn [rfind_dot has_char].
  rewrite orb_false_iff, <- IH, <- is_code_dot.
  destruct (rfind_dot s); [split; [done|by intros [_ ?]]|].
  destruct (Chars.is_code 46 c); [split; [done|by intros [? _]]|done].
Qed.

Lemma has_char_middle c stem rest : has_char c (stem +:+ String c rest) = true.
Proof.
  rewrite has_char_append. cbn [has_char]. rewrite Ascii.eqb_refl. apply orb_true_r.
Qed.

Lemma rfind_dot_some s i :
  rfind_dot s = Some i
  ↔ ∃ stem rest, s = stem +:+ String "." rest ∧ String.length stem = i
      ∧ has_char "." rest = false.
Proof.
  revert i. induction s as [|c s IH]; intros i.
  - split; [done|]. intros ([|d stem] & rest & H & _); [by rewrite append_nil in H|].
    by rewrite append_cons in H.
  - cbn [rfind_dot]. destruct (rfind_dot s) as [j|] eqn:Hj.
    + destruct (proj1 (IH j) eq_refl) as (stem & rest & -> & Hlen & Hrest). split.
      * intros [= <-]. exists (String c stem), rest.
        rewrite append_cons. cbn [String.length]. by rewrite Hlen.
      * intros (stem' & rest' & Heq & Hlen' & Hrest'). f_equal.
        destruct stem' as [|d stem'].
        -- rewrite append_nil in Heq. injection Heq as -> Heq.
           assert (Hdot : has_char "." rest' = true)
             by (rewrite <- Heq; apply has_char_middle).
           congruence.
        -- rewrite append_cons in Heq. injection Heq as -> Heq.
           assert (Hsome : Some j = Some (String.length stem')).
           { apply IH. by exists stem', rest'. }
           injection Hsome as ->. by rewrite <- Hlen'.
    + apply rfind_dot_none in Hj. rewrite is_code_dot.
      destruct (Ascii.eqb_spec "." c) as [<-|Hne].
      * split.
        -- intros [= <-]. by exists EmptyString, s.
        -- intros (stem & rest & Heq & Hlen & Hrest). f_equal.
           destruct stem as [|d stem]; [by subst|].
           rewrite append_cons in Heq. injection Heq as _ ->.
           by rewrite has_char_middle in Hj.
      * split; [done|]. intros (stem & rest & Heq & Hlen & Hrest).
        destruct stem as [|d stem].
        -- rewrite append_nil in Heq. by injection Heq as -> _.
        -- rewrite append_cons in Heq. injection Heq as -> ->.
           rewrite has_char_append in Hj. cbn [has_char] in Hj.
           rewrite Ascii.eqb_refl in Hj. by rewrite orb_true_r in Hj.
Qed.

Lemma drop_append (a b : string) : Str.drop (String.length a) (a +:+ b) = b.
Proof.
  induction a as [|c a IH]; [by rewrite append_nil; destruct b|].
  rewrite append_cons. cbn [String.length Str.drop]. exact IH.
Qed.

Lemma suffix_of_parts stem rest :
  has_char "." rest = false →
  suffix (stem +:+ String "." rest)
  = if bool_decide (stem ≠ EmptyString ∧ rest ≠ EmptyString)
    then String "." rest else EmptyString.
Proof.
  intros Hrest. unfold suffix.
  assert (Hsome : rfind_dot (stem +:+ String "." rest) = Some (String.length stem)).
  { apply rfind_dot_some. by exists stem, rest. }
  rewrite Hsome, drop_append, length_append. cbn [String.length].
  destruct stem as [|c stem], rest as [|d rest]; cbn [String.length].
  - by rewrite bool_decide_eq_false_2 by (by intros [? _]).
  - by rewrite bool_decide_eq_false_2 by (by intros [? _]).
  - rewrite bool_decide_eq_false_2 by (by intros [_ ?]).
    replace (S (String.length stem) <? S (String.length stem) + 1 - 1)%nat
      with false; [done|]. symmetry. apply Nat.ltb_ge. lia.
  - rewrite bool_decide_eq_true_2 by done.
    replace (S (String.length stem) <? S (String.length stem) + S (S (String.length rest)) - 1)%nat
      with true; [done|]. symmetry. apply Nat.ltb_lt. lia.
Qed.

(** X22.  The suffix of a file name is the text from its last dot on, when
    there is text on both sides of that dot: a name without a dot, a name
    whose only dot comes first, and a name that ends with a dot have no
    suffix, and so add no extension and no language to the record. *)
Theorem suffix_spec name ext :
  suffix name = ext ∧ ext ≠ EmptyString
  ↔ ∃ stem rest, name = stem +:+ "." +:+ rest
      ∧ stem ≠ EmptyString ∧ rest ≠ EmptyString
      ∧ has_char "." rest = false
      ∧ ext = "." +:+ rest.
Proof.
  split.
  - intros [Hs Hne]. unfold suffix in Hs.
    destruct (rfind_dot name) as [i|] eqn:Hi; [|congruence].
    apply rfind_dot_some in Hi as (stem & rest & -> & Hlen & Hrest).
    pose proof (suffix_of_parts stem rest Hrest) as Hparts.
    unfold suffix in Hparts.
    assert (Hsome : rfind_dot (stem +:+ String "." rest) = Some i).
    { apply rfind_dot_some. by exists stem, rest. }
    rewrite Hsome in Hparts. rewrite Hparts in Hs.
    case_bool_decide as Hboth; [|congruence].
    destruct Hboth as [Hstem Hrest']. exists stem, rest.
    by rewrite append_cons, append_nil.
  - intros (stem & rest & -> & Hstem & Hrest' & Hrest & ->).
    rewrite !append_cons, !append_nil. rewrite (suffix_of_parts stem rest Hrest).
    by rewrite bool_decide_eq_true_2.
Qed.
